(** * The transmission path of the I/O kernel (iokernel/tx.c)

    A shallow embedding of the completion router ([tx_send_completion],
    [drain_overflow_queue], [tx_drain_completions]), of the egress poller
    ([tx_drain_queue]), of the in-place UDP segmenter and of the burst
    orchestration ([tx_burst]), followed by the properties proved about
    them.

    Pointers to [struct proc], [struct thread] and [struct rte_mbuf] are
    indices into tables of the state, a null pointer is [None].  The shared
    memory of the runtimes is a flat byte memory.  Unsigned C arithmetic is
    written with its wrap-around. *)

From Stdlib Require Import ZArith Lia.
From stdpp Require Import base option list.

Local Open Scope Z_scope.

(** ** Machine integers *)

Definition u16 (z : Z) : Z := z mod 2 ^ 16.
Definition u32 (z : Z) : Z := z mod 2 ^ 32.
Definition u64 (z : Z) : Z := z mod 2 ^ 64.

(** Conversion of an [unsigned int] value to [int] (two's complement). *)
Definition int_of_u32 (z : Z) : Z := if z <? 2 ^ 31 then z else z - 2 ^ 32.

(** ** Constants of tx.c *)

Definition TX_PREFETCH_STRIDE : Z := 2.
Definition UDP_OFFSET : Z := 34.
Definition MTU_SIZE : Z := 1500.

(** Command tags of the rings.  Modelled from the spec: the enums of
    iokernel/queue.h are not among the sources; section 6 names the two tags
    "transmit" and "net-complete", each a fixed constant. *)
Definition TXPKT_NET_XMIT : Z := 0.
Definition RX_NET_COMPLETE : Z := 1.

(** ** Data model *)

(** Private data stored in egress mbufs (the MLX-only [lkey] is left out). *)
Record tx_pktmbuf_priv := mk_priv {
  priv_p : option nat;          (* struct proc *p *)
  priv_th : option nat;         (* struct thread *th *)
  completion_data : Z           (* unsigned long *)
}.

Record rte_mbuf := mk_mbuf {
  buf_addr : Z;
  buf_physaddr : Z;
  data_off : Z;
  mbuf_refcnt : Z;
  buf_len : Z;
  pkt_len : Z;
  data_len : Z;
  ol_flags : Z;
  l4_len : Z;
  l3_len : Z;
  l2_len : Z;
  priv : tx_pktmbuf_priv
}.

Definition tx_pktmbuf_get_priv (buf : rte_mbuf) : tx_pktmbuf_priv := priv buf.

Definition set_priv (d : tx_pktmbuf_priv) (b : rte_mbuf) : rte_mbuf :=
  mk_mbuf (buf_addr b) (buf_physaddr b) (data_off b) (mbuf_refcnt b)
    (buf_len b) (pkt_len b) (data_len b) (ol_flags b)
    (l4_len b) (l3_len b) (l2_len b) d.

(** A record of a ring: command tag and payload. *)
Definition lrpc_msg : Type := Z * Z.

Record thread := mk_thread {
  th_p : nat;                   (* t->p *)
  active : bool;
  rxq : list lrpc_msg;          (* ingress ring, oldest record first *)
  rxq_size : nat;               (* capacity of the ingress ring *)
  txpktq : list lrpc_msg        (* egress ring, oldest record first *)
}.

Record proc := mk_proc {
  kill : bool;
  ref : Z;                      (* reference count *)
  overflow_queue : list Z;      (* array of max_overflows slots *)
  nr_overflows : nat;
  max_overflows : nat;
  next_thread_rr : Z;           (* unsigned int *)
  p_threads : list nat;         (* the worker threads of the process *)
  region_base : Z;
  region_len : Z;
  page_paddrs : list Z
}.

Inductive stat_ctr :=
| COMPLETION_ENQUEUED
| TX_COMPLETION_OVERFLOW
| COMPLETION_DRAINED
| TX_PULLED
| TX_COMPLETION_FAIL
| TX_BACKPRESSURE.

Definition stat_idx (c : stat_ctr) : nat :=
  match c with
  | COMPLETION_ENQUEUED => 0
  | TX_COMPLETION_OVERFLOW => 1
  | COMPLETION_DRAINED => 2
  | TX_PULLED => 3
  | TX_COMPLETION_FAIL => 4
  | TX_BACKPRESSURE => 5
  end%nat.

(** The state the transmit thread works on.  [rx_log] is a history
    variable: every record an ingress ring accepted, with the thread it went
    to, in the order of acceptance.  [nic_log] is the history of the calls of
    [rte_eth_tx_burst]: the buffers offered and the count accepted. *)
Record iokernel := mk_iok {
  procs : list proc;
  threads : list thread;
  stats : list Z;
  rx_log : list (nat * lrpc_msg);
  clients : list nat;           (* dp.clients, dp.nr_clients its length *)
  drain_pos : Z;                (* static pos of tx_drain_completions *)
  ts : list nat;                (* ts[0 .. nrts) *)
  shm : Z -> Z;                 (* shared memory, byte by address *)
  mbufs : list rte_mbuf;        (* the objects of tx_mbuf_pool *)
  pool : list nat;              (* free objects of tx_mbuf_pool *)
  pos : Z;                      (* static unsigned int pos of tx_burst *)
  n_pkts : Z;                   (* static unsigned int n_pkts *)
  n_bufs : Z;                   (* static unsigned int n_bufs *)
  bufs : list nat;              (* static struct rte_mbuf *bufs[TX_MAX_SEGS] *)
  nic_log : list (list nat * Z)
}.

Definition set_procs (v : list proc) (s : iokernel) : iokernel :=
  mk_iok v (threads s) (stats s) (rx_log s) (clients s) (drain_pos s) (ts s)
    (shm s) (mbufs s) (pool s) (pos s) (n_pkts s) (n_bufs s) (bufs s) (nic_log s).
Definition set_threads (v : list thread) (s : iokernel) : iokernel :=
  mk_iok (procs s) v (stats s) (rx_log s) (clients s) (drain_pos s) (ts s)
    (shm s) (mbufs s) (pool s) (pos s) (n_pkts s) (n_bufs s) (bufs s) (nic_log s).
Definition set_stats (v : list Z) (s : iokernel) : iokernel :=
  mk_iok (procs s) (threads s) v (rx_log s) (clients s) (drain_pos s) (ts s)
    (shm s) (mbufs s) (pool s) (pos s) (n_pkts s) (n_bufs s) (bufs s) (nic_log s).
Definition set_rx_log (v : list (nat * lrpc_msg)) (s : iokernel) : iokernel :=
  mk_iok (procs s) (threads s) (stats s) v (clients s) (drain_pos s) (ts s)
    (shm s) (mbufs s) (pool s) (pos s) (n_pkts s) (n_bufs s) (bufs s) (nic_log s).
Definition set_drain_pos (v : Z) (s : iokernel) : iokernel :=
  mk_iok (procs s) (threads s) (stats s) (rx_log s) (clients s) v (ts s)
    (shm s) (mbufs s) (pool s) (pos s) (n_pkts s) (n_bufs s) (bufs s) (nic_log s).
Definition set_ts (v : list nat) (s : iokernel) : iokernel :=
  mk_iok (procs s) (threads s) (stats s) (rx_log s) (clients s) (drain_pos s) v
    (shm s) (mbufs s) (pool s) (pos s) (n_pkts s) (n_bufs s) (bufs s) (nic_log s).
Definition set_shm (v : Z -> Z) (s : iokernel) : iokernel :=
  mk_iok (procs s) (threads s) (stats s) (rx_log s) (clients s) (drain_pos s) (ts s)
    v (mbufs s) (pool s) (pos s) (n_pkts s) (n_bufs s) (bufs s) (nic_log s).
Definition set_mbufs (v : list rte_mbuf) (s : iokernel) : iokernel :=
  mk_iok (procs s) (threads s) (stats s) (rx_log s) (clients s) (drain_pos s) (ts s)
    (shm s) v (pool s) (pos s) (n_pkts s) (n_bufs s) (bufs s) (nic_log s).
Definition set_pool (v : list nat) (s : iokernel) : iokernel :=
  mk_iok (procs s) (threads s) (stats s) (rx_log s) (clients s) (drain_pos s) (ts s)
    (shm s) (mbufs s) v (pos s) (n_pkts s) (n_bufs s) (bufs s) (nic_log s).
Definition set_pos (v : Z) (s : iokernel) : iokernel :=
  mk_iok (procs s) (threads s) (stats s) (rx_log s) (clients s) (drain_pos s) (ts s)
    (shm s) (mbufs s) (pool s) v (n_pkts s) (n_bufs s) (bufs s) (nic_log s).
Definition set_n_pkts (v : Z) (s : iokernel) : iokernel :=
  mk_iok (procs s) (threads s) (stats s) (rx_log s) (clients s) (drain_pos s) (ts s)
    (shm s) (mbufs s) (pool s) (pos s) v (n_bufs s) (bufs s) (nic_log s).
Definition set_n_bufs (v : Z) (s : iokernel) : iokernel :=
  mk_iok (procs s) (threads s) (stats s) (rx_log s) (clients s) (drain_pos s) (ts s)
    (shm s) (mbufs s) (pool s) (pos s) (n_pkts s) v (bufs s) (nic_log s).
Definition set_bufs (v : list nat) (s : iokernel) : iokernel :=
  mk_iok (procs s) (threads s) (stats s) (rx_log s) (clients s) (drain_pos s) (ts s)
    (shm s) (mbufs s) (pool s) (pos s) (n_pkts s) (n_bufs s) v (nic_log s).
Definition set_nic_log (v : list (list nat * Z)) (s : iokernel) : iokernel :=
  mk_iok (procs s) (threads s) (stats s) (rx_log s) (clients s) (drain_pos s) (ts s)
    (shm s) (mbufs s) (pool s) (pos s) (n_pkts s) (n_bufs s) (bufs s) v.

Definition set_rxq (q : list lrpc_msg) (t : thread) : thread :=
  mk_thread (th_p t) (active t) q (rxq_size t) (txpktq t).
Definition set_txpktq (q : list lrpc_msg) (t : thread) : thread :=
  mk_thread (th_p t) (active t) (rxq t) (rxq_size t) q.

Definition set_ref (v : Z) (p : proc) : proc :=
  mk_proc (kill p) v (overflow_queue p) (nr_overflows p) (max_overflows p)
    (next_thread_rr p) (p_threads p) (region_base p) (region_len p) (page_paddrs p).
Definition set_overflow_queue (v : list Z) (p : proc) : proc :=
  mk_proc (kill p) (ref p) v (nr_overflows p) (max_overflows p)
    (next_thread_rr p) (p_threads p) (region_base p) (region_len p) (page_paddrs p).
Definition set_nr_overflows (v : nat) (p : proc) : proc :=
  mk_proc (kill p) (ref p) (overflow_queue p) v (max_overflows p)
    (next_thread_rr p) (p_threads p) (region_base p) (region_len p) (page_paddrs p).
Definition set_next_thread_rr (v : Z) (p : proc) : proc :=
  mk_proc (kill p) (ref p) (overflow_queue p) (nr_overflows p) (max_overflows p)
    v (p_threads p) (region_base p) (region_len p) (page_paddrs p).

(** [STAT_INC(c, v)]: the counters are 64-bit. *)
Definition STAT_INC (c : stat_ctr) (v : Z) (s : iokernel) : iokernel :=
  set_stats (alter (fun x => u64 (x + v)) (stat_idx c) (stats s)) s.

(** Update of the process [p] points to. *)
Definition upd_proc (p : nat) (f : proc -> proc) (s : iokernel) : iokernel :=
  set_procs (alter f p (procs s)) s.

Definition upd_thread (t : nat) (f : thread -> thread) (s : iokernel) : iokernel :=
  set_threads (alter f t (threads s)) s.

(** Modelled from the spec: [proc_get] and [proc_put] (iokernel/defs.h) are
    not among the sources.  Section 3: "Each in-flight B contributes one
    strong reference on its P"; section 4.3: "drop one reference on P". *)
Definition proc_get (p : nat) (s : iokernel) : iokernel :=
  upd_proc p (fun P => set_ref (ref P + 1) P) s.
Definition proc_put (p : nat) (s : iokernel) : iokernel :=
  upd_proc p (fun P => set_ref (ref P - 1) P) s.

(** Modelled from the spec: [lrpc_send] (base/lrpc.h) is not among the
    sources.  Section 3 gives each thread "an ingress completion ring
    (single-producer by the kernel, single-consumer by the runtime)", and
    sections 4.3 and 8 speak of an "enqueue failure" when the "ingress ring
    [is] full": a bounded queue that refuses a record when it holds
    [rxq_size] of them.  The result is the C function's boolean. *)
Definition lrpc_send (t : nat) (cmd payload : Z) (s : iokernel)
  : option (bool * iokernel) :=
  T ← threads s !! t;
  if decide (length (rxq T) < rxq_size T)%nat then
    Some (true,
          set_rx_log (rx_log s ++ [(t, (cmd, payload))])
            (upd_thread t (set_rxq (rxq T ++ [(cmd, payload)])) s))
  else Some (false, s).

(** Modelled from the spec: [rx_send_to_runtime] (iokernel/rx.c) is not
    among the sources.  Section 4.3: "otherwise enqueue into P's thread
    selected by P's internal round-robin cursor"; the cursor value is the
    argument [hash].  A process without threads accepts nothing. *)
Definition rx_send_to_runtime (p : nat) (hash cmd payload : Z) (s : iokernel)
  : option (bool * iokernel) :=
  P ← procs s !! p;
  match p_threads P with
  | [] => Some (false, s)
  | _ => t ← p_threads P !! Z.to_nat (hash mod Z.of_nat (length (p_threads P)));
         lrpc_send t cmd payload s
  end.

(** ** The completion router *)

(** [tx_send_completion]: send a completion event to the runtime for the
    mbuf [buf].  [None] stands for the dereference of a pointer that is not
    in the tables, or a write past the overflow array. *)
Definition tx_send_completion_success (p : nat) (s : iokernel) : bool * iokernel :=
  (true, STAT_INC COMPLETION_ENQUEUED 1 (proc_put p s)).

Definition tx_send_completion (buf : rte_mbuf) (s : iokernel)
  : option (bool * iokernel) :=
  let priv_data := tx_pktmbuf_get_priv buf in
  match priv_p priv_data with
  | None =>
      (* during initialization, the mbufs are enqueued for the first time *)
      Some (true, s)
  | Some p =>
      P ← procs s !! p;
      if kill P then Some (true, proc_put p s)
      else if completion_data priv_data =? 0 then Some (true, proc_put p s)
      else
        th ← priv_th priv_data;
        T ← threads s !! th;
        '(sent, s1) ←
          (if active T
           then lrpc_send th RX_NET_COMPLETE (completion_data priv_data) s
           else rx_send_to_runtime p (next_thread_rr P) RX_NET_COMPLETE
                  (completion_data priv_data)
                  (upd_proc p (set_next_thread_rr (u32 (next_thread_rr P + 1))) s));
        if (sent : bool) then Some (tx_send_completion_success p s1)
        else
          P1 ← procs s1 !! p;
          if decide (nr_overflows P1 = max_overflows P1) then Some (false, s1)
          else if decide (nr_overflows P1 < length (overflow_queue P1))%nat then
            let s2 :=
              upd_proc p (fun P' =>
                set_nr_overflows (S (nr_overflows P'))
                  (set_overflow_queue
                     (<[nr_overflows P' := completion_data priv_data]>
                        (overflow_queue P')) P')) s1 in
            let s3 := STAT_INC COMPLETION_ENQUEUED (-1) s2 in
            let s4 := STAT_INC TX_COMPLETION_OVERFLOW 1 s3 in
            Some (tx_send_completion_success p s4)
          else None
  end.

(** [drain_overflow_queue]: the loop runs at most [nr_overflows] times, which
    is the fuel; [drain_overflow_loop_fuel] shows that it never runs out. *)
Fixpoint drain_overflow_loop (fuel : nat) (p : nat) (n i : Z) (s : iokernel)
  : option (Z * iokernel) :=
  P ← procs s !! p;
  if decide ((0 < nr_overflows P)%nat ∧ i < n) then
    match fuel with
    | O => None
    | S fuel' =>
        tok ← overflow_queue P !! pred (nr_overflows P);
        let s1 :=
          upd_proc p (fun P' =>
            set_nr_overflows (pred (nr_overflows P'))
              (set_next_thread_rr (u32 (next_thread_rr P' + 1)) P')) s in
        '(sent, s2) ← rx_send_to_runtime p (next_thread_rr P) RX_NET_COMPLETE tok s1;
        if (sent : bool) then drain_overflow_loop fuel' p n (i + 1) s2
        else Some (i, upd_proc p (fun P' =>
                        set_nr_overflows (S (nr_overflows P')) P') s2)
    end
  else Some (i, s).

Definition drain_overflow_queue (p : nat) (n : Z) (s : iokernel)
  : option (Z * iokernel) :=
  P ← procs s !! p;
  drain_overflow_loop (nr_overflows P) p n 0 s.

(** [tx_drain_completions].  The constant of iokernel/defs.h is a parameter.
    The loop counter [i] runs from 0 while [i < dp.nr_clients], which is the
    structural argument [k = dp.nr_clients - i]. *)
Section DrainCompletions.
Variable IOKERNEL_OVERFLOW_BATCH_DRAIN : Z.

Fixpoint tx_drain_completions_loop (k : nat) (i drained : Z) (s : iokernel)
  : option (Z * iokernel) :=
  match k with
  | O => Some (drained, s)
  | S k' =>
      if decide (drained < IOKERNEL_OVERFLOW_BATCH_DRAIN) then
        p ← clients s !! Z.to_nat (u64 (drain_pos s + i)
                                    mod Z.of_nat (length (clients s)));
        '(d, s1) ← drain_overflow_queue p
                     (IOKERNEL_OVERFLOW_BATCH_DRAIN - drained) s;
        tx_drain_completions_loop k' (i + 1) (drained + d) s1
      else Some (drained, s)
  end.

Definition tx_drain_completions (s : iokernel) : option (bool * iokernel) :=
  '(drained, s1) ← tx_drain_completions_loop (length (clients s)) 0 0 s;
  Some (bool_decide (0 < drained),
        STAT_INC COMPLETION_DRAINED drained
          (set_drain_pos (u64 (drain_pos s1 + 1)) s1)).

End DrainCompletions.

(** [tx_pktmbuf_priv_init]: zero out private data for a packet. *)
Definition tx_pktmbuf_priv_init (buf : rte_mbuf) : rte_mbuf :=
  set_priv (mk_priv None None 0) buf.

(** ** Vocabulary of the statements about the router *)

(** The tokens the overflow queue of a process holds, oldest first. *)
Definition overflow_of (P : proc) : list Z :=
  take (nr_overflows P) (overflow_queue P).

(** The payloads of the records the ingress rings accepted so far. *)
Definition log_tokens (s : iokernel) : list Z :=
  (fun e : nat * lrpc_msg => snd (snd e)) <$> rx_log s.

(** One record was appended to the ingress ring of one thread. *)
Definition ring_enqueued (msg : lrpc_msg) (s s' : iokernel) : Prop :=
  ∃ t T, threads s !! t = Some T ∧
         threads s' = <[t := set_rxq (rxq T ++ [msg]) T]> (threads s).

(** One token was appended to the overflow queue of [p]. *)
Definition overflow_enqueued (p : nat) (tok : Z) (s s' : iokernel) : Prop :=
  ∃ P P', procs s !! p = Some P ∧ procs s' !! p = Some P' ∧
          overflow_of P' = overflow_of P ++ [tok].

Definition rings_unchanged (s s' : iokernel) : Prop := threads s' = threads s.
Definition overflows_unchanged (s s' : iokernel) : Prop :=
  overflow_of <$> procs s' = overflow_of <$> procs s.

(** Well-formedness of a process record: the threads of the process exist
    and the overflow array has [max_overflows] slots, [nr_overflows] of them
    in use. *)
Definition proc_ok (s : iokernel) (P : proc) : Prop :=
  Forall (fun t => is_Some (threads s !! t)) (p_threads P) ∧
  (nr_overflows P ≤ max_overflows P)%nat ∧
  length (overflow_queue P) = max_overflows P.

(** The thread pointer of a trailer is set and valid. *)
Definition priv_th_ok (s : iokernel) (d : tx_pktmbuf_priv) : Prop :=
  ∃ th, priv_th d = Some th ∧ is_Some (threads s !! th).

(** ** Outcomes of the transmit path

    [Ret a s]: the function returns [a] in state [s].  [Bug s]: a [BUG_ON]
    fired in state [s]; [BUG_ON] (base/assert.h, not among the sources) is the
    fatal assertion of the code base, control does not come back to the
    caller and the statements after it are not executed.  [Undef]: the C
    code has no defined result (a pointer outside the tables, an array index
    out of range, a loop that does not end, the read of a slot of an
    automatic array that was never written, an access through a descriptor
    that leaves the bytes the descriptor declares). *)
Inductive outcome (A : Type) : Type :=
| Ret (a : A) (s : iokernel)
| Bug (s : iokernel)
| Undef.
Arguments Ret {A} a s.
Arguments Bug {A} s.
Arguments Undef {A}.

Definition obind {A B : Type} (x : outcome A) (f : A → iokernel → outcome B)
  : outcome B :=
  match x with
  | Ret a s => f a s
  | Bug s => Bug s
  | Undef => Undef
  end.

Definition of_option {A B : Type} (o : option A) (f : A → outcome B) : outcome B :=
  match o with
  | Some a => f a
  | None => Undef
  end.

(** ** The egress poller *)

(** Modelled from the spec: [struct tx_net_hdr] (iokernel/queue.h) is not
    among the sources.  Section 6: "The header block has fields:
    completion_data (8 bytes, opaque to kernel), offload_flags (4 bytes ...),
    len (4 bytes, total on-wire length including L2 header)".  The frame
    starts 18 bytes after the start of the block: [tx_burst] copies the block
    and the 42 bytes of frame headers as one piece of 60 bytes ("header-plus-
    pad", section 9). *)
Definition sizeof_tx_net_hdr : Z := 18.
Definition off_completion_data : Z := 0.
Definition off_olflags : Z := 8.
Definition off_len : Z := 12.

(** [sizeof(struct udp_hdr)] and the offset of its [len] field (net/udp.h is
    not among the sources; the UDP header is source port, destination port,
    length and checksum, two bytes each). *)
Definition sizeof_udp_hdr : Z := 8.
Definition off_udp_len : Z := 4.

(** Modelled from the spec: [shmptr_to_ptr] is not among the sources.
    Section 4.1: "The offset is translated to a host pointer by checking it
    lies within P's region and adding P's base".  [None] is the null
    pointer. *)
Definition shmptr_to_ptr (P : proc) (shmptr len : Z) : option Z :=
  if decide (0 ≤ shmptr ∧ shmptr + len ≤ region_len P)
  then Some (region_base P + shmptr) else None.

(** Modelled from the spec: [unpoll_thread] (iokernel/defs.h) is not among
    the sources.  Section 4.1: "A thread observed as inactive during polling
    must be released (removed from the poll set)". *)
Definition unpoll_thread (t : nat) (s : iokernel) : iokernel :=
  set_ts (filter (fun t' => t' ≠ t) (ts s)) s.

(** [tx_drain_queue]: the loop [for (i = 0; i < n; i++)] with [k = n - i]
    iterations left; [hdrs] are the pointers stored so far, [hdrs[0 .. i)].
    [lrpc_recv] is modelled from the spec, like [lrpc_send]: it takes the
    oldest record of the egress ring and fails on an empty ring. *)
Fixpoint tx_drain_queue_loop (k : nat) (t : nat) (i : Z) (hdrs : list Z)
    (s : iokernel) : outcome (Z * list Z) :=
  match k with
  | O => Ret (i, hdrs) s
  | S k' =>
      of_option (threads s !! t) (fun T =>
      match txpktq T with
      | [] =>
          (* lrpc_recv failed *)
          Ret (i, hdrs) (if active T then s else unpoll_thread t s)
      | (cmd, payload) :: q =>
          let s1 := upd_thread t (set_txpktq q) s in
          (* BUG_ON(cmd != TXPKT_NET_XMIT) *)
          if decide (cmd ≠ TXPKT_NET_XMIT) then Bug s1
          else
            of_option (procs s1 !! th_p T) (fun P =>
            match shmptr_to_ptr P payload sizeof_tx_net_hdr with
            | None => (* BUG_ON(!hdrs[i]) *) Bug s1
            | Some ptr => tx_drain_queue_loop k' t (i + 1) (hdrs ++ [ptr]) s1
            end)
      end)
  end.

Definition tx_drain_queue (t : nat) (n : Z) (s : iokernel) : outcome (Z * list Z) :=
  tx_drain_queue_loop (Z.to_nat n) t 0 [] s.

(** ** Shared memory *)

Definition mem : Type := Z → Z.

Definition load8 (m : mem) (a : Z) : Z := m a mod 256.
Definition load16 (m : mem) (a : Z) : Z := load8 m a + 2 ^ 8 * load8 m (a + 1).
Definition load32 (m : mem) (a : Z) : Z := load16 m a + 2 ^ 16 * load16 m (a + 2).
Definition load64 (m : mem) (a : Z) : Z := load32 m a + 2 ^ 32 * load32 m (a + 4).

Definition store8 (m : mem) (a v : Z) : mem :=
  fun x => if x =? a then v mod 256 else m x.
Definition store16 (m : mem) (a v : Z) : mem :=
  store8 (store8 m a v) (a + 1) (v / 2 ^ 8).
Definition store32 (m : mem) (a v : Z) : mem :=
  store16 (store16 m a v) (a + 2) (v / 2 ^ 16).
Definition store64 (m : mem) (a v : Z) : mem :=
  store32 (store32 m a v) (a + 4) (v / 2 ^ 32).

(** [memmove]: the [n] bytes at [src] are copied to [dst] as if through a
    temporary buffer. *)
Definition memmove (m : mem) (dst src n : Z) : mem :=
  fun x => if (dst <=? x) && (x <? dst + n) then m (src + (x - dst)) else m x.

(** [memcpy] is only called by [tx_burst] with [dst = src + 1518] and 60
    bytes, which do not overlap. *)
Definition memcpy (m : mem) (dst src n : Z) : mem := memmove m dst src n.

(** [hton16] and [ntoh16] (base/byteorder.h is not among the sources): the
    hosts of the I/O kernel are little-endian, network order is big-endian,
    both functions swap the two bytes of a 16-bit value. *)
Definition bswap16 (x : Z) : Z := (x mod 2 ^ 8) * 2 ^ 8 + (x / 2 ^ 8) mod 2 ^ 8.
Definition hton16 (x : Z) : Z := bswap16 x.
Definition ntoh16 (x : Z) : Z := bswap16 x.

(** Fields of the [struct tx_net_hdr] at address [h]. *)
Definition hdr_completion_data (m : mem) (h : Z) : Z := load64 m (h + off_completion_data).
Definition hdr_olflags (m : mem) (h : Z) : Z := load32 m (h + off_olflags).
Definition hdr_len (m : mem) (h : Z) : Z := load32 m (h + off_len).
Definition hdr_payload (h : Z) : Z := h + sizeof_tx_net_hdr.

(** The length fields of the frame at [hdr->payload], in host order: the UDP
    length (frame offset 34 + 4 = 38) and the IP total length (frame offset
    14 + 2 = 16). *)
Definition udp_len_field (m : mem) (h : Z) : Z := ntoh16 (load16 m (hdr_payload h + 38)).
Definition ip_len_field (m : mem) (h : Z) : Z := ntoh16 (load16 m (hdr_payload h + 16)).

(** ** The segmenter (UDP GSO) *)

(** Perform (segs - 1) memory "moves":
    [for (j = 1; j <= segs - 1; ++j) { memmove(...); curr -= 1458; }],
    [k] iterations left. *)
Fixpoint gso_move_payload (k : nat) (j segs len curr : Z) (m : mem) : Z * mem :=
  match k with
  | O => (curr, m)
  | S k' =>
      let n := if j =? 1 then u32 (len - u32 (1458 * u32 (segs - 1))) else 1458 in
      gso_move_payload k' (j + 1) segs len (curr - 1458)
        (memmove m (curr + u32 (u32 (segs - j) * 60)) curr n)
  end.

(** Update tx_net_hdr, udp_hdr, ip_hdr len fields of the header at [shdr],
    whose [len] field was just written. *)
Definition gso_update_len_fields (m : mem) (shdr : Z) : mem :=
  let m1 := store16 m (hdr_payload shdr + 38) (hton16 (u16 (u32 (hdr_len m shdr - 34)))) in
  store16 m1 (hdr_payload shdr + 16) (hton16 (u16 (u32 (hdr_len m1 shdr - 14)))).

(** Perform (segs - 1) memory copies for headers; [out] collects the
    [seg_hdrs[m++] = shdr] of the loop. *)
Fixpoint gso_copy_headers (k : nat) (curr : Z) (m : mem) (out : list Z)
  : Z * mem * list Z :=
  match k with
  | O => (curr, m, out)
  | S k' =>
      let m1 := memcpy m (curr + 1518) curr 60 in
      let shdr := curr in
      let m2 := store32 m1 (shdr + off_len) MTU_SIZE in
      let m3 := store64 m2 (shdr + off_completion_data) 0 in
      let m4 := gso_update_len_fields m3 shdr in
      gso_copy_headers k' (curr + 1518) m4 (out ++ [shdr])
  end.

(** The body of the loop [for (i = n_bufs; i < n_pkts; ++i)] of [tx_burst]
    for the descriptor at [h]: the new memory and the segment headers
    appended to [seg_hdrs].  The descriptor declares the bytes
    [h, h + 18 + hdr->len), its header block and its frame; the moves and
    copies below are defined as long as they stay inside them.  With
    [segs = 0] the bound [segs - 1] of the two inner loops wraps to
    [UINT_MAX], which the unsigned [j] never exceeds: the loops do not end.
    With [len < 1458 * (segs - 1)] the size of the first move,
    [len - 1458 * (segs - 1)] in unsigned arithmetic, wraps (or the product
    itself does): the moves run over 4 GiB past the frame or start below it.
    In both cases the result is [None].  In every other case
    [60 * segs + len <= 18 + hdr->len], and every access lies in the bytes of
    the descriptor. *)
Definition tx_burst_segment (m : mem) (h : Z) : option (mem * list Z) :=
  (* Filter small & non-UDP packets. *)
  if hdr_len m h <=? MTU_SIZE then Some (m, [h])
  else
    (* Get actual length of the payload (assuming UDP). *)
    let len := u32 (ntoh16 (load16 m (hdr_payload h + UDP_OFFSET + off_udp_len))
                    - sizeof_udp_hdr) in
    (* Get the number of segments. *)
    let segs := u32 (u64 (hdr_len m h + sizeof_tx_net_hdr - len) / 60) in
    if segs =? 0 then None
    else if len <? 1458 * (segs - 1) then None
    else
      let curr := hdr_payload h + 42 in
      let curr := curr + u32 (1458 * u32 (segs - 1)) in
      let '(curr, m1) := gso_move_payload (Z.to_nat (segs - 1)) 1 segs len curr m in
      let curr := curr - 60 in
      let '(curr, m2, out) := gso_copy_headers (Z.to_nat (segs - 1)) curr m1 [] in
      let shdr := curr in
      let m3 := store32 m2 (shdr + off_len)
                  (u32 (u32 (len - u32 (1458 * u32 (segs - 1))) + 42)) in
      let m4 := gso_update_len_fields m3 shdr in
      Some (m4, out ++ [shdr]).

(** The loop over the descriptors [hdrs[i]], [threads[i]]: [segs] are the
    pairs [seg_hdrs[.]], [seg_ts[.]] written so far. *)
Fixpoint tx_burst_gso (descs : list (Z * nat)) (m : mem) (segs : list (Z * nat))
  : option (mem * list (Z * nat)) :=
  match descs with
  | [] => Some (m, segs)
  | (h, t) :: rest =>
      '(m', hs) ← tx_burst_segment m h;
      tx_burst_gso rest m' (segs ++ ((fun h' => (h', t)) <$> hs))
  end.


(** ** Logging the packets of a burst *)

(** A read of [n] bytes at [a] through the descriptor at [hdr] stays in the
    bytes the descriptor declares, its header block and its frame of
    [hdr->len] bytes. *)
Definition frame_read (m : mem) (hdr a n : Z) : Prop :=
  hdr ≤ a ∧ a + n ≤ hdr_payload hdr + hdr_len m hdr.

(** The loop [for (int j = 0; (j + 1) * 4 <= pktlen; j++)] of
    [print_pkt_contents]: [out] are the words logged so far, each as
    [log_info] prints it with the conversion d.  Every round moves [j] by
    one towards [pktlen / 4]; [pktlen] rounds of fuel are enough. *)
Fixpoint print_pkt_loop (fuel : nat) (j pktlen udp_data : Z) (m : mem) (hdr : Z)
    (out : list Z) : option (list Z) :=
  if decide ((j + 1) * 4 ≤ pktlen) then
    match fuel with
    | O => None
    | S fuel' =>
        if decide (frame_read m hdr (udp_data + 4 * j) 4) then
          print_pkt_loop fuel' (j + 1) pktlen udp_data m hdr
            (out ++ [int_of_u32 (load32 m (udp_data + 4 * j))])
        else None
    end
  else Some out.

(** [print_pkt_contents]: the words it logs.  It takes the length of the UDP
    payload from the bytes at frame offset 38, whatever the frame is and
    however long it is, and reads that many bytes from frame offset 42 on, in
    words of four; [None]: a read leaves the bytes of the descriptor.  The
    value [ntoh16(len) - sizeof(struct udp_hdr)] is computed in [size_t] and
    converted to [int].  The AES context the function sets up is a local
    variable that is not used. *)
Definition print_pkt_contents (m : mem) (hdr : Z) : option (list Z) :=
  let udphdr_enc := hdr_payload hdr + UDP_OFFSET in
  if decide (frame_read m hdr (udphdr_enc + off_udp_len) 2) then
    let pktlen :=
      int_of_u32 (u32 (u64 (ntoh16 (load16 m (udphdr_enc + off_udp_len))
                            - sizeof_udp_hdr))) in
    let udp_data := udphdr_enc + sizeof_udp_hdr in
    print_pkt_loop (Z.to_nat pktlen) 0 pktlen udp_data m hdr []
  else None.

(** ** Attaching a segment to an mbuf *)

(** Offload flags of a descriptor.  Modelled from the spec: the [OLFLAG_*]
    bits (iokernel/queue.h) are not among the sources; section 6 lists the
    bitmask as "{IP_CKSUM, TCP_CKSUM, IPV4, IPV6}".  The [PKT_TX_*] bits are
    those of DPDK's rte_mbuf. *)
Definition OLFLAG_IP_CHKSUM : Z := 1.
Definition OLFLAG_TCP_CHKSUM : Z := 2.
Definition OLFLAG_IPV4 : Z := 4.
Definition OLFLAG_IPV6 : Z := 8.
Definition PKT_TX_TCP_CKSUM : Z := 2 ^ 52.
Definition PKT_TX_IP_CKSUM : Z := 2 ^ 54.
Definition PKT_TX_IPV4 : Z := 2 ^ 55.
Definition PKT_TX_IPV6 : Z := 2 ^ 56.

(** Modelled from the spec: [PGN_2MB] and [PGOFF_2MB] (base/mem.h) are not
    among the sources.  Section 6: "paddr = P.page_paddrs[header_va >> 21] +
    (header_va & ((1<<21) - 1)), assuming 2 MiB huge pages". *)
Definition PGN_2MB (a : Z) : Z := Z.shiftr a 21.
Definition PGOFF_2MB (a : Z) : Z := Z.land a (2 ^ 21 - 1).

Definition tx_ol_flags (olflags : Z) : Z :=
  let f := 0 in
  let f := if Z.land olflags OLFLAG_IP_CHKSUM =? 0 then f else Z.lor f PKT_TX_IP_CKSUM in
  let f := if Z.land olflags OLFLAG_TCP_CHKSUM =? 0 then f else Z.lor f PKT_TX_TCP_CKSUM in
  let f := if Z.land olflags OLFLAG_IPV4 =? 0 then f else Z.lor f PKT_TX_IPV4 in
  let f := if Z.land olflags OLFLAG_IPV6 =? 0 then f else Z.lor f PKT_TX_IPV6 in
  f.

(** [tx_prepare_tx_mbuf]: prepare rte_mbuf struct for transmission.  The
    16-bit fields of the mbuf truncate the length. *)
Definition tx_prepare_tx_mbuf (buf : nat) (net_hdr : Z) (th : nat) (s : iokernel)
  : outcome unit :=
  of_option (threads s !! th) (fun T =>
  let p := th_p T in
  of_option (procs s !! p) (fun P =>
  of_option (mbufs s !! buf) (fun B =>
  let addr := hdr_payload net_hdr in
  let page_number := u32 (PGN_2MB (u64 (addr - region_base P))) in
  of_option (page_paddrs P !! Z.to_nat page_number) (fun paddr =>
  let len := hdr_len (shm s) net_hdr in
  let olflags := hdr_olflags (shm s) net_hdr in
  let B' :=
    mk_mbuf addr (u64 (paddr + PGOFF_2MB addr)) 0 1
      (u16 len) len (u16 len)
      (tx_ol_flags olflags)
      (if olflags =? 0 then l4_len B else 20)
      (if olflags =? 0 then l3_len B else 20)
      (if olflags =? 0 then l2_len B else 14)
      (mk_priv (Some p) (Some th) (hdr_completion_data (shm s) net_hdr)) in
  (* reference count @p so it doesn't get freed before the completion *)
  Ret tt (proc_get p (set_mbufs (<[buf := B']> (mbufs s)) s)))))).

(** ** The transmit burst *)

Section TxBurst.

(** The burst size (iokernel/defs.h) is a parameter. *)
Variable IOKERNEL_TX_BURST_SIZE : Z.

Definition TX_MAX_SEGS : Z := IOKERNEL_TX_BURST_SIZE * 50.

Definition nrts (s : iokernel) : Z := Z.of_nat (length (ts s)).

(** Poll each kthread in each runtime until all have been polled or we have
    PKT_BURST_SIZE pkts: the loop [for (i = 0; i < nrts; i++)].  [pulled] are
    the descriptors stored in [hdrs] and [threads] by this call, which stand
    at the indices from the entry value of [n_pkts] on.  The boolean of the
    result tells whether the loop was left by [goto full].  [unpoll_thread]
    only shrinks [nrts], so the entry value of [nrts] bounds the number of
    iterations; it is the fuel [k]. *)
Fixpoint tx_burst_poll_loop (k : nat) (i : Z) (pulled : list (Z * nat))
    (pulltotal : Z) (s : iokernel) : outcome (bool * list (Z * nat) * Z) :=
  if decide (i < nrts s) then
    match k with
    | O => Undef
    | S k' =>
        let idx := u32 (pos s + i) mod nrts s in
        of_option (ts s !! Z.to_nat idx) (fun t =>
        obind (tx_drain_queue t
                 (int_of_u32 (u32 (IOKERNEL_TX_BURST_SIZE - n_pkts s))) s)
          (fun '(ret, hdrs) s1 =>
             let pulled := pulled ++ ((fun h => (h, t)) <$> hdrs) in
             let s2 := set_n_pkts (u32 (n_pkts s1 + ret)) s1 in
             let pulltotal := u32 (pulltotal + ret) in
             if decide (IOKERNEL_TX_BURST_SIZE ≤ n_pkts s2)
             then Ret (true, pulled, pulltotal) s2
             else tx_burst_poll_loop k' (i + 1) pulled pulltotal s2))
    end
  else Ret (false, pulled, pulltotal) s.

(** The first part of [tx_burst], up to the label [full]: [None] is the
    early [return false]. *)
Definition tx_burst_poll (s : iokernel) : outcome (option (list (Z * nat) * Z)) :=
  obind (tx_burst_poll_loop (length (ts s)) 0 [] 0 s)
    (fun '(full, pulled, pulltotal) s1 =>
       if (full : bool) then Ret (Some (pulled, pulltotal)) s1
       else if n_pkts s1 =? 0 then Ret None s1
       else Ret (Some (pulled, pulltotal)) (set_pos (u32 (pos s1 + 1)) s1)).

(** [rte_mempool_get_bulk(tx_mbuf_pool, &bufs[n_bufs], n)]: all or nothing. *)
Fixpoint write_bufs (i : nat) (objs : list nat) (b : list nat) : list nat :=
  match objs with
  | [] => b
  | o :: objs' => write_bufs (S i) objs' (<[i := o]> b)
  end.

(** Fill in packet metadata: [for (i = n_bufs; i < n_pkts; i++)] over the
    segments [seg_hdrs[i]], [seg_ts[i]]. *)
Fixpoint tx_burst_fill (i : nat) (segs : list (Z * nat)) (s : iokernel)
  : outcome unit :=
  match segs with
  | [] => Ret tt s
  | (hdr, t) :: segs' =>
      of_option (bufs s !! i) (fun b =>
      obind (tx_prepare_tx_mbuf b hdr t s) (fun _ s1 =>
      tx_burst_fill (S i) segs' s1))
  end.

(** [for (i = 0; i < n_pkts; i++) bufs[i] = bufs[ret + i];] with [k]
    iterations left. *)
Fixpoint tx_burst_shift (k : nat) (i ret : nat) (b : list nat) : option (list nat) :=
  match k with
  | O => Some b
  | S k' => x ← b !! (ret + i)%nat; tx_burst_shift k' (S i) ret (<[i := x]> b)
  end.

(** The loop [for (i = 0; i < n_pkts; ++i) print_pkt_contents(hdrs[i]);]
    with [k] rounds to go, and the words it logs.  [hdrs] is an automatic
    array: this call wrote the slots [hdrs[n_pkts0 ..]], where the
    descriptors [pulled] stand, and no slot below [n_pkts0], the value
    [n_pkts] had on entry.  The read of a slot that was not written gives an
    indeterminate pointer, which [print_pkt_contents] dereferences: [None]. *)
Fixpoint tx_burst_print (k : nat) (i n_pkts0 : Z) (pulled : list (Z * nat))
    (m : mem) : option (list Z) :=
  match k with
  | O => Some []
  | S k' =>
      if decide (i < n_pkts0) then None
      else
        '(hdr, _) ← pulled !! Z.to_nat (i - n_pkts0);
        ws ← print_pkt_contents m hdr;
        rest ← tx_burst_print k' (i + 1) n_pkts0 pulled m;
        Some (ws ++ rest)
  end.

(** The second part of [tx_burst], from the label [full] on.  [n_pkts0] is
    the value [n_pkts] had when [tx_burst] was entered: the slots
    [hdrs[n_pkts0 ..]] hold the descriptors [pulled] by this call and the
    slots below were not written by it, so that the logging loop, which
    starts at 0, and the segmentation loop, which starts at [n_bufs], read an
    indeterminate pointer if [0 < n_pkts0], respectively [n_bufs < n_pkts0].
    [accept] is the number of packets the NIC is ready to take.  What the
    logging loop prints is not kept in the state. *)
Definition tx_burst_transmit (accept : Z) (n_pkts0 : Z)
    (pulled : list (Z * nat)) (pulltotal : Z) (s : iokernel) : outcome bool :=
  let s := set_stats (alter (fun x => u64 (x + pulltotal)) (stat_idx TX_PULLED) (stats s)) s in
  of_option (tx_burst_print (Z.to_nat (n_pkts s)) 0 n_pkts0 pulled (shm s)) (fun _ =>
  (* UDP GSO *)
  if decide (n_bufs s < n_pkts0) then Undef
  else
    let descs := drop (Z.to_nat (n_bufs s - n_pkts0)) pulled in
    of_option (tx_burst_gso descs (shm s) []) (fun '(m', segs) =>
    let m := n_bufs s + Z.of_nat (length segs) in
    if decide (TX_MAX_SEGS < m) then Undef
    else
      let s := set_n_pkts m (set_shm m' s) in
      (* allocate mbufs *)
      let need := Z.to_nat (n_pkts s - n_bufs s) in
      if decide (0 < n_pkts s - n_bufs s ∧ (length (pool s) < need)%nat) then
        Ret true (STAT_INC TX_COMPLETION_FAIL (n_pkts s - n_bufs s) s)
      else if decide (Z.to_nat (n_pkts s) ≤ length (bufs s))%nat then
        let s := set_pool (drop need (pool s))
                   (set_bufs (write_bufs (Z.to_nat (n_bufs s)) (take need (pool s))
                                (bufs s)) s) in
        (* fill in packet metadata *)
        obind (tx_burst_fill (Z.to_nat (n_bufs s)) segs s) (fun _ s =>
        let s := set_n_bufs (n_pkts s) s in
        (* finally, send the packets on the wire; the count is passed as
           a uint16_t *)
        let offered := u16 (n_pkts s) in
        let ret := Z.max 0 (Z.min accept offered) in
        let s := set_nic_log (nic_log s ++ [(take (Z.to_nat offered) (bufs s), ret)]) s in
        (* apply back pressure if the NIC TX ring was full *)
        if decide (ret < n_pkts s) then
          let s := STAT_INC TX_BACKPRESSURE (n_pkts s - ret) s in
          let s := set_n_pkts (n_pkts s - ret) s in
          of_option (tx_burst_shift (Z.to_nat (n_pkts s)) 0 (Z.to_nat ret) (bufs s))
            (fun b =>
               let s := set_bufs b s in
               Ret true (set_n_bufs (n_pkts s) s))
        else
          let s := set_n_pkts 0 s in
          Ret true (set_n_bufs (n_pkts s) s))
      else Undef)).

(** [tx_burst]: process a batch of outgoing packets. *)
Definition tx_burst (accept : Z) (s : iokernel) : outcome bool :=
  obind (tx_burst_poll s) (fun r s1 =>
    match r with
    | None => Ret false s1
    | Some (pulled, pulltotal) =>
        tx_burst_transmit accept (n_pkts s) pulled pulltotal s1
    end).

End TxBurst.

(** ** Vocabulary of the statements and example inputs *)

(** What a send on a ring does: the record is appended to one ring and
    logged, or nothing changes. *)
Definition send_outcome (msg : lrpc_msg) (s : iokernel) (b : bool) (s1 : iokernel) : Prop :=
  procs s1 = procs s ∧ stats s1 = stats s ∧
  if b then ring_enqueued msg s s1 ∧ ∃ t, rx_log s1 = rx_log s ++ [(t, msg)]
  else threads s1 = threads s ∧ rx_log s1 = rx_log s.

(** The four ways [tx_send_completion] ends for a buffer of process [p]. *)
Inductive completion_path := Suppressed | Delivered | Spilled | Dropped.

Definition completion_path_spec (buf : rte_mbuf) (p : nat) (P : proc)
    (s : iokernel) (r : bool) (s' : iokernel) (path : completion_path) : Prop :=
  let tok := completion_data (tx_pktmbuf_get_priv buf) in
  match path with
  | Suppressed =>
      (kill P = true ∨ tok = 0) ∧ r = true ∧ s' = proc_put p s
  | Delivered =>
      kill P = false ∧ tok ≠ 0 ∧ r = true ∧
      ring_enqueued (RX_NET_COMPLETE, tok) s s' ∧ overflows_unchanged s s' ∧
      (∃ t, rx_log s' = rx_log s ++ [(t, (RX_NET_COMPLETE, tok))]) ∧
      ref <$> procs s' !! p = Some (ref P - 1)
  | Spilled =>
      kill P = false ∧ tok ≠ 0 ∧ r = true ∧
      rings_unchanged s s' ∧ overflow_enqueued p tok s s' ∧ rx_log s' = rx_log s ∧
      ref <$> procs s' !! p = Some (ref P - 1)
  | Dropped =>
      kill P = false ∧ tok ≠ 0 ∧ r = false ∧
      rings_unchanged s s' ∧ overflows_unchanged s s' ∧ rx_log s' = rx_log s ∧
      nr_overflows P = max_overflows P ∧
      ref <$> procs s' !! p = Some (ref P)
  end.

(** One process with one active thread; the ingress ring of the thread and the
    overflow queue of the process are both full. *)
Definition full_proc : proc :=
  mk_proc false 1 [11] 1 1 0 [0%nat] 0 (2 ^ 21) [0].
Definition full_thread : thread :=
  mk_thread 0 true [(RX_NET_COMPLETE, 10)] 1 [].
Definition full_iok : iokernel :=
  mk_iok [full_proc] [full_thread] [0; 0; 0; 0; 0; 0] [] [0%nat] 0 [0%nat]
    (fun _ => 0) [] [] 0 0 0 [] [].
Definition mbuf_of (d : tx_pktmbuf_priv) : rte_mbuf :=
  mk_mbuf 0 0 0 1 0 0 0 0 0 0 0 d.
Definition full_buf : rte_mbuf := mbuf_of (mk_priv (Some 0%nat) (Some 0%nat) 12).

(** The same with an inactive thread. *)
Definition idle_thread : thread :=
  mk_thread 0 false [(RX_NET_COMPLETE, 10)] 1 [].
Definition idle_iok : iokernel :=
  mk_iok [full_proc] [idle_thread] [0; 0; 0; 0; 0; 0] [] [0%nat] 0 [0%nat]
    (fun _ => 0) [] [] 0 0 0 [] [].

(** The runtime side: the thread [t] dequeues every record of its ingress
    ring. *)
Definition runtime_consumes (t : nat) (s : iokernel) : iokernel :=
  upd_thread t (set_rxq []) s.

(** One process with one active thread whose ingress ring (two slots) is
    full; the overflow queue (four slots) is empty. *)
Definition spill_proc : proc :=
  mk_proc false 3 [0; 0; 0; 0] 0 4 0 [0%nat] 0 (2 ^ 21) [0].
Definition spill_thread : thread :=
  mk_thread 0 true [(RX_NET_COMPLETE, 10); (RX_NET_COMPLETE, 11)] 2 [].
Definition spill_iok : iokernel :=
  mk_iok [spill_proc] [spill_thread] [0; 0; 0; 0; 0; 0] [] [0%nat] 0 [0%nat]
    (fun _ => 0) [] [] 0 0 0 [] [].
Definition token_buf (tok : Z) : rte_mbuf :=
  mbuf_of (mk_priv (Some 0%nat) (Some 0%nat) tok).

(** Tokens 21 and then 22 are released while the ring is full, the runtime
    empties its ring, and the overflow queues are drained: the result is the
    content of the overflow queue after the two releases and the tokens in
    the order the drain delivered them. *)
Definition spill_then_drain : option (list Z * list Z) :=
  '(_, s1) ← tx_send_completion (token_buf 21) spill_iok;
  '(_, s2) ← tx_send_completion (token_buf 22) s1;
  P2 ← procs s2 !! 0%nat;
  '(_, s3) ← tx_drain_completions 64 (runtime_consumes 0 s2);
  Some (overflow_of P2, log_tokens s3).

(** A slot of an egress ring that passes the two checks of
    [tx_drain_queue]. *)
Definition slot_ok (P : proc) (slot : lrpc_msg) : Prop :=
  slot.1 = TXPKT_NET_XMIT ∧ is_Some (shmptr_to_ptr P slot.2 sizeof_tx_net_hdr).

(** One process whose thread put a record with the tag 7 in its egress
    ring. *)
Definition bad_thread : thread := mk_thread 0 true [] 8 [(7, 1000)].
Definition bad_iok : iokernel :=
  mk_iok [spill_proc] [bad_thread] [0; 0; 0; 0; 0; 0] [] [0%nat] 0 [0%nat]
    (fun _ => 0) [] [] 0 0 0 [] [].

(** What the poller leaves alone: everything but the rings, the poll set and
    [n_pkts]. *)
Definition poll_frame (s s1 : iokernel) : Prop :=
  pos s1 = pos s ∧ n_bufs s1 = n_bufs s ∧ bufs s1 = bufs s ∧
  nic_log s1 = nic_log s ∧ pool s1 = pool s ∧ mbufs s1 = mbufs s ∧
  shm s1 = shm s ∧ procs s1 = procs s ∧ stats s1 = stats s ∧
  th_p <$> threads s1 = th_p <$> threads s ∧
  (length (ts s1) ≤ length (ts s))%nat ∧ ts s1 ⊆ ts s.

(** Every thread of the poll set is in the thread table, and so is its
    process. *)
Definition poll_ok (s : iokernel) : Prop :=
  Forall (fun t => ∃ T, threads s !! t = Some T ∧ is_Some (procs s !! th_p T)) (ts s).

Definition drain_post (k : nat) (i : Z) (hdrs : list Z) (s : iokernel)
    (o : outcome (Z * list Z)) : Prop :=
  match o with
  | Undef => False
  | Bug _ => True
  | Ret (r, hdrs') s1 =>
      poll_frame s s1 ∧ n_pkts s1 = n_pkts s ∧
      i ≤ r ≤ i + Z.of_nat k ∧
      ∃ new, hdrs' = hdrs ++ new ∧ Z.of_nat (length new) = r - i
  end.

Definition poll_loop_post (burst i : Z) (pulled : list (Z * nat)) (s : iokernel)
    (o : outcome (bool * list (Z * nat) * Z)) : Prop :=
  match o with
  | Undef => False
  | Bug _ => True
  | Ret (full, pulled', _) s1 =>
      poll_frame s s1 ∧ poll_ok s1 ∧
      (∃ new, pulled' = pulled ++ new ∧
              n_pkts s1 = n_pkts s + Z.of_nat (length new)) ∧
      n_pkts s1 ≤ Z.max burst (n_pkts s) ∧
      (full = true → burst ≤ n_pkts s1 ∧ i < nrts s) ∧
      (full = false → n_pkts s1 < burst ∨ (s1 = s ∧ ¬ i < nrts s))
  end.

(** The number of descriptors the polling phase pulled. *)
Definition npulled (r : option (list (Z * nat) * Z)) : Z :=
  match r with
  | Some (pulled, _) => Z.of_nat (length pulled)
  | None => 0
  end.

Definition poll_post (burst : Z) (s : iokernel)
    (o : outcome (option (list (Z * nat) * Z))) : Prop :=
  match o with
  | Undef => False
  | Bug _ => True
  | Ret r s1 =>
      n_bufs s1 = n_bufs s ∧ bufs s1 = bufs s ∧ nic_log s1 = nic_log s ∧
      pool s1 = pool s ∧ mbufs s1 = mbufs s ∧ shm s1 = shm s ∧
      procs s1 = procs s ∧ stats s1 = stats s ∧
      n_pkts s1 = n_pkts s + npulled r ∧
      n_pkts s1 ≤ Z.max burst (n_pkts s) ∧
      (r = None → n_pkts s1 = 0) ∧
      pos s1 = (if decide (0 < n_pkts s1 ∧ (n_pkts s1 < burst ∨ ts s = []))
                then u32 (pos s + 1) else pos s) ∧
      poll_ok s1
  end.

(** What the filling of the mbufs leaves alone. *)
Definition fill_frame (s s1 : iokernel) : Prop :=
  pos s1 = pos s ∧ n_pkts s1 = n_pkts s ∧ n_bufs s1 = n_bufs s ∧
  bufs s1 = bufs s ∧ nic_log s1 = nic_log s ∧ pool s1 = pool s ∧
  shm s1 = shm s ∧ stats s1 = stats s ∧ ts s1 = ts s ∧ threads s1 = threads s ∧
  length (procs s1) = length (procs s).

Definition transmit_post (burst accept : Z) (s : iokernel) (o : outcome bool) : Prop :=
  match o with
  | Ret b s' =>
      b = true ∧ pos s' = pos s ∧ length (bufs s') = length (bufs s) ∧
      ts s' = ts s ∧ threads s' = threads s ∧
      length (procs s') = length (procs s) ∧
      ((nic_log s' = nic_log s ∧ bufs s' = bufs s ∧ n_bufs s' = n_bufs s)
       ∨ ∃ offered ret,
           nic_log s' = nic_log s ++ [(offered, ret)] ∧
           n_bufs s ≤ Z.of_nat (length offered) ≤ burst * 50 ∧
           take (Z.to_nat (n_bufs s)) offered = take (Z.to_nat (n_bufs s)) (bufs s) ∧
           ret = Z.max 0 (Z.min accept (Z.of_nat (length offered))) ∧
           n_pkts s' = Z.of_nat (length offered) - ret ∧
           n_bufs s' = n_pkts s' ∧
           take (Z.to_nat (n_pkts s')) (bufs s') = drop (Z.to_nat ret) offered)
  | _ => True
  end.

(** A descriptor of [len] bytes with the token [tok] at address [h]. *)
Definition small_desc (m : mem) (h len tok : Z) : mem :=
  store32 (store64 m (h + off_completion_data) tok) (h + off_len) len.

Definition bp_shm : mem :=
  small_desc (small_desc (small_desc (small_desc (small_desc (fun _ => 0)
    1000 100 161) 3000 100 162) 5000 100 163) 7000 100 164) 9000 100 165.
Definition bp_proc : proc :=
  mk_proc false 1 [0; 0; 0; 0] 0 4 0 [0%nat] 0 (2 ^ 21) [2 ^ 30].

(** One process, one active thread whose egress ring holds transmit records
    for the descriptors at the offsets [offs]; eight free mbufs; nothing
    carried over. *)
Definition bp_state (offs : list Z) : iokernel :=
  mk_iok [bp_proc]
    [mk_thread 0 true [] 8 ((fun o => (TXPKT_NET_XMIT, o)) <$> offs)]
    [0; 0; 0; 0; 0; 0] [] [0%nat] 0 [0%nat] bp_shm
    (replicate 8 (mbuf_of (mk_priv None None 0)))
    [0; 1; 2; 3; 4; 5; 6; 7]%nat 0 0 0 (replicate 200 0%nat) [].

Definition state_of (o : outcome bool) (d : iokernel) : iokernel :=
  match o with
  | Ret _ s => s
  | _ => d
  end.

(** Three descriptors, burst size 4, the NIC takes one buffer: two are
    carried over. *)
Definition bp3_iok : iokernel := bp_state [1000; 3000; 5000].
Definition bp3_after : iokernel := state_of (tx_burst 4 1 bp3_iok) bp3_iok.

(** Five descriptors, burst size 4, the NIC takes one buffer: three are
    carried over and one descriptor is still in the ring. *)
Definition bp5_iok : iokernel := bp_state [1000; 3000; 5000; 7000; 9000].

(** The headers of [n] segments laid out from [h] on, 1518 bytes apart. *)
Fixpoint seg_ptrs (h : Z) (n : nat) : list Z :=
  match n with
  | O => []
  | S n' => h :: seg_ptrs (h + 1518) n'
  end.

(** The four fields of the header block at [h] the claims speak of. *)
Definition hdr_fields (m : mem) (h len tok udp ip : Z) : Prop :=
  hdr_len m h = len ∧ hdr_completion_data m h = tok ∧
  udp_len_field m h = udp ∧ ip_len_field m h = ip.

(** One round of the header loop at [curr]. *)
Definition gso_copy_header_step (m : mem) (curr : Z) : mem :=
  gso_update_len_fields
    (store64 (store32 (memcpy m (curr + 1518) curr 60) (curr + off_len) MTU_SIZE)
       (curr + off_completion_data) 0) curr.

(** The payload length and the number of segments as [tx_burst] computes
    them for the descriptor at [h]. *)
Definition gso_payload_len (m : mem) (h : Z) : Z :=
  u32 (ntoh16 (load16 m (hdr_payload h + UDP_OFFSET + off_udp_len)) - sizeof_udp_hdr).
Definition gso_segs (m : mem) (h : Z) : Z :=
  u32 (u64 (hdr_len m h + sizeof_tx_net_hdr - gso_payload_len m h) / 60).

(** An oversized descriptor at [h]: total length [len], token [tok], the
    bytes of the UDP length field set to [udp], the IP protocol byte (frame
    offset 23) set to [proto]. *)
Definition big_desc (m : mem) (h len tok udp proto : Z) : mem :=
  store8 (store16 (small_desc m h len tok) (hdr_payload h + 38) (hton16 udp))
    (hdr_payload h + 23) proto.

(** A UDP datagram (protocol 17) with 4000 bytes of payload in a buffer
    that has room for three header blocks: total length 4000 + 3 * 60 - 18. *)
Definition gso_shm : mem := big_desc (fun _ => 0) 1000 4162 170 4008 17.

(** The descriptor of the scenario of section 8: total length 42 + 4000. *)
Definition claim_shm : mem := big_desc (fun _ => 0) 1000 4042 170 4008 17.


(** The fields of the segments [tx_burst_segment] emits. *)
Definition segment_view (m : mem) (h : Z)
  : option (list Z * list Z * list Z * list Z * list Z) :=
  match tx_burst_segment m h with
  | Some (m', out) =>
      Some (out, hdr_len m' <$> out, hdr_completion_data m' <$> out,
            udp_len_field m' <$> out, ip_len_field m' <$> out)
  | None => None
  end.

(** The number of tokens that are not the suppression marker. *)
Definition nonzero_count (l : list Z) : nat :=
  length (filter (fun t => t ≠ 0) l).

(** One descriptor of 100 bytes whose completion token is zero. *)
Definition zero_tok_iok : iokernel :=
  set_shm (small_desc (fun _ => 0) 1000 100 0) (bp_state [1000]).


(** The size of the payload chunk [c] (counted from 0) of a datagram cut in
    [segs] chunks when the last one has [r] bytes. *)
Definition gso_chunk_size (segs r c : Z) : Z :=
  if c =? segs - 1 then r else 1458.

(** The number of bytes the last segment of the descriptor at [h] takes
    from the payload, as [tx_burst] computes it. *)
Definition gso_residual (m : mem) (h : Z) : Z :=
  u32 (gso_payload_len m h - 1458 * (gso_segs m h - 1)).

(** The segments of the descriptor at [h], the bytes of shared memory it
    occupies once segmented, and the tokens and lengths of its segments, all
    read from the memory [m] the runtime left. *)
Definition seg_list (m : mem) (h : Z) : list Z :=
  if hdr_len m h <=? MTU_SIZE then [h]
  else seg_ptrs h (Z.to_nat (gso_segs m h)).

Definition desc_extent (m : mem) (h : Z) : Z :=
  if hdr_len m h <=? MTU_SIZE then sizeof_tx_net_hdr + hdr_len m h
  else 1518 * (gso_segs m h - 1) + 60 + gso_residual m h.

Definition seg_tokens (m : mem) (h : Z) : list Z :=
  replicate (pred (length (seg_list m h))) 0 ++ [hdr_completion_data m h].

Definition seg_lens (m : mem) (h : Z) : list Z :=
  if hdr_len m h <=? MTU_SIZE then [hdr_len m h]
  else replicate (pred (length (seg_list m h))) MTU_SIZE
         ++ [u32 (gso_residual m h + 42)].

(** A descriptor the segmentation loop finishes on: short, or with a
    segment count of at least one and a payload that fills all segments but
    the last, so that the length of the last chunk does not wrap. *)
Definition desc_ok (m : mem) (h : Z) : Prop :=
  hdr_len m h ≤ MTU_SIZE ∨
  (1 ≤ gso_segs m h ∧ 1458 * (gso_segs m h - 1) ≤ gso_payload_len m h).

Definition in_extent (m : mem) (h x : Z) : Prop := h ≤ x < h + desc_extent m h.

(** The descriptors of a batch occupy pairwise disjoint ranges. *)
Fixpoint descs_disjoint (m : mem) (hs : list Z) : Prop :=
  match hs with
  | [] => True
  | h :: rest =>
      Forall (fun h' => h + desc_extent m h ≤ h' ∨ h' + desc_extent m h' ≤ h) rest ∧
      descs_disjoint m rest
  end.

(** The segments [tx_burst_gso] emits for a batch, each with the thread of
    its descriptor. *)
Definition batch_segs (m : mem) (descs : list (Z * nat)) : list (Z * nat) :=
  concat ((fun d : Z * nat => (fun p => (p, d.2)) <$> seg_list m d.1) <$> descs).


(** A batch of two descriptors: the datagram of [gso_shm] at 1000 and a
    short frame of 100 bytes with the token 171 at 6000. *)
Definition batch_shm : mem := small_desc gso_shm 6000 100 171.
Definition batch_descs : list (Z * nat) := [(1000, 0%nat); (6000, 0%nat)].


(** The pointer [tx_drain_queue] stores for a slot of a ring of [P]. *)
Definition slot_ptr (P : proc) (slot : lrpc_msg) : Z := region_base P + slot.2.

(** Every record in the egress ring of every polled thread passes the two
    checks of [tx_drain_queue]. *)
Definition rings_ok (s : iokernel) : Prop :=
  Forall (fun t => ∃ T P, threads s !! t = Some T ∧ procs s !! th_p T = Some P ∧
                          Forall (slot_ok P) (txpktq T)) (ts s).

(** The call did not end in a [BUG_ON]. *)
Definition no_bug {A} (o : outcome A) : Prop :=
  match o with
  | Bug _ => False
  | _ => True
  end.

(** Two threads of one process; the first holds three transmit records,
    the second two. *)
Definition two_rings_iok : iokernel :=
  mk_iok [bp_proc]
    [mk_thread 0 true [] 8 ((fun o => (TXPKT_NET_XMIT, o)) <$> [1000; 3000; 5000]);
     mk_thread 0 false [] 8 ((fun o => (TXPKT_NET_XMIT, o)) <$> [7000; 9000])]
    [0; 0; 0; 0; 0; 0] [] [0%nat] 0 [0; 1]%nat bp_shm
    (replicate 8 (mbuf_of (mk_priv None None 0)))
    [0; 1; 2; 3; 4; 5; 6; 7]%nat 0 0 0 (replicate 200 0%nat) [].


(** The datagram of [gso_shm] in the ring of the one thread. *)
Definition gso_iok : iokernel := set_shm gso_shm (bp_state [1000]).

(** The driver releases the buffers [bs], one after the other: each release
    runs [tx_send_completion] on the buffer. *)
Fixpoint release_all (bs : list nat) (s : iokernel) : option (list bool * iokernel) :=
  match bs with
  | [] => Some ([], s)
  | b :: bs' =>
      B ← mbufs s !! b;
      '(r, s1) ← tx_send_completion B s;
      '(rs, s2) ← release_all bs' s1;
      Some (r :: rs, s2)
  end.


(** The index of the page of the frame behind the descriptor at [h] in the
    page table of [P], as [tx_prepare_tx_mbuf] computes it. *)
Definition frame_page (P : proc) (h : Z) : nat :=
  Z.to_nat (u32 (PGN_2MB (u64 (hdr_payload h - region_base P)))).

(** A segment [tx_prepare_tx_mbuf] can attach: its thread is in the thread
    table, the process of the thread is in the process table and its page
    table has an entry for the page of the frame. *)
Definition seg_ok (s : iokernel) (seg : Z * nat) : Prop :=
  ∃ T P, threads s !! seg.2 = Some T ∧ procs s !! th_p T = Some P ∧
         is_Some (page_paddrs P !! frame_page P seg.1).

(** The number of segments of [segs] whose thread belongs to the process
    [p]. *)
Definition refs_taken (s : iokernel) (segs : list (Z * nat)) (p : nat) : Z :=
  Z.of_nat (length (filter (fun seg : Z * nat =>
                              th_p <$> threads s !! seg.2 = Some p) segs)).

(** The state in which the polling phase of [tx_burst] ends. *)
Definition poll_state (burst : Z) (s : iokernel) : iokernel :=
  match tx_burst_poll burst s with
  | Ret _ s1 => s1
  | _ => s
  end.


(** Shared memory after the segmentation of the datagram of [gso_shm]. *)
Definition gso_shm_after : mem :=
  match tx_burst_segment gso_shm 1000 with
  | Some (m', _) => m'
  | None => gso_shm
  end.


(** The datagram of [gso_shm] in the ring, and a pool that holds two mbufs
    only. *)
Definition starved_iok : iokernel := set_pool [0; 1]%nat gso_iok.


(** Every client is in the process table and every process record is well
    formed. *)
Definition clients_ok (s : iokernel) : Prop :=
  Forall (fun p => is_Some (procs s !! p)) (clients s) ∧
  Forall (proc_ok s) (procs s).

(** The tokens waiting in the overflow queues, process after process. *)
Definition queued (s : iokernel) : list Z := concat (overflow_of <$> procs s).

(** What a drain of the overflow queue of [p] may change: rings and the
    log apart, only the fill level and the cursor of the process records,
    and the fill level only downwards and only for [p]. *)
Definition drain_rel (p : nat) (s s' : iokernel) : Prop :=
  stats s' = stats s ∧ clients s' = clients s ∧ drain_pos s' = drain_pos s ∧
  length (threads s') = length (threads s) ∧
  length (procs s') = length (procs s) ∧
  ∀ q P, procs s !! q = Some P →
    ∃ k rr, procs s' !! q = Some (set_nr_overflows k (set_next_thread_rr rr P)) ∧
            (k ≤ nr_overflows P)%nat ∧
            (q ≠ p → k = nr_overflows P).

(** Two processes with one thread each; the overflow queue of the first
    holds 31 and 32, the one of the second 41; both rings have room. *)
Definition drain_iok : iokernel :=
  mk_iok [mk_proc false 3 [31; 32; 0; 0] 2 4 0 [0%nat] 0 (2 ^ 21) [0];
          mk_proc false 2 [41; 0; 0; 0] 1 4 0 [1%nat] 0 (2 ^ 21) [0]]
    [mk_thread 0 true [] 8 []; mk_thread 1 true [] 8 []]
    [0; 0; 0; 0; 0; 0] [] [0; 1]%nat 0 [0; 1]%nat
    (fun _ => 0) [] [] 0 0 0 [] [].


(** ** In-place scrambling of a buffer *)

Definition XOR_SALT : Z := 4242.

(** [process_in_place]: the loop over the 32-bit words at [ptr], from
    [addr] on, that runs while the end of the word, [ptr + 1] as a byte
    address, is below [addr + len], and xors the word with the salt.  Every
    iteration moves [ptr] four bytes towards [addr + len], so [len]
    iterations are more than the loop can make; that is the fuel. *)
Fixpoint process_in_place_loop (fuel : nat) (addr len ptr : Z) (m : mem)
  : option mem :=
  if decide (ptr + 4 < addr + len) then
    match fuel with
    | O => None
    | S fuel' =>
        process_in_place_loop fuel' addr len (ptr + 4)
          (store32 m ptr (Z.lxor (load32 m ptr) XOR_SALT))
    end
  else Some m.

Definition process_in_place (addr len : Z) (m : mem) : option mem :=
  process_in_place_loop (Z.to_nat len) addr len addr m.

(** Byte [i] of the salt, least significant first, and the number of words
    the loop visits in a buffer of [len] bytes. *)
Definition salt_byte (i : Z) : Z := (XOR_SALT / 2 ^ (8 * i)) mod 256.
Definition process_in_place_words (len : Z) : Z := Z.max 0 ((len - 1) / 4).

(** A memory whose byte at [x] is [x mod 251]. *)
Definition ramp_mem : mem := fun x => x mod 251.


(** ** TcpConn of bindings/cc/net.h *)

(** [size_t] and [ssize_t] are 64 bits wide. *)
Definition ssize_of_size (n : Z) : Z := if n <? 2 ^ 63 then n else n - 2 ^ 64.

(** How [ReadFull] and [WriteFull] end: with a [return], or in the failed
    [sh_assert] (whose definition is not among the sources; it is taken as an
    assertion that stops the caller). *)
Inductive full_result :=
| Returned (v : Z)
| AssertFailed.

(** One call of [Read] or [Write] by the loop: the offset [n] into the
    buffer, the number of bytes asked for, and the result. *)
Definition io_call : Type := Z * Z * Z.

Section TcpConn.

(** The connection of the runtime.  [tcp_read] and [tcp_write]
    (runtime/tcp.h) are functions of the runtime, not of these sources: they
    are parameters that map the state of the connection and the number of
    bytes asked for to a result and the next state. *)
Context {conn : Type}.
Variable tcp_read : conn → Z → Z * conn.
Variable tcp_write : conn → Z → Z * conn.

(** [ReadFull]: reads exactly [len] bytes from the TCP stream.  The loop
    [while (n < len)] with [fuel] iterations left; [calls] is the history of
    the calls of [Read].  [None]: the loop is not over after [fuel]
    iterations. *)
Fixpoint ReadFull_loop (fuel : nat) (len n : Z) (c : conn) (calls : list io_call)
  : option (full_result * conn * list io_call) :=
  if decide (n < len) then
    match fuel with
    | O => None
    | S fuel' =>
        let '(ret, c') := tcp_read c (u64 (len - n)) in
        let calls' := calls ++ [(n, u64 (len - n), ret)] in
        if decide (ret ≤ 0) then Some (Returned ret, c', calls')
        else ReadFull_loop fuel' len (u64 (n + ret)) c' calls'
    end
  else
    (* sh_assert(n == len) *)
    if decide (n = len) then Some (Returned (ssize_of_size n), c, calls)
    else Some (AssertFailed, c, calls).

Definition ReadFull (len : Z) (c : conn)
  : option (full_result * conn * list io_call) :=
  ReadFull_loop (Z.to_nat len) len 0 c [].

(** [WriteFull]: writes exactly [len] bytes to the TCP stream. *)
Fixpoint WriteFull_loop (fuel : nat) (len n : Z) (c : conn) (calls : list io_call)
  : option (full_result * conn * list io_call) :=
  if decide (n < len) then
    match fuel with
    | O => None
    | S fuel' =>
        let '(ret, c') := tcp_write c (u64 (len - n)) in
        let calls' := calls ++ [(n, u64 (len - n), ret)] in
        if decide (ret < 0) then Some (Returned ret, c', calls')
        else
          (* sh_assert(ret > 0) *)
          if decide (0 < ret) then WriteFull_loop fuel' len (u64 (n + ret)) c' calls'
          else Some (AssertFailed, c', calls')
    end
  else
    (* sh_assert(n == len) *)
    if decide (n = len) then Some (Returned (ssize_of_size n), c, calls)
    else Some (AssertFailed, c, calls).

Definition WriteFull (len : Z) (c : conn)
  : option (full_result * conn * list io_call) :=
  WriteFull_loop (Z.to_nat len) len 0 c [].

End TcpConn.

(** The calls of a loop follow each other: each starts at the offset the
    one before reached, and asks for the bytes that are still missing. *)
Fixpoint calls_chained (len n : Z) (calls : list io_call) : Prop :=
  match calls with
  | [] => True
  | (n', req, ret) :: rest =>
      n' = n ∧ req = len - n ∧ calls_chained len (n + ret) rest
  end.

(** The bytes the calls transferred. *)
Definition calls_total (calls : list io_call) : Z :=
  foldr (fun c acc => c.2 + acc) 0 calls.

(** A stream that hands over at most three bytes per call and has [avail]
    bytes left; at its end a read returns 0. *)
Definition slow_read (avail : Z) (req : Z) : Z * Z :=
  let k := Z.min 3 (Z.min req avail) in (k, avail - k).

(** A socket that takes at most three bytes per call, [room] bytes in all,
    and then fails with -32. *)
Definition slow_write (room : Z) (req : Z) : Z * Z :=
  if room <=? 0 then (-32, room)
  else let k := Z.min 3 (Z.min req room) in (k, room - k).


(** The offsets of a 60-byte header block the segmenter does not rewrite:
    the offload flags, the padding and the frame headers without the IP
    total length (block offsets 34 and 35) and the UDP length (56 and 57). *)
Definition kept_offset (i : Z) : Prop :=
  off_olflags ≤ i < off_olflags + 4 ∨ 16 ≤ i < 34 ∨ 36 ≤ i < 56 ∨ 58 ≤ i < 60.


(** The length [print_pkt_contents] takes for the UDP payload of the
    descriptor at [h]. *)
Definition log_len (m : mem) (h : Z) : Z :=
  int_of_u32 (u32 (u64 (ntoh16 (load16 m (hdr_payload h + UDP_OFFSET + off_udp_len))
                        - sizeof_udp_hdr))).

(** The frame of the descriptor at [h] holds the field of the UDP length
    and the words [print_pkt_contents] logs. *)
Definition log_ok (m : mem) (h : Z) : Prop :=
  UDP_OFFSET + off_udp_len + 2 ≤ hdr_len m h ∧
  (log_len m h < 4 ∨
   UDP_OFFSET + sizeof_udp_hdr + 4 * (log_len m h / 4) ≤ hdr_len m h).

(** The descriptors the polling phase of a [tx_burst] entered in [s] pulls,
    each with its thread, and the segments that call makes of them. *)
Definition polled (burst : Z) (s : iokernel) : list (Z * nat) :=
  match tx_burst_poll burst s with
  | Ret (Some (pulled, _)) _ => pulled
  | _ => []
  end.

Definition burst_segs (burst : Z) (s : iokernel) : list (Z * nat) :=
  batch_segs (shm s) (polled burst s).

(** A state in which [tx_burst] gets as far as the allocation of the
    mbufs: nothing is carried over; every record of the polled rings passes
    the checks of [tx_drain_queue]; the descriptors the call pulls are well
    formed, hold what the logging loop reads and lie apart; and their
    segments fit in the arrays of [tx_burst], which have [TX_MAX_SEGS]
    slots. *)
Definition burst_ready (burst : Z) (s : iokernel) : Prop :=
  n_pkts s = 0 ∧ n_bufs s = 0 ∧ rings_ok s ∧
  Forall (fun d : Z * nat => desc_ok (shm s) d.1 ∧ log_ok (shm s) d.1) (polled burst s) ∧
  descs_disjoint (shm s) (fst <$> polled burst s) ∧
  Z.of_nat (length (burst_segs burst s)) ≤ burst * 50.


(** ** Vocabulary of the statements about the rings of a process *)

(** The thread [rx_send_to_runtime] selects for the cursor value [hash]:
    none when the process has no thread. *)
Definition rr_thread (P : proc) (hash : Z) : option nat :=
  match p_threads P with
  | [] => None
  | _ => p_threads P !! Z.to_nat (hash mod Z.of_nat (length (p_threads P)))
  end.

(** The ingress ring of the thread [t] takes one more record. *)
Definition ring_room (s : iokernel) (t : nat) : Prop :=
  ∃ T, threads s !! t = Some T ∧ (length (rxq T) < rxq_size T)%nat.

(** The thread whose ring [tx_send_completion] offers the completion of a
    buffer of the thread [th] to: [th] itself when it is active, the thread
    under the round-robin cursor of the process otherwise. *)
Definition completion_target (P : proc) (th : nat) (T : thread) : option nat :=
  if active T then Some th else rr_thread P (next_thread_rr P).

Definition target_room (s : iokernel) (P : proc) (th : nat) (T : thread) : Prop :=
  ∃ t, completion_target P th T = Some t ∧ ring_room s t.

(** The record [msg] was appended to the ingress ring of the thread [t]. *)
Definition ring_enqueued_at (t : nat) (msg : lrpc_msg) (s s' : iokernel) : Prop :=
  ∃ T, threads s !! t = Some T ∧
       threads s' = <[t := set_rxq (rxq T ++ [msg]) T]> (threads s).


(** ** Vocabulary of the statements about sequences of router calls *)

(** The calls that touch the overflow queues and the ingress rings: the
    driver releases the buffer [buf] ([tx_send_completion]), the overflow
    queue of the process [p] is drained with the budget [n]
    ([drain_overflow_queue], which [tx_drain_completions] calls), and, on the
    other side of the rings, the runtime thread [t] empties its ingress
    ring. *)
Inductive router_op :=
| Release (buf : rte_mbuf)
| Drain (p : nat) (n : Z)
| Consume (t : nat).

Definition router_step (o : router_op) (s : iokernel) : option iokernel :=
  match o with
  | Release buf => snd <$> tx_send_completion buf s
  | Drain p n => snd <$> drain_overflow_queue p n s
  | Consume t => Some (runtime_consumes t s)
  end.

(** What a call did to the overflow queue of one process: a token entered
    it, or the tokens [toks] left it and went to the rings, in that order. *)
Inductive ovf_event :=
| Appended (tok : Z)
| Drained (toks : list Z).

(** The fill level of the overflow queue of [p]. *)
Definition overflow_len (p : nat) (s : iokernel) : nat :=
  from_option nr_overflows 0%nat (procs s !! p).

(** The events of the overflow queue of [p] in the step from [s] to [s1]
    through [o], read off the two states: a release of a buffer of [p] after
    which the queue holds more tokens appended the token of the buffer, a
    drain of [p] delivered the tokens the rings accepted during the step. *)
Definition router_events (p : nat) (o : router_op) (s s1 : iokernel)
  : list ovf_event :=
  match o with
  | Release buf =>
      if decide (priv_p (tx_pktmbuf_get_priv buf) = Some p ∧
                 (overflow_len p s < overflow_len p s1)%nat)
      then [Appended (completion_data (tx_pktmbuf_get_priv buf))]
      else []
  | Drain q n =>
      if decide (q = p)
      then [Drained (drop (length (log_tokens s)) (log_tokens s1))]
      else []
  | Consume _ => []
  end.

(** A sequence of calls, with the events of the overflow queue of [p]. *)
Fixpoint router_run (p : nat) (ops : list router_op) (s : iokernel)
  : option (iokernel * list ovf_event) :=
  match ops with
  | [] => Some (s, [])
  | o :: ops' =>
      s1 ← router_step o s;
      '(s', evs) ← router_run p ops' s1;
      Some (s', router_events p o s s1 ++ evs)
  end.

(** The stack discipline: starting from the content [q] (oldest token
    first), an appended token goes to the end, and delivered tokens are the
    last ones of the content, the very last one delivered first.  [None]: the
    events are not those of a stack. *)
Fixpoint stack_after (q : list Z) (evs : list ovf_event) : option (list Z) :=
  match evs with
  | [] => Some q
  | Appended tok :: evs' => stack_after (q ++ [tok]) evs'
  | Drained toks :: evs' =>
      let k := (length q - length toks)%nat in
      if decide ((length toks ≤ length q)%nat ∧ drop k q = rev toks)
      then stack_after (take k q) evs'
      else None
  end.

(** Every process record is well formed. *)
Definition router_ok (s : iokernel) : Prop := Forall (proc_ok s) (procs s).

(** The pointers of a call are in the tables. *)
Definition op_ok (s : iokernel) (o : router_op) : Prop :=
  match o with
  | Release buf =>
      match priv_p (tx_pktmbuf_get_priv buf) with
      | None => True
      | Some p =>
          (p < length (procs s))%nat ∧
          ∃ th, priv_th (tx_pktmbuf_get_priv buf) = Some th ∧
                (th < length (threads s))%nat
      end
  | Drain p _ => (p < length (procs s))%nat
  | Consume _ => True
  end.

(** The value of the cursor of [P] after [k] sends through
    [rx_send_to_runtime], each of which is passed [p->next_thread_rr++]. *)
Definition cursor_after (P : proc) (k : nat) : Z :=
  Nat.iter k (fun c => u32 (c + 1)) (next_thread_rr P).

(** A drain of [P] that delivered [k] tokens is refused the next one: the
    ring the cursor selects for it has no room (or the process has no thread
    at all). *)
Definition blocked (s : iokernel) (P : proc) (k : nat) : Prop :=
  ∀ t, rr_thread P (cursor_after P k) = Some t → ¬ ring_room s t.

(** The state [spill_iok] is in after the tokens 21 and 22 were released and
    the runtime emptied its ring: the overflow queue holds 21 and 22. *)
Definition spilled_proc : proc :=
  mk_proc false 1 [21; 22; 0; 0] 2 4 0 [0%nat] 0 (2 ^ 21) [0].
Definition spilled_thread : thread := mk_thread 0 true [] 2 [].
Definition spilled_iok : iokernel :=
  mk_iok [spilled_proc] [spilled_thread] [0; 2; 0; 0; 0; 0] [] [0%nat] 0 [0%nat]
    (fun _ => 0) [] [] 0 0 0 [] [].

(** Releases that fill the ring (23, 24) and spill (25), a drain of two
    tokens after the runtime emptied the ring, three more releases that
    spill, and a drain that the ring stops after two tokens. *)
Definition spilled_ops : list router_op :=
  [Release (token_buf 23); Release (token_buf 24); Release (token_buf 25);
   Consume 0; Drain 0 2; Release (token_buf 26); Release (token_buf 27);
   Release (token_buf 28); Consume 0; Drain 0 64].

(** * Properties *)

(** ** Completion router *)

Lemma procs_proc_put p s : procs (proc_put p s) = alter (fun P => set_ref (ref P - 1) P) p (procs s).
Proof. reflexivity. Qed.

Lemma overflow_of_alter (f : proc -> proc) p (l : list proc) :
  (∀ P, overflow_of (f P) = overflow_of P) →
  overflow_of <$> alter f p l = overflow_of <$> l.
Proof.
  intros Hf. apply list_eq. intros i.
  rewrite !list_lookup_fmap.
  destruct (decide (p = i)) as [->|Hne].
  - rewrite list_lookup_alter_eq. destruct (l !! i); simpl; [by rewrite Hf | done].
  - by rewrite list_lookup_alter_ne.
Qed.

Lemma lrpc_send_cases t cmd pl s T :
  threads s !! t = Some T →
  (length (rxq T) < rxq_size T)%nat ∧
    lrpc_send t cmd pl s =
      Some (true, set_rx_log (rx_log s ++ [(t, (cmd, pl))])
                    (upd_thread t (set_rxq (rxq T ++ [(cmd, pl)])) s))
  ∨ ¬ (length (rxq T) < rxq_size T)%nat ∧ lrpc_send t cmd pl s = Some (false, s).
Proof.
  intros HT. unfold lrpc_send. rewrite HT. simpl.
  case_decide; [left | right]; done.
Qed.

Lemma alter_lookup_insert {A} (f : A → A) (i : nat) (l : list A) (x : A) :
  l !! i = Some x → alter f i l = <[i := f x]> l.
Proof.
  intros H. rewrite list_insert_alter. apply list_alter_ext; [|done].
  intros y Hy. congruence.
Qed.

Lemma overflows_proc_put p s : overflows_unchanged s (proc_put p s).
Proof. unfold overflows_unchanged. rewrite procs_proc_put. by apply overflow_of_alter. Qed.

Lemma ring_enqueued_changes msg s s' :
  ring_enqueued msg s s' → ¬ rings_unchanged s s'.
Proof.
  intros (t & T & HT & Heq) Hsame. red in Hsame. rewrite Hsame in Heq.
  assert (Hl : threads s !! t = Some (set_rxq (rxq T ++ [msg]) T)).
  { rewrite Heq at 1. apply list_lookup_insert_eq. by eapply lookup_lt_Some. }
  rewrite HT in Hl. injection Hl as Hl.
  apply (f_equal (fun T => length (rxq T))) in Hl. simpl in Hl.
  rewrite length_app in Hl. simpl in Hl. lia.
Qed.

Lemma overflow_enqueued_changes p tok s s' :
  overflow_enqueued p tok s s' → ¬ overflows_unchanged s s'.
Proof.
  intros (P & P' & HP & HP' & Heq) Hsame.
  apply (f_equal (fun l => l !! p)) in Hsame.
  rewrite !list_lookup_fmap, HP, HP' in Hsame. simpl in Hsame.
  injection Hsame as Hsame. rewrite Hsame in Heq.
  apply (f_equal length) in Heq. rewrite length_app in Heq. simpl in Heq. lia.
Qed.

Lemma ring_enqueued_valid msg s s' t :
  ring_enqueued msg s s' → is_Some (threads s' !! t) ↔ is_Some (threads s !! t).
Proof.
  intros (t0 & T & HT & Heq). rewrite Heq, !lookup_lt_is_Some, length_insert. done.
Qed.

Lemma lrpc_send_result t cmd pl s :
  is_Some (threads s !! t) →
  ∃ b s1, lrpc_send t cmd pl s = Some (b, s1) ∧ send_outcome (cmd, pl) s b s1.
Proof.
  intros [T HT].
  destruct (lrpc_send_cases t cmd pl s T HT) as [[Hlt ->]|[Hge ->]].
  - eexists true, _. split; [done|]. repeat split.
    + exists t, T. split; [done|]. simpl. by apply alter_lookup_insert.
    + by exists t.
  - exists false, s. by repeat split.
Qed.

Lemma rx_send_to_runtime_result p hash cmd pl s P :
  procs s !! p = Some P →
  Forall (fun t => is_Some (threads s !! t)) (p_threads P) →
  ∃ b s1, rx_send_to_runtime p hash cmd pl s = Some (b, s1) ∧
          send_outcome (cmd, pl) s b s1.
Proof.
  intros HP Hths. unfold rx_send_to_runtime. rewrite HP. simpl.
  destruct (p_threads P) as [|t0 l] eqn:Hl.
  { exists false, s. by repeat split. }
  rewrite <- Hl in *. 
  assert (Hlen : (0 < length (p_threads P))%nat) by (rewrite Hl; simpl; lia).
  destruct (lookup_lt_is_Some_2 (p_threads P)
              (Z.to_nat (hash mod Z.of_nat (length (p_threads P))))) as [t Ht].
  { pose proof (Z.mod_pos_bound hash (Z.of_nat (length (p_threads P)))). lia. }
  rewrite Ht. simpl. apply lrpc_send_result.
  rewrite Forall_forall in Hths. apply Hths. by eapply list_elem_of_lookup_2.
Qed.

Lemma tx_send_completion_paths buf s p P :
  priv_p (tx_pktmbuf_get_priv buf) = Some p →
  procs s !! p = Some P →
  proc_ok s P →
  priv_th_ok s (tx_pktmbuf_get_priv buf) →
  ∃ r s' path, tx_send_completion buf s = Some (r, s') ∧
               completion_path_spec buf p P s r s' path.
Proof.
  intros Hp HP (Hths & Hnr & Hlen) (th & Hth & HT).
  unfold tx_send_completion. rewrite Hp. simpl. rewrite HP. simpl.
  destruct (kill P) eqn:Hk.
  { exists true, (proc_put p s), Suppressed. simpl. auto. }
  destruct (completion_data (tx_pktmbuf_get_priv buf) =? 0) eqn:Hz.
  { exists true, (proc_put p s), Suppressed. simpl. apply Z.eqb_eq in Hz. auto. }
  apply Z.eqb_neq in Hz.
  rewrite Hth. simpl. destruct HT as [T HT]. rewrite HT. simpl.
  set (tok := completion_data (tx_pktmbuf_get_priv buf)) in *.
  set (s0 := upd_proc p (set_next_thread_rr (u32 (next_thread_rr P + 1))) s).
  assert (Hsend : ∃ P0 s0', (s0' = s ∨ s0' = s0) ∧ procs s0' !! p = Some P0 ∧
             (∃ rr, P0 = set_next_thread_rr rr P) ∧
             ∃ b s1,
             (if active T then lrpc_send th RX_NET_COMPLETE tok s
              else rx_send_to_runtime p (next_thread_rr P) RX_NET_COMPLETE tok s0)
             = Some (b, s1) ∧ send_outcome (RX_NET_COMPLETE, tok) s0' b s1).
  { destruct (active T).
    - exists P, s. split; [auto|]. split; [done|]. split.
      { exists (next_thread_rr P). by destruct P. }
      apply lrpc_send_result. eauto.
    - exists (set_next_thread_rr (u32 (next_thread_rr P + 1)) P), s0.
      split; [auto|].
      assert (HP0 : procs s0 !! p =
                    Some (set_next_thread_rr (u32 (next_thread_rr P + 1)) P)).
      { unfold s0. simpl. by rewrite list_lookup_alter_eq, HP. }
      split; [done|]. split; [eauto|].
      eapply rx_send_to_runtime_result; [done|]. done. }
  destruct Hsend as (P0 & s0' & Hs0' & HP0 & [rr ->] & b & s1 & -> & Hprocs & Hstats & Hout).
  assert (Hthr0 : threads s0' = threads s) by (by destruct Hs0' as [->| ->]).
  assert (Hlog0 : rx_log s0' = rx_log s) by (by destruct Hs0' as [->| ->]).
  assert (Hov0 : overflow_of <$> procs s0' = overflow_of <$> procs s).
  { destruct Hs0' as [->| ->]; [done|]. unfold s0. simpl. by apply overflow_of_alter. }
  simpl. destruct b.
  - (* delivered *)
    destruct Hout as [Hring [t Hlog]].
    eexists true, _, Delivered. split; [done|]. simpl.
    repeat split; try done.
    + destruct Hring as (t0 & T0 & HT0 & Heq). exists t0, T0. simpl.
      by rewrite <- Hthr0.
    + red. simpl. rewrite Hprocs. rewrite overflow_of_alter by done. done.
    + exists t. simpl. by rewrite <- Hlog0.
    + simpl. rewrite list_lookup_alter_eq, Hprocs, HP0. done.
  - destruct Hout as [Hthr Hlog].
    rewrite Hprocs, HP0. simpl.
    case_decide as Hfull.
    + (* the overflow queue is full *)
      exists false, s1, Dropped. split; [done|]. simpl.
      repeat split; try done.
      * red. congruence.
      * red. by rewrite Hprocs.
      * congruence.
      * by rewrite Hprocs, HP0.
    + case_decide as Hin; [|lia].
      eexists true, _, Spilled. split; [done|]. simpl.
      repeat split; try done.
      * red. simpl. congruence.
      * eexists P, _. split; [done|]. split.
        { simpl. rewrite !list_lookup_alter_eq, Hprocs, HP0. simpl. done. }
        unfold overflow_of. simpl.
        erewrite take_S_r; [|apply list_lookup_insert_eq; lia].
        f_equal. by rewrite take_insert_ge.
      * simpl. congruence.
      * simpl. rewrite !list_lookup_alter_eq, Hprocs, HP0. done.
Qed.

(** *** The ring a completion is offered to *)

Lemma rx_send_to_runtime_cases p hash cmd pl s P :
  procs s !! p = Some P →
  Forall (fun t => is_Some (threads s !! t)) (p_threads P) →
  (∃ t T, rr_thread P hash = Some t ∧ threads s !! t = Some T ∧
          (length (rxq T) < rxq_size T)%nat ∧
          rx_send_to_runtime p hash cmd pl s
          = Some (true, set_rx_log (rx_log s ++ [(t, (cmd, pl))])
                          (upd_thread t (set_rxq (rxq T ++ [(cmd, pl)])) s)))
  ∨ ((∀ t, rr_thread P hash = Some t → ¬ ring_room s t) ∧
     rx_send_to_runtime p hash cmd pl s = Some (false, s)).
Proof.
  intros HP Hths. unfold rx_send_to_runtime, rr_thread. rewrite HP.
  cbn [mbind option_bind].
  destruct (p_threads P) as [|t0 l] eqn:Hl.
  { right. split; [by intros t [=]|done]. }
  rewrite <- Hl in *.
  destruct (lookup_lt_is_Some_2 (p_threads P)
              (Z.to_nat (hash mod Z.of_nat (length (p_threads P))))) as [t Ht].
  { assert (0 < length (p_threads P))%nat by (rewrite Hl; simpl; lia).
    pose proof (Z.mod_pos_bound hash (Z.of_nat (length (p_threads P)))). lia. }
  rewrite Ht. cbn [mbind option_bind].
  assert (HT : is_Some (threads s !! t)).
  { rewrite Forall_forall in Hths. apply Hths. by eapply list_elem_of_lookup_2. }
  destruct HT as [T HT].
  destruct (lrpc_send_cases t cmd pl s T HT) as [[Hroom ->]|[Hfull ->]].
  - left. by exists t, T.
  - right. split; [|done]. intros t' [= <-] (T' & HT' & Hroom).
    rewrite HT in HT'. by injection HT' as <-.
Qed.

(** The four ways [tx_send_completion] ends for a buffer of the thread
    [th] of the process [p], with the state each leaves.  [s0] is the state
    after the cursor of the process moved, which it does when [th] is not
    active. *)
Lemma tx_send_completion_cases buf s p P th T :
  priv_p (tx_pktmbuf_get_priv buf) = Some p →
  priv_th (tx_pktmbuf_get_priv buf) = Some th →
  procs s !! p = Some P → threads s !! th = Some T →
  proc_ok s P →
  let tok := completion_data (tx_pktmbuf_get_priv buf) in
  let msg := (RX_NET_COMPLETE, tok) in
  let s0 := if active T then s
            else upd_proc p (set_next_thread_rr (u32 (next_thread_rr P + 1))) s in
  ((kill P = true ∨ tok = 0) ∧ tx_send_completion buf s = Some (true, proc_put p s))
  ∨ (kill P = false ∧ tok ≠ 0 ∧
     ∃ t T', completion_target P th T = Some t ∧ threads s !! t = Some T' ∧
       (length (rxq T') < rxq_size T')%nat ∧
       tx_send_completion buf s
       = Some (tx_send_completion_success p
                 (set_rx_log (rx_log s ++ [(t, msg)])
                    (upd_thread t (set_rxq (rxq T' ++ [msg])) s0))))
  ∨ (kill P = false ∧ tok ≠ 0 ∧ ¬ target_room s P th T ∧
     nr_overflows P = max_overflows P ∧
     tx_send_completion buf s = Some (false, s0))
  ∨ (kill P = false ∧ tok ≠ 0 ∧ ¬ target_room s P th T ∧
     nr_overflows P ≠ max_overflows P ∧
     tx_send_completion buf s
     = Some (tx_send_completion_success p
               (STAT_INC TX_COMPLETION_OVERFLOW 1
                  (STAT_INC COMPLETION_ENQUEUED (-1)
                     (upd_proc p (fun P' =>
                        set_nr_overflows (S (nr_overflows P'))
                          (set_overflow_queue
                             (<[nr_overflows P' := tok]> (overflow_queue P')) P'))
                        s0))))).
Proof.
  intros Hp Hth HP HT (Hths & Hnr & Hlen) tok msg s0.
  unfold tx_send_completion. rewrite Hp. cbn [mbind option_bind].
  rewrite HP. cbn [mbind option_bind].
  destruct (kill P) eqn:Hk.
  { left. split; [by left|done]. }
  fold tok. destruct (Z.eqb_spec tok 0) as [Hz|Hnz].
  { left. split; [by right|done]. }
  right. rewrite Hth. cbn [mbind option_bind]. rewrite HT. cbn [mbind option_bind].
  unfold target_room, completion_target. subst s0.
  destruct (active T) eqn:Ha.
  - destruct (lrpc_send_cases th RX_NET_COMPLETE tok s T HT) as [[Hroom ->]|[Hfull ->]];
      cbn [mbind option_bind].
    + left. split; [done|]. split; [done|]. by exists th, T.
    + right. rewrite HP. cbn [mbind option_bind].
      assert (Hno : ¬ ∃ t, Some th = Some t ∧ ring_room s t).
      { intros (t & [= <-] & T' & HT' & Hroom). rewrite HT in HT'.
        by injection HT' as <-. }
      case_decide as Hfull'.
      * left. done.
      * right. case_decide; [done|lia].
  - set (P1 := set_next_thread_rr (u32 (next_thread_rr P + 1)) P).
    set (s1 := upd_proc p (set_next_thread_rr (u32 (next_thread_rr P + 1))) s).
    assert (HP1 : procs s1 !! p = Some P1).
    { unfold s1. cbn [upd_proc procs set_procs]. by rewrite list_lookup_alter_eq, HP. }
    destruct (rx_send_to_runtime_cases p (next_thread_rr P) RX_NET_COMPLETE tok s1 P1 HP1)
      as [(t & T' & Ht & HT' & Hroom & ->)|[Hno ->]]; [done|..];
      cbn [mbind option_bind].
    + left. split; [done|]. split; [done|]. by exists t, T'.
    + right. rewrite HP1. cbn [mbind option_bind].
      assert (Hno' : ¬ ∃ t, rr_thread P (next_thread_rr P) = Some t ∧ ring_room s t).
      { intros (t & Ht & Hroom). by apply (Hno t). }
      case_decide as Hfull'.
      * left. done.
      * right. case_decide; [done|]. simpl in *. lia.
Qed.

(** *** Release of a buffer *)

(** C10: when the trailer of the released buffer holds a null process
    pointer, which is what [tx_pktmbuf_priv_init] leaves in every pool
    buffer, [tx_send_completion] returns true and the state is the one it was
    called in: no reference count, ring or overflow queue changes. *)
Theorem tx_send_completion_null_proc (buf : rte_mbuf) (s : iokernel) :
  priv_p (tx_pktmbuf_get_priv buf) = None →
  tx_send_completion buf s = Some (true, s) ∧
  tx_send_completion (tx_pktmbuf_priv_init buf) s = Some (true, s).
Proof.
  intros Hnull. split.
  - unfold tx_send_completion. by rewrite Hnull.
  - reflexivity.
Qed.

Lemma tx_send_completion_null_proc_witness :
  priv_p (tx_pktmbuf_get_priv (mbuf_of (mk_priv None (Some 0%nat) 12))) = None ∧
  tx_send_completion (mbuf_of (mk_priv None (Some 0%nat) 12)) full_iok
    = Some (true, full_iok) ∧
  tx_send_completion (tx_pktmbuf_priv_init (mbuf_of (mk_priv None (Some 0%nat) 12)))
    full_iok = Some (true, full_iok).
Proof.
  split; [reflexivity|].
  apply (tx_send_completion_null_proc (mbuf_of (mk_priv None (Some 0%nat) 12)) full_iok).
  reflexivity.
Defined.

(** C2, the failing path: the buffer belongs to process 0, the token is 12,
    the process is not killed, the chosen ring is full and so is the overflow
    queue.  The call returns false and the reference count of the process is
    still 1: [proc_put] was not called. *)
Theorem tx_send_completion_full_keeps_ref :
  priv_p (tx_pktmbuf_get_priv full_buf) = Some 0%nat ∧
  ref <$> procs idle_iok !! 0%nat = Some 1 ∧
  match tx_send_completion full_buf idle_iok with
  | Some (r, s') => r = false ∧ ref <$> procs s' !! 0%nat = Some 1
  | None => False
  end.
Proof. repeat split. Qed.

(** C9 as stated fails: the token is non-zero and the process is not killed,
    yet no record is enqueued anywhere (the state does not change) and the
    call returns false. *)
Lemma tx_send_completion_full_not_enqueued :
  completion_data (tx_pktmbuf_get_priv full_buf) ≠ 0 ∧
  procs full_iok !! 0%nat = Some full_proc ∧
  kill full_proc = false ∧
  tx_send_completion full_buf full_iok = Some (false, full_iok).
Proof. repeat split; done. Qed.

(** C9 (amended): [tx_send_completion] enqueues a completion record onto a
    runtime ring or the overflow queue if and only if the token is non-zero,
    the process is not killed, and the ring the record is offered to has room
    or the overflow queue of the process is not full.  The ring is the one of
    the thread of the buffer when that thread is active, and else the one the
    cursor of the process selects.  With room there the record goes onto that
    ring and the overflow queues stay as they are; without room and with a
    free slot in the overflow queue the token is appended to the overflow
    queue and the rings stay as they are; in both cases the call returns
    true.  When the token is zero or the process is killed nothing is
    enqueued and the call returns true.  The call returns false exactly when
    the token is non-zero, the process is not killed, the ring has no room
    and the overflow queue is full, and then nothing is enqueued. *)
Theorem tx_send_completion_enqueues buf s p P th T :
  priv_p (tx_pktmbuf_get_priv buf) = Some p →
  priv_th (tx_pktmbuf_get_priv buf) = Some th →
  procs s !! p = Some P →
  threads s !! th = Some T →
  proc_ok s P →
  let tok := completion_data (tx_pktmbuf_get_priv buf) in
  ∃ r s', tx_send_completion buf s = Some (r, s') ∧
    ((ring_enqueued (RX_NET_COMPLETE, tok) s s' ∨ overflow_enqueued p tok s s')
     ↔ tok ≠ 0 ∧ kill P = false ∧
       (target_room s P th T ∨ nr_overflows P ≠ max_overflows P)) ∧
    (tok ≠ 0 → kill P = false → target_room s P th T →
       r = true ∧ overflows_unchanged s s' ∧
       ∃ t, completion_target P th T = Some t ∧
            ring_enqueued_at t (RX_NET_COMPLETE, tok) s s' ∧
            rx_log s' = rx_log s ++ [(t, (RX_NET_COMPLETE, tok))]) ∧
    (tok ≠ 0 → kill P = false → ¬ target_room s P th T →
     nr_overflows P ≠ max_overflows P →
       r = true ∧ rings_unchanged s s' ∧ rx_log s' = rx_log s ∧
       overflow_enqueued p tok s s') ∧
    (tok = 0 ∨ kill P = true →
       r = true ∧ rings_unchanged s s' ∧ overflows_unchanged s s' ∧
       rx_log s' = rx_log s) ∧
    (r = false ↔ tok ≠ 0 ∧ kill P = false ∧ ¬ target_room s P th T ∧
                 nr_overflows P = max_overflows P) ∧
    (r = false →
       rings_unchanged s s' ∧ overflows_unchanged s s' ∧ rx_log s' = rx_log s).
Proof.
  intros Hp Hth HP HT Hok tok.
  pose proof (tx_send_completion_cases buf s p P th T Hp Hth HP HT Hok) as Hc.
  cbn zeta in Hc. fold tok in Hc.
  set (s0 := if active T then s
             else upd_proc p (set_next_thread_rr (u32 (next_thread_rr P + 1))) s) in Hc.
  assert (Hthr0 : threads s0 = threads s) by (unfold s0; by destruct (active T)).
  assert (Hlog0 : rx_log s0 = rx_log s) by (unfold s0; by destruct (active T)).
  assert (Hov0 : overflow_of <$> procs s0 = overflow_of <$> procs s).
  { unfold s0. destruct (active T); [done|]. simpl. by apply overflow_of_alter. }
  assert (HP0 : ∃ rr, procs s0 !! p = Some (set_next_thread_rr rr P)).
  { unfold s0. destruct (active T).
    - exists (next_thread_rr P). rewrite HP. by destruct P.
    - eexists. simpl. by rewrite list_lookup_alter_eq, HP. }
  destruct HP0 as [rr HP0].
  destruct Hok as (Hths & Hnr & Hlen).
  destruct Hc as [(Hsup & ->)
                 |[(Hk & Hne & t & T' & Ht & HT' & Hroom & ->)
                 |[(Hk & Hne & Hno & Hfull & ->)
                 |(Hk & Hne & Hno & Hfull & ->)]]].
  - (* suppressed *)
    exists true, (proc_put p s). split; [done|].
    assert (Hr : rings_unchanged s (proc_put p s)) by reflexivity.
    pose proof (overflows_proc_put p s) as Ho.
    assert (Hnl : ¬ (tok ≠ 0 ∧ kill P = false)).
    { intros [? ?]. destruct Hsup; congruence. }
    split; [|split; [|split; [|split; [|split]]]].
    + split.
      * intros [H|H]; [by apply ring_enqueued_changes in H
                      |by apply overflow_enqueued_changes in H].
      * intros (? & ? & _). by destruct Hnl.
    + intros ? ? _. by destruct Hnl.
    + intros ? ? _ _. by destruct Hnl.
    + done.
    + split; [done|]. intros (? & ? & _). by destruct Hnl.
    + done.
  - (* the ring has room *)
    assert (Htr : target_room s P th T).
    { exists t. split; [done|]. by exists T'. }
    unfold tx_send_completion_success. eexists true, _. split; [done|].
    assert (Hat : ring_enqueued_at t (RX_NET_COMPLETE, tok) s
              (STAT_INC COMPLETION_ENQUEUED 1
                 (proc_put p
                    (set_rx_log (rx_log s ++ [(t, (RX_NET_COMPLETE, tok))])
                       (upd_thread t (set_rxq (rxq T' ++ [(RX_NET_COMPLETE, tok)])) s0))))).
    { exists T'. split; [done|]. simpl. rewrite Hthr0. by apply alter_lookup_insert. }
    split; [|split; [|split; [|split; [|split]]]].
    + split; [auto|]. intros _. left. destruct Hat as (T1 & ? & ?). by exists t, T1.
    + intros _ _ _. split; [done|]. split.
      { red. simpl. rewrite overflow_of_alter by done. done. }
      exists t. done.
    + intros _ _ Hn. by destruct Hn.
    + intros [?|?]; congruence.
    + split; [done|]. intros (_ & _ & Hn & _). by destruct Hn.
    + done.
  - (* no room on the ring, the overflow queue is full *)
    exists false, s0. split; [done|].
    assert (Hr : rings_unchanged s s0) by done.
    assert (Ho : overflows_unchanged s s0) by done.
    split; [|split; [|split; [|split; [|split]]]].
    + split.
      * intros [H|H]; [by apply ring_enqueued_changes in H
                      |by apply overflow_enqueued_changes in H].
      * intros (_ & _ & [?|?]); done.
    + intros _ _ ?. done.
    + intros _ _ _ ?. done.
    + intros [?|?]; congruence.
    + done.
    + done.
  - (* no room on the ring, the overflow queue has a free slot *)
    unfold tx_send_completion_success. eexists true, _. split; [done|].
    assert (Hoe : overflow_enqueued p tok s
              (STAT_INC COMPLETION_ENQUEUED 1
                 (proc_put p
                    (STAT_INC TX_COMPLETION_OVERFLOW 1
                       (STAT_INC COMPLETION_ENQUEUED (-1)
                          (upd_proc p (fun P' =>
                             set_nr_overflows (S (nr_overflows P'))
                               (set_overflow_queue
                                  (<[nr_overflows P' := tok]> (overflow_queue P')) P'))
                             s0)))))).
    { eexists P, _. split; [done|]. split.
      { simpl. rewrite !list_lookup_alter_eq, HP0. simpl. done. }
      unfold overflow_of. simpl.
      erewrite take_S_r; [|apply list_lookup_insert_eq; lia].
      f_equal. by rewrite take_insert_ge. }
    split; [|split; [|split; [|split; [|split]]]].
    + split; [auto|]. intros _. by right.
    + intros _ _ ?. done.
    + intros _ _ _ _. done.
    + intros [?|?]; congruence.
    + split; [done|]. intros (_ & _ & _ & ?). done.
    + done.
Qed.

Lemma proc_ok_spill : proc_ok spill_iok spill_proc.
Proof. split; [|split; simpl; [lia|done]]. repeat constructor. by eexists. Qed.

Lemma tx_send_completion_enqueues_witness :
  priv_p (tx_pktmbuf_get_priv (token_buf 21)) = Some 0%nat ∧
  priv_th (tx_pktmbuf_get_priv (token_buf 21)) = Some 0%nat ∧
  procs spill_iok !! 0%nat = Some spill_proc ∧
  threads spill_iok !! 0%nat = Some spill_thread ∧
  ∃ r s', tx_send_completion (token_buf 21) spill_iok = Some (r, s') ∧
    ((ring_enqueued (RX_NET_COMPLETE, 21) spill_iok s' ∨
      overflow_enqueued 0 21 spill_iok s')
     ↔ 21 ≠ 0 ∧ kill spill_proc = false ∧
       (target_room spill_iok spill_proc 0 spill_thread ∨
        nr_overflows spill_proc ≠ max_overflows spill_proc)) ∧
    (21 ≠ 0 → kill spill_proc = false →
     target_room spill_iok spill_proc 0 spill_thread →
       r = true ∧ overflows_unchanged spill_iok s' ∧
       ∃ t, completion_target spill_proc 0 spill_thread = Some t ∧
            ring_enqueued_at t (RX_NET_COMPLETE, 21) spill_iok s' ∧
            rx_log s' = rx_log spill_iok ++ [(t, (RX_NET_COMPLETE, 21))]) ∧
    (21 ≠ 0 → kill spill_proc = false →
     ¬ target_room spill_iok spill_proc 0 spill_thread →
     nr_overflows spill_proc ≠ max_overflows spill_proc →
       r = true ∧ rings_unchanged spill_iok s' ∧ rx_log s' = rx_log spill_iok ∧
       overflow_enqueued 0 21 spill_iok s') ∧
    (21 = 0 ∨ kill spill_proc = true →
       r = true ∧ rings_unchanged spill_iok s' ∧ overflows_unchanged spill_iok s' ∧
       rx_log s' = rx_log spill_iok) ∧
    (r = false ↔ 21 ≠ 0 ∧ kill spill_proc = false ∧
                 ¬ target_room spill_iok spill_proc 0 spill_thread ∧
                 nr_overflows spill_proc = max_overflows spill_proc) ∧
    (r = false →
       rings_unchanged spill_iok s' ∧ overflows_unchanged spill_iok s' ∧
       rx_log s' = rx_log spill_iok).
Proof.
  split; [reflexivity|]. split; [reflexivity|]. split; [reflexivity|].
  split; [reflexivity|].
  exact (tx_send_completion_enqueues (token_buf 21) spill_iok 0 spill_proc 0 spill_thread
           eq_refl eq_refl eq_refl eq_refl proc_ok_spill).
Defined.

Lemma overflows_unchanged_lookup s s' p P :
  overflows_unchanged s s' → procs s !! p = Some P →
  ∃ P', procs s' !! p = Some P' ∧ overflow_of P' = overflow_of P.
Proof.
  intros Hsame HP. apply (f_equal (fun l => l !! p)) in Hsame.
  rewrite !list_lookup_fmap, HP in Hsame. simpl in Hsame.
  destruct (procs s' !! p) as [P'|]; [|done].
  exists P'. split; [done|]. by injection Hsame.
Qed.

Lemma log_tokens_snoc s s' t cmd tok :
  rx_log s' = rx_log s ++ [(t, (cmd, tok))] → log_tokens s' = log_tokens s ++ [tok].
Proof. intros H. unfold log_tokens. by rewrite H, fmap_app. Qed.

Lemma drain_overflow_loop_spec fuel : ∀ p n i s P,
  procs s !! p = Some P → proc_ok s P → (nr_overflows P ≤ fuel)%nat →
  ∃ i' s' P' delivered,
    drain_overflow_loop fuel p n i s = Some (i', s') ∧
    procs s' !! p = Some P' ∧
    log_tokens s' = log_tokens s ++ delivered ∧
    overflow_of P = overflow_of P' ++ rev delivered ∧
    i' = i + Z.of_nat (length delivered) ∧
    i' ≤ Z.max i n.
Proof.
  induction fuel as [|fuel IH]; intros p n i s P HP (Hths & Hnr & Hlen) Hfuel.
  - exists i, s, P, []. simpl. rewrite HP. simpl.
    case_decide; [lia|]. rewrite !app_nil_r. repeat split; auto; lia.
  - simpl. rewrite HP. simpl.
    case_decide as Hc; cycle 1.
    { exists i, s, P, []. simpl. rewrite !app_nil_r. repeat split; auto; lia. }
    destruct Hc as [Hpos Hin].
    destruct (lookup_lt_is_Some_2 (overflow_queue P) (pred (nr_overflows P)))
      as [tok Htok]; [lia|].
    rewrite Htok. simpl.
    set (P1 := set_nr_overflows (pred (nr_overflows P))
                 (set_next_thread_rr (u32 (next_thread_rr P + 1)) P)).
    set (s1 := upd_proc p _ s).
    assert (HP1 : procs s1 !! p = Some P1).
    { unfold s1. simpl. by rewrite list_lookup_alter_eq, HP. }
    destruct (rx_send_to_runtime_result p (next_thread_rr P) RX_NET_COMPLETE
                tok s1 P1 HP1 Hths) as (b & s2 & -> & Hprocs & _ & Hout).
    assert (Hsplit : overflow_of P = overflow_of P1 ++ [tok]).
    { unfold overflow_of, P1. simpl.
      replace (nr_overflows P) with (S (pred (nr_overflows P))) at 1 by lia.
      by apply take_S_r. }
    simpl. destruct b.
    + destruct Hout as [Hring [t Hlog]].
      destruct (IH p n (i + 1) s2 P1) as (i' & s' & P' & del & Hrun & HP' & Hl & Ho & Hi & Hle).
      { by rewrite Hprocs. }
      { split; [|split; simpl; [lia|done]].
        eapply Forall_impl; [exact Hths|]. intros t0 Ht0. simpl in Ht0.
        by apply (ring_enqueued_valid _ _ _ t0 Hring). }
      { simpl. lia. }
      exists i', s', P', (tok :: del). split; [done|]. split; [done|].
      split; [|split; [|split]].
      * rewrite Hl. erewrite (log_tokens_snoc s1 s2) by done.
        by rewrite <- app_assoc.
      * rewrite Hsplit, Ho. simpl. by rewrite <- app_assoc.
      * simpl length. lia.
      * lia.
    + destruct Hout as [Hthr Hlog].
      eexists i, _, _, []. split; [done|]. split.
      { simpl. rewrite list_lookup_alter_eq, Hprocs, HP1. done. }
      simpl rev. rewrite !app_nil_r. split; [|split; [|split]].
      * unfold log_tokens. simpl. by rewrite Hlog.
      * unfold overflow_of. simpl. f_equal. lia.
      * simpl. lia.
      * lia.
Qed.

(** The fuel of [drain_overflow_queue] never runs out: the call returns. *)
Lemma drain_overflow_queue_spec p n s P :
  procs s !! p = Some P → proc_ok s P →
  ∃ i s' P' delivered,
    drain_overflow_queue p n s = Some (i, s') ∧
    procs s' !! p = Some P' ∧
    log_tokens s' = log_tokens s ++ delivered ∧
    overflow_of P = overflow_of P' ++ rev delivered ∧
    i = Z.of_nat (length delivered) ∧ i ≤ Z.max 0 n.
Proof.
  intros HP Hok. unfold drain_overflow_queue. rewrite HP. simpl.
  destruct (drain_overflow_loop_spec (nr_overflows P) p n 0 s P HP Hok)
    as (i & s' & P' & del & Hrun & HP' & Hl & Ho & Hi & Hle); [lia|].
  exists i, s', P', del. repeat split; auto.
Qed.

(** *** Sequences of router calls *)

Lemma proc_ok_lengths s s' P :
  length (threads s') = length (threads s) → proc_ok s P → proc_ok s' P.
Proof.
  intros Hl (Hths & ?). split; [|done].
  eapply Forall_impl; [exact Hths|]. intros t. cbn beta.
  rewrite !lookup_lt_is_Some. lia.
Qed.

Lemma router_ok_insert p P' s s' :
  router_ok s →
  procs s' = <[p := P']> (procs s) → length (threads s') = length (threads s) →
  proc_ok s' P' → router_ok s'.
Proof.
  intros Hok Hprocs Hl HP'. unfold router_ok in *. rewrite Hprocs.
  apply Forall_insert; [|done].
  eapply Forall_impl; [exact Hok|]. intros Q. by apply proc_ok_lengths.
Qed.

Lemma alter_insert_eq {A} (f : A → A) (i : nat) (l : list A) (x : A) :
  (i < length l)%nat → alter f i (<[i := x]> l) = <[i := f x]> l.
Proof.
  intros Hi. rewrite (alter_lookup_insert f i _ x) by (by apply list_lookup_insert_eq).
  by rewrite list_insert_insert_eq.
Qed.

(** The loop of [drain_overflow_queue] with what it leaves: only the record
    of [p] changes, the delivered tokens are the last ones of the queue, the
    very last one first, and the loop stops before the budget or the queue is
    used up only when the ring the cursor selects refused a token. *)
Lemma drain_overflow_loop_lifo fuel : ∀ p n i s P,
  procs s !! p = Some P → proc_ok s P → (nr_overflows P ≤ fuel)%nat →
  ∃ i' s' P' delivered,
    drain_overflow_loop fuel p n i s = Some (i', s') ∧
    procs s' = <[p := P']> (procs s) ∧
    length (threads s') = length (threads s) ∧
    proc_ok s' P' ∧
    log_tokens s' = log_tokens s ++ delivered ∧
    overflow_of P = overflow_of P' ++ rev delivered ∧
    i' = i + Z.of_nat (length delivered) ∧
    (Z.of_nat (length delivered)
       = Z.min (Z.of_nat (nr_overflows P)) (Z.max 0 (n - i))
     ∨ blocked s' P (length delivered)).
Proof.
  induction fuel as [|fuel IH]; intros p n i s P HP Hok Hfuel.
  - exists i, s, P, []. simpl. rewrite HP. simpl.
    case_decide; [lia|]. rewrite !app_nil_r, list_insert_id by done.
    do 7 (split; [done || lia|]). left. simpl. lia.
  - pose proof Hok as (Hths & Hnr & Hlen).
    simpl. rewrite HP. simpl.
    case_decide as Hc; cycle 1.
    { exists i, s, P, []. simpl. rewrite !app_nil_r, list_insert_id by done.
      do 7 (split; [done || lia|]). left. simpl. lia. }
    destruct Hc as [Hpos Hin].
    destruct (lookup_lt_is_Some_2 (overflow_queue P) (pred (nr_overflows P)))
      as [tok Htok]; [lia|].
    rewrite Htok. simpl.
    set (P1 := set_nr_overflows (pred (nr_overflows P))
                 (set_next_thread_rr (u32 (next_thread_rr P + 1)) P)).
    set (s1 := upd_proc p _ s).
    assert (HP1 : procs s1 !! p = Some P1).
    { unfold s1. simpl. by rewrite list_lookup_alter_eq, HP. }
    assert (Hprocs1 : procs s1 = <[p := P1]> (procs s)).
    { unfold s1. exact (alter_lookup_insert _ p (procs s) P HP). }
    assert (Hlt : (p < length (procs s))%nat) by (by eapply lookup_lt_Some).
    assert (Hsplit : overflow_of P = overflow_of P1 ++ [tok]).
    { unfold overflow_of, P1. simpl.
      replace (nr_overflows P) with (S (pred (nr_overflows P))) at 1 by lia.
      by apply take_S_r. }
    destruct (rx_send_to_runtime_cases p (next_thread_rr P) RX_NET_COMPLETE tok s1 P1
                HP1 Hths) as [(t & T & Ht & HT & Hroom & ->)|[Hno ->]];
      cbn [mbind option_bind].
    + set (s2 := set_rx_log _ _).
      assert (Hl2 : length (threads s2) = length (threads s)).
      { unfold s2. simpl. by rewrite length_alter. }
      destruct (IH p n (i + 1) s2 P1)
        as (i' & s' & P' & del & Hrun & Hprocs & Hl & Hok' & Hlog & Ho & Hi & Hpin).
      { done. }
      { apply (proc_ok_lengths s); [done|]. split; [done|]. split; simpl; [lia|done]. }
      { simpl. lia. }
      exists i', s', P', (tok :: del). split; [done|].
      split; [|split; [|split; [|split; [|split; [|split]]]]].
      * rewrite Hprocs. change (procs s2) with (procs s1).
        by rewrite Hprocs1, list_insert_insert_eq.
      * by rewrite Hl.
      * done.
      * rewrite Hlog. unfold s2, log_tokens. simpl.
        by rewrite fmap_app, <- app_assoc.
      * rewrite Hsplit, Ho. simpl. by rewrite <- app_assoc.
      * simpl length. lia.
      * destruct Hpin as [Hpin|Hblk]; [left|right].
        { simpl length. simpl in Hpin. lia. }
        intros t0. unfold cursor_after. simpl length. rewrite Nat.iter_succ_r.
        apply Hblk.
    + eexists i, _, (set_nr_overflows (S (nr_overflows P1)) P1), [].
      split; [done|]. simpl rev. rewrite !app_nil_r.
      split; [|split; [|split; [|split; [|split; [|split]]]]].
      * simpl. rewrite (alter_lookup_insert _ _ _ P1) by done.
        change (alter _ p (procs s)) with (procs s1).
        by rewrite Hprocs1, list_insert_insert_eq.
      * done.
      * split; [done|]. split; simpl; [lia|done].
      * done.
      * unfold overflow_of. simpl. f_equal. lia.
      * simpl. lia.
      * right. exact Hno.
Qed.

Lemma drain_overflow_queue_lifo p n s P :
  procs s !! p = Some P → proc_ok s P →
  ∃ i s' P' delivered,
    drain_overflow_queue p n s = Some (i, s') ∧
    procs s' = <[p := P']> (procs s) ∧
    length (threads s') = length (threads s) ∧
    proc_ok s' P' ∧
    log_tokens s' = log_tokens s ++ delivered ∧
    overflow_of P = overflow_of P' ++ rev delivered ∧
    i = Z.of_nat (length delivered) ∧
    (i = Z.min (Z.of_nat (nr_overflows P)) (Z.max 0 n)
     ∨ blocked s' P (length delivered)).
Proof.
  intros HP Hok. unfold drain_overflow_queue. rewrite HP. simpl.
  destruct (drain_overflow_loop_lifo (nr_overflows P) p n 0 s P HP Hok)
    as (i & s' & P' & del & Hrun & Hprocs & Hl & Hok' & Hlog & Ho & Hi & Hpin); [lia|].
  exists i, s', P', del. rewrite Z.sub_0_r in Hpin.
  do 7 (split; [done || lia|]).
  destruct Hpin; [left; lia|by right].
Qed.

(** What a release leaves: only the record of the process of the buffer
    changes, and its overflow queue is as before or has the token of the
    buffer as its new last element. *)
Lemma tx_send_completion_shape buf s p P th T :
  priv_p (tx_pktmbuf_get_priv buf) = Some p →
  priv_th (tx_pktmbuf_get_priv buf) = Some th →
  procs s !! p = Some P → threads s !! th = Some T →
  proc_ok s P →
  ∃ r s' P', tx_send_completion buf s = Some (r, s') ∧
    procs s' = <[p := P']> (procs s) ∧
    length (threads s') = length (threads s) ∧
    proc_ok s' P' ∧
    (overflow_of P' = overflow_of P ∧ nr_overflows P' = nr_overflows P
     ∨ overflow_of P' = overflow_of P ++ [completion_data (tx_pktmbuf_get_priv buf)] ∧
       nr_overflows P' = S (nr_overflows P)).
Proof.
  intros Hp Hth HP HT Hok.
  pose proof (tx_send_completion_cases buf s p P th T Hp Hth HP HT Hok) as Hc.
  cbn zeta in Hc.
  set (tok := completion_data (tx_pktmbuf_get_priv buf)) in *.
  set (s0 := if active T then s
             else upd_proc p (set_next_thread_rr (u32 (next_thread_rr P + 1))) s) in Hc.
  assert (Hlt : (p < length (procs s))%nat) by (by eapply lookup_lt_Some).
  assert (Hthr0 : threads s0 = threads s) by (unfold s0; by destruct (active T)).
  assert (HP0 : ∃ rr, procs s0 = <[p := set_next_thread_rr rr P]> (procs s)).
  { unfold s0. destruct (active T).
    - exists (next_thread_rr P). rewrite list_insert_id; [done|]. rewrite HP. by destruct P.
    - eexists. exact (alter_lookup_insert _ p (procs s) P HP). }
  destruct HP0 as [rr HP0].
  destruct Hok as (Hths & Hnr & Hlen).
  destruct Hc as [(Hsup & ->)
                 |[(Hk & Hne & t & T' & Ht & HT' & Hroom & ->)
                 |[(Hk & Hne & Hno & Hfull & ->)
                 |(Hk & Hne & Hno & Hfull & ->)]]].
  - eexists true, _, (set_ref (ref P - 1) P). split; [done|].
    split; [exact (alter_lookup_insert _ p (procs s) P HP)|].
    split; [done|]. split; [done|]. by left.
  - unfold tx_send_completion_success.
    eexists true, _, (set_ref (ref P - 1) (set_next_thread_rr rr P)). split; [done|].
    split; [simpl; by rewrite HP0, alter_insert_eq|].
    split; [simpl; by rewrite length_alter, Hthr0|].
    split; [|by left].
    split; [|done]. simpl.
    eapply Forall_impl; [exact Hths|]. intros t0. cbn beta.
    rewrite !lookup_lt_is_Some, length_alter, Hthr0. done.
  - eexists false, _, (set_next_thread_rr rr P). split; [done|].
    split; [done|]. split; [by rewrite Hthr0|].
    split; [|by left].
    split; [|done]. simpl.
    eapply Forall_impl; [exact Hths|]. intros t0. cbn beta.
    rewrite !lookup_lt_is_Some, Hthr0. done.
  - unfold tx_send_completion_success.
    eexists true, _,
      (set_ref (ref P - 1)
         (set_nr_overflows (S (nr_overflows P))
            (set_overflow_queue (<[nr_overflows P := tok]> (overflow_queue P))
               (set_next_thread_rr rr P)))).
    split; [done|].
    split; [simpl; by rewrite HP0, !alter_insert_eq by (by rewrite ?length_insert)|].
    split; [simpl; by rewrite Hthr0|].
    split.
    { split; [|split; simpl; [lia|by rewrite length_insert]]. simpl.
      eapply Forall_impl; [exact Hths|]. intros t0. cbn beta.
      rewrite !lookup_lt_is_Some, Hthr0. done. }
    right. split; [|done]. unfold overflow_of. simpl.
    erewrite take_S_r; [|apply list_lookup_insert_eq; lia].
    f_equal. by rewrite take_insert_ge.
Qed.

Lemma op_ok_lengths s s' o :
  length (procs s') = length (procs s) → length (threads s') = length (threads s) →
  op_ok s o → op_ok s' o.
Proof.
  intros Hp Ht. destruct o as [buf|q n|t]; simpl; [|lia|done].
  destruct (priv_p (tx_pktmbuf_get_priv buf)); [|done].
  rewrite Hp, Ht. done.
Qed.

Lemma stack_after_app q evs1 evs2 :
  stack_after q (evs1 ++ evs2) = stack_after q evs1 ≫= fun q1 => stack_after q1 evs2.
Proof.
  revert q. induction evs1 as [|[tok|toks] evs1 IH]; intros q; simpl; [done|by rewrite IH|].
  case_decide; [by rewrite IH|done].
Qed.

Lemma stack_after_drained q q' toks :
  q = q' ++ rev toks → stack_after q [Drained toks] = Some q'.
Proof.
  intros ->. simpl.
  assert (Hk : (length (q' ++ rev toks) - length toks = length q')%nat).
  { rewrite length_app, length_rev. lia. }
  rewrite Hk, drop_app_length, take_app_length.
  case_decide as Hd; [done|]. destruct Hd. split; [|done].
  rewrite length_app, length_rev. lia.
Qed.

(** One call: it returns, the records stay well formed and the overflow
    queue of [p] follows the stack discipline. *)
Lemma router_step_lifo p o s P :
  router_ok s → op_ok s o → procs s !! p = Some P →
  ∃ s1 P1, router_step o s = Some s1 ∧ router_ok s1 ∧
    length (procs s1) = length (procs s) ∧
    length (threads s1) = length (threads s) ∧
    procs s1 !! p = Some P1 ∧
    stack_after (overflow_of P) (router_events p o s s1) = Some (overflow_of P1).
Proof.
  intros Hok Hop HP.
  assert (Hlt : (p < length (procs s))%nat) by (by eapply lookup_lt_Some).
  destruct o as [buf|q n|t]; simpl in Hop |- *.
  - destruct (priv_p (tx_pktmbuf_get_priv buf)) as [p0|] eqn:Hp0.
    + destruct Hop as (Hp0lt & th & Hth & Hthlt).
      destruct (lookup_lt_is_Some_2 _ _ Hp0lt) as [P0 HP0].
      destruct (lookup_lt_is_Some_2 _ _ Hthlt) as [T HT].
      assert (Hok0 : proc_ok s P0).
      { unfold router_ok in Hok. rewrite Forall_lookup in Hok. by eapply Hok. }
      destruct (tx_send_completion_shape buf s p0 P0 th T Hp0 Hth HP0 HT Hok0)
        as (r & s1 & P1 & -> & Hprocs & Hl & Hok1 & Hq).
      simpl. 
      assert (Hrok : router_ok s1) by (by eapply router_ok_insert).
      assert (Hlp : length (procs s1) = length (procs s))
        by (by rewrite Hprocs, length_insert).
      destruct (decide (p0 = p)) as [->|Hne].
      * rewrite HP in HP0. injection HP0 as <-.
        exists s1, P1. split; [done|]. split; [done|]. split; [done|]. split; [done|].
        assert (HP1 : procs s1 !! p = Some P1).
        { rewrite Hprocs. by apply list_lookup_insert_eq. }
        split; [done|].
        unfold overflow_len. rewrite HP, HP1. simpl.
        destruct Hq as [[Hq Hn]|[Hq Hn]].
        -- case_decide as Hd; [lia|]. simpl. by rewrite Hq.
        -- case_decide as Hd; [|destruct Hd; split; [done|lia]]. simpl. by rewrite Hq.
      * exists s1, P. split; [done|]. split; [done|]. split; [done|]. split; [done|].
        split; [rewrite Hprocs; by rewrite list_lookup_insert_ne|].
        case_decide as Hd; [|done]. destruct Hd as [[= ?] _]. done.
    + exists s, P. unfold tx_send_completion. rewrite Hp0. simpl.
      split; [done|]. split; [done|]. split; [done|]. split; [done|]. split; done.
  - destruct (lookup_lt_is_Some_2 _ _ Hop) as [Q HQ].
    assert (HokQ : proc_ok s Q).
    { unfold router_ok in Hok. rewrite Forall_lookup in Hok. by eapply Hok. }
    destruct (drain_overflow_queue_lifo q n s Q HQ HokQ)
      as (i & s1 & Q1 & del & -> & Hprocs & Hl & Hok1 & Hlog & Ho & _).
    simpl.
    assert (Hrok : router_ok s1) by (by eapply router_ok_insert).
    assert (Hlp : length (procs s1) = length (procs s))
      by (by rewrite Hprocs, length_insert).
    destruct (decide (q = p)) as [->|Hne].
    + rewrite HP in HQ. injection HQ as <-.
      exists s1, Q1. split; [done|]. split; [done|]. split; [done|]. split; [done|].
      split; [rewrite Hprocs; by apply list_lookup_insert_eq|].
      rewrite Hlog, drop_app_length. by apply stack_after_drained.
    + exists s1, P. split; [done|]. split; [done|]. split; [done|]. split; [done|].
      split; [rewrite Hprocs; by rewrite list_lookup_insert_ne|done].
  - exists (runtime_consumes t s), P.
    assert (Hl : length (threads (runtime_consumes t s)) = length (threads s)).
    { simpl. by rewrite length_alter. }
    split; [done|]. split; [|done].
    unfold router_ok. change (procs (runtime_consumes t s)) with (procs s).
    eapply Forall_impl; [exact Hok|]. intros Q. by apply proc_ok_lengths.
Qed.

(** A sequence of calls: every call returns, and the events of the overflow
    queue of [p] are those of a stack that ends with the content the queue
    has in the last state. *)
Lemma router_run_lifo p ops : ∀ s P,
  router_ok s → Forall (op_ok s) ops → procs s !! p = Some P →
  ∃ s' evs P', router_run p ops s = Some (s', evs) ∧ router_ok s' ∧
    procs s' !! p = Some P' ∧
    stack_after (overflow_of P) evs = Some (overflow_of P').
Proof.
  induction ops as [|o ops IH]; intros s P Hok Hops HP.
  - exists s, [], P. done.
  - apply Forall_cons in Hops as [Ho Hops].
    destruct (router_step_lifo p o s P Hok Ho HP)
      as (s1 & P1 & Hstep & Hok1 & Hlp & Hlt & HP1 & Hst).
    destruct (IH s1 P1 Hok1) as (s' & evs & P' & Hrun & Hok' & HP' & Hst'); [|done|].
    { eapply Forall_impl; [exact Hops|]. intros o'. by apply op_ok_lengths. }
    exists s', (router_events p o s s1 ++ evs), P'.
    simpl. rewrite Hstep. simpl. rewrite Hrun. simpl.
    split; [done|]. split; [done|]. split; [done|].
    rewrite stack_after_app, Hst. done.
Qed.

(** C1 as stated fails: 21 entered the overflow queue before 22, and the
    drain delivers 22 before 21. *)
Lemma overflow_drain_not_fifo : spill_then_drain = Some ([21; 22], [22; 21]).
Proof. reflexivity. Qed.

(** C1 (amended): the overflow queue of a process is a stack, for every
    sequence of appends and drains.  Whatever releases ([tx_send_completion]),
    drains ([drain_overflow_queue]) and emptyings of rings by the runtime
    follow each other, every call returns and the events of the overflow
    queue of [p] obey the stack discipline: a token a release appends goes to
    the end of the queue, and the tokens a drain delivers are the last ones
    of the queue at that moment, delivered in the reverse of the order in
    which they were appended (last in, first out); what is left is the
    content of the queue in the last state.  One release leaves the queue as
    it is or appends its token at the end.  One drain with the budget [n]
    removes tokens from the end and delivers them in that order, and it
    delivers as many tokens as the budget and the queue allow unless the
    ingress ring the cursor of the process selects for the next token has no
    room (or the process has no thread). *)
Theorem overflow_queue_lifo p P s :
  router_ok s →
  procs s !! p = Some P →
  (∀ ops, Forall (op_ok s) ops →
     ∃ s' evs P', router_run p ops s = Some (s', evs) ∧ router_ok s' ∧
       procs s' !! p = Some P' ∧
       stack_after (overflow_of P) evs = Some (overflow_of P')) ∧
  (∀ buf, priv_p (tx_pktmbuf_get_priv buf) = Some p →
          priv_th_ok s (tx_pktmbuf_get_priv buf) →
     ∃ r s' P', tx_send_completion buf s = Some (r, s') ∧
       procs s' !! p = Some P' ∧
       (overflow_of P' = overflow_of P ∨
        overflow_of P' = overflow_of P ++ [completion_data (tx_pktmbuf_get_priv buf)])) ∧
  (∀ n, ∃ i s' P' delivered,
     drain_overflow_queue p n s = Some (i, s') ∧
     procs s' !! p = Some P' ∧
     log_tokens s' = log_tokens s ++ delivered ∧
     overflow_of P = overflow_of P' ++ rev delivered ∧
     i = Z.of_nat (length delivered) ∧
     (i = Z.min (Z.of_nat (nr_overflows P)) (Z.max 0 n)
      ∨ blocked s' P (length delivered))).
Proof.
  intros Hrok HP.
  assert (Hok : proc_ok s P).
  { unfold router_ok in Hrok. rewrite Forall_lookup in Hrok. by eapply Hrok. }
  split; [|split].
  - intros ops Hops. by apply router_run_lifo.
  - intros buf Hp Hth.
    destruct (tx_send_completion_paths buf s p P Hp HP Hok Hth)
      as (r & s' & path & Hrun & Hpath).
    exists r, s'.
    assert (Hsame : overflows_unchanged s s' →
              ∃ P', tx_send_completion buf s = Some (r, s') ∧
                    procs s' !! p = Some P' ∧
                    (overflow_of P' = overflow_of P ∨
                     overflow_of P' = overflow_of P ++
                       [completion_data (tx_pktmbuf_get_priv buf)])).
    { intros Hs. destruct (overflows_unchanged_lookup s s' p P Hs HP) as (P' & ? & ?).
      exists P'. auto. }
    destruct path; simpl in Hpath.
    + destruct Hpath as (_ & _ & ->). apply Hsame, overflows_proc_put.
    + apply Hsame, Hpath.
    + destruct Hpath as (_ & _ & _ & _ & (P0 & P' & HP0 & HP' & Heq) & _).
      exists P'. rewrite HP in HP0. injection HP0 as <-. auto.
    + apply Hsame, Hpath.
  - intros n.
    destruct (drain_overflow_queue_lifo p n s P HP Hok)
      as (i & s' & P' & del & Hrun & Hprocs & _ & _ & Hlog & Ho & Hi & Hpin).
    exists i, s', P', del. split; [done|]. split; [|done].
    rewrite Hprocs. apply list_lookup_insert_eq. by eapply lookup_lt_Some.
Qed.

Lemma router_ok_spilled : router_ok spilled_iok.
Proof.
  repeat constructor; simpl; try lia. by eexists.
Qed.

Lemma op_ok_spilled : Forall (op_ok spilled_iok) spilled_ops.
Proof.
  unfold spilled_ops.
  repeat (apply Forall_cons_2;
          [first [exact I | simpl; lia
                 | simpl; split; [lia|exists 0%nat; split; [reflexivity|simpl; lia]]]|]).
  apply Forall_nil_2.
Qed.

Lemma overflow_queue_lifo_witness :
  router_ok spilled_iok ∧
  procs spilled_iok !! 0%nat = Some spilled_proc ∧
  router_run 0 [Release (token_buf 21); Release (token_buf 22); Consume 0] spill_iok
    = Some (spilled_iok, [Appended 21; Appended 22]) ∧
  Forall (op_ok spilled_iok) spilled_ops ∧
  snd <$> router_run 0 spilled_ops spilled_iok
    = Some [Appended 25; Drained [25; 22]; Appended 26; Appended 27; Appended 28;
            Drained [28; 27]] ∧
  (∃ s' evs P', router_run 0 spilled_ops spilled_iok = Some (s', evs) ∧
     router_ok s' ∧ procs s' !! 0%nat = Some P' ∧
     stack_after (overflow_of spilled_proc) evs = Some (overflow_of P')) ∧
  fst <$> drain_overflow_queue 0 64 spilled_iok = Some 2 ∧
  (∃ i s' P' delivered,
     drain_overflow_queue 0 64 spilled_iok = Some (i, s') ∧
     procs s' !! 0%nat = Some P' ∧
     log_tokens s' = log_tokens spilled_iok ++ delivered ∧
     overflow_of spilled_proc = overflow_of P' ++ rev delivered ∧
     i = Z.of_nat (length delivered) ∧
     (i = Z.min (Z.of_nat (nr_overflows spilled_proc)) (Z.max 0 64)
      ∨ blocked s' spilled_proc (length delivered))).
Proof.
  destruct (overflow_queue_lifo 0 spilled_proc spilled_iok router_ok_spilled eq_refl)
    as (Hseq & _ & Hdrain).
  split; [exact router_ok_spilled|]. split; [reflexivity|]. split; [reflexivity|].
  split; [exact op_ok_spilled|]. split; [reflexivity|].
  split; [exact (Hseq spilled_ops op_ok_spilled)|].
  split; [reflexivity|]. exact (Hdrain 64).
Defined.

(** ** Egress poller *)

Lemma upd_thread_twice t q q' s :
  upd_thread t (set_txpktq q') (upd_thread t (set_txpktq q) s)
  = upd_thread t (set_txpktq q') s.
Proof.
  unfold upd_thread. simpl. by rewrite list_alter_alter_eq.
Qed.

Lemma tx_drain_queue_loop_violation t P bad rest good :
  ∀ k i hdrs s T,
  threads s !! t = Some T →
  procs s !! th_p T = Some P →
  txpktq T = good ++ bad :: rest →
  Forall (slot_ok P) good →
  ¬ slot_ok P bad →
  (length good < k)%nat →
  tx_drain_queue_loop k t i hdrs s = Bug (upd_thread t (set_txpktq rest) s).
Proof.
  induction good as [|g good IH]; intros k i hdrs s T HT HP Hq Hgood Hbad Hk.
  - destruct k as [|k]; [simpl in Hk; lia|]. simpl in Hq |- *.
    rewrite HT. simpl. rewrite Hq. destruct bad as [cmd payload].
    case_decide as Hcmd; [done|].
    simpl. rewrite HP. simpl.
    destruct (shmptr_to_ptr P payload sizeof_tx_net_hdr) eqn:Hptr; [|done].
    exfalso. apply Hbad. split; simpl; [|by rewrite Hptr].
    by destruct (decide (cmd = TXPKT_NET_XMIT)).
  - destruct k as [|k]; [simpl in Hk; lia|]. simpl in Hq, Hk |- *.
    rewrite HT. simpl. rewrite Hq. destruct g as [cmd payload].
    apply Forall_cons in Hgood as [[Hcmd [ptr Hptr]] Hgood]. simpl in Hcmd, Hptr.
    case_decide; [done|]. simpl. rewrite HP. simpl. rewrite Hptr.
    erewrite (IH k _ _ _ (set_txpktq (good ++ bad :: rest) T)); try done.
    + by rewrite upd_thread_twice.
    + simpl. by rewrite list_lookup_alter_eq, HT.
    + lia.
Qed.

Lemma int_of_u32_small z : 0 ≤ z < 2 ^ 31 → int_of_u32 (u32 z) = z.
Proof.
  intros Hz. unfold int_of_u32, u32. rewrite Z.mod_small by lia.
  destruct (Z.ltb_spec z (2 ^ 31)); lia.
Qed.

(** C7 as stated fails: on a record with a tag other than the transmit tag
    [tx_burst] ends in the [BUG_ON] of [tx_drain_queue]; it does not return,
    and the kill flag of the offending process is still unset. *)
Lemma tx_burst_bad_tag_is_fatal :
  match tx_burst 4 8 bad_iok with
  | Bug s' => kill <$> procs s' !! 0%nat = Some false ∧ procs s' = procs bad_iok
  | _ => False
  end.
Proof. split; reflexivity. Qed.

(** C7 (amended): when a dequeued egress slot carries a command tag other
    than the transmit tag, or its offset does not translate to a pointer
    inside the region of the process, [tx_drain_queue] stops at a [BUG_ON]
    after it consumed the slots up to the offending one: the call does not
    return, no kill flag is set and no process record changes, and the poll
    set is as it was.  A [tx_burst] that polls this thread first ends in the
    same [BUG_ON]. *)
Theorem tx_drain_queue_violation t n s T P good bad rest :
  threads s !! t = Some T →
  procs s !! th_p T = Some P →
  txpktq T = good ++ bad :: rest →
  Forall (slot_ok P) good →
  ¬ slot_ok P bad →
  Z.of_nat (length good) < n →
  let s' := upd_thread t (set_txpktq rest) s in
  tx_drain_queue t n s = Bug s' ∧
  procs s' = procs s ∧ ts s' = ts s ∧
  ∀ burst accept,
    ts s !! Z.to_nat (u32 (pos s + 0) mod nrts s) = Some t →
    n = burst - n_pkts s → 0 ≤ burst - n_pkts s < 2 ^ 31 →
    tx_burst burst accept s = Bug s'.
Proof.
  intros HT HP Hq Hgood Hbad Hn s'.
  assert (Hrun : tx_drain_queue t n s = Bug s').
  { unfold tx_drain_queue.
    eapply tx_drain_queue_loop_violation; eauto. lia. }
  split; [done|]. split; [done|]. split; [done|].
  intros burst accept Hfirst -> Hrange.
  unfold tx_burst, tx_burst_poll.
  assert (Hts : (0 < length (ts s))%nat).
  { apply lookup_lt_Some in Hfirst.
    destruct (ts s); simpl in *; lia. }
  destruct (length (ts s)) as [|k] eqn:Hlen; [lia|].
  simpl. case_decide as Hi; [|unfold nrts in Hi; lia].
  rewrite Hfirst. simpl.
  rewrite int_of_u32_small by lia. by rewrite Hrun.
Qed.

Lemma tx_drain_queue_violation_witness :
  tx_drain_queue 0 4 bad_iok = Bug (upd_thread 0 (set_txpktq []) bad_iok) ∧
  procs (upd_thread 0 (set_txpktq []) bad_iok) = procs bad_iok ∧
  ts (upd_thread 0 (set_txpktq []) bad_iok) = ts bad_iok ∧
  tx_burst 4 8 bad_iok = Bug (upd_thread 0 (set_txpktq []) bad_iok).
Proof.
  assert (Hbad : ¬ slot_ok spill_proc (7, 1000)).
  { intros [Htag _]. discriminate Htag. }
  destruct (tx_drain_queue_violation 0 4 bad_iok bad_thread spill_proc []
              (7, 1000) [] eq_refl eq_refl eq_refl (Forall_nil_2 _) Hbad eq_refl)
    as (H1 & H2 & H3 & H4).
  split; [exact H1|]. split; [exact H2|]. split; [exact H3|].
  apply H4; [reflexivity|reflexivity|]. simpl. lia.
Defined.

(** ** Polling phase of the burst *)

Lemma int_of_u32_signed z : - 2 ^ 31 ≤ z < 2 ^ 31 → int_of_u32 (u32 z) = z.
Proof.
  intros Hz. unfold int_of_u32, u32.
  change (2 ^ 31) with 2147483648 in *. change (2 ^ 32) with 4294967296.
  destruct (Z.ltb_spec (z mod 4294967296) 2147483648);
    Z.div_mod_to_equations; lia.
Qed.

Lemma poll_frame_refl s : poll_frame s s.
Proof. by repeat split. Qed.

Lemma poll_frame_trans s s1 s2 :
  poll_frame s s1 → poll_frame s1 s2 → poll_frame s s2.
Proof.
  intros (?&?&?&?&?&?&?&?&?&?&?&?) (?&?&?&?&?&?&?&?&?&?&?&?).
  repeat split; try congruence; try lia. by etrans.
Qed.

Lemma poll_ok_frame s s1 : poll_frame s s1 → poll_ok s → poll_ok s1.
Proof.
  intros (_&_&_&_&_&_&_&Hprocs&_&Hthr&_&Hsub) Hok.
  unfold poll_ok in *. rewrite Forall_forall in Hok |- *.
  intros t Ht. destruct (Hok t) as (T & HT & HP); [by apply Hsub|].
  apply (f_equal (fun l => l !! t)) in Hthr.
  rewrite !list_lookup_fmap, HT in Hthr. simpl in Hthr.
  destruct (threads s1 !! t) as [T1|]; [|done].
  exists T1. split; [done|]. injection Hthr as ->. by rewrite Hprocs.
Qed.

Lemma poll_frame_upd_thread t q s :
  poll_frame s (upd_thread t (set_txpktq q) s).
Proof.
  repeat split; try done. simpl.
  apply list_eq. intros i. rewrite !list_lookup_fmap.
  destruct (decide (t = i)) as [->|].
  - rewrite list_lookup_alter_eq. by destruct (threads s !! i).
  - by rewrite list_lookup_alter_ne.
Qed.

Lemma poll_frame_unpoll t s : poll_frame s (unpoll_thread t s).
Proof.
  repeat split; try done; simpl.
  - apply length_filter.
  - intros x Hx. by apply list_elem_of_filter in Hx as [_ ?].
Qed.

Lemma tx_drain_queue_loop_post t : ∀ k i hdrs s T,
  threads s !! t = Some T → is_Some (procs s !! th_p T) →
  drain_post k i hdrs s (tx_drain_queue_loop k t i hdrs s).
Proof.
  induction k as [|k IH]; intros i hdrs s T HT HP.
  - simpl. split; [apply poll_frame_refl|]. split; [done|]. split; [lia|].
    exists []. rewrite app_nil_r. simpl. split; [done|lia].
  - simpl. rewrite HT. simpl.
    destruct (txpktq T) as [|[cmd payload] q] eqn:Hq.
    + simpl. split.
      { destruct (active T); [apply poll_frame_refl|apply poll_frame_unpoll]. }
      split; [by destruct (active T)|]. split; [lia|].
      exists []. rewrite app_nil_r. simpl. split; [done|lia].
    + case_decide; [done|]. destruct HP as [P HP]. simpl. rewrite HP. simpl.
      destruct (shmptr_to_ptr P payload sizeof_tx_net_hdr) as [ptr|]; [|done].
      set (s1 := upd_thread t (set_txpktq q) s).
      specialize (IH (i + 1) (hdrs ++ [ptr]) s1 (set_txpktq q T)).
      destruct (tx_drain_queue_loop k t (i + 1) (hdrs ++ [ptr]) s1)
        as [[r hdrs'] s2| |]; simpl in *.
      * destruct IH as (Hf & Hn & Hr & new & -> & Hlen).
        { unfold s1. simpl. by rewrite list_lookup_alter_eq, HT. }
        { simpl. eauto. }
        split; [eapply poll_frame_trans; [apply poll_frame_upd_thread|done]|].
        split; [done|]. split; [lia|].
        exists (ptr :: new). rewrite <- app_assoc. split; [done|].
        simpl length. lia.
      * done.
      * apply IH; [|simpl; eauto].
        unfold s1. simpl. by rewrite list_lookup_alter_eq, HT.
Qed.

Section PollLoop.
Variable burst : Z.
Hypothesis burst_range : 0 < burst < 2 ^ 31.

Lemma poll_frame_set_n_pkts v s : poll_frame s (set_n_pkts v s).
Proof. by repeat split. Qed.

Lemma tx_burst_poll_loop_post : ∀ k i pulled pulltotal s,
  poll_ok s → 0 ≤ i → nrts s ≤ i + Z.of_nat k → 0 ≤ n_pkts s < 2 ^ 31 →
  poll_loop_post burst i pulled s (tx_burst_poll_loop burst k i pulled pulltotal s).
Proof.
  induction k as [|k IH]; intros i pulled pulltotal s Hok Hi Hfuel Hn.
  - simpl. case_decide; [lia|]. simpl.
    split; [apply poll_frame_refl|]. split; [done|].
    split; [exists []; rewrite app_nil_r; simpl; split; [done|lia]|].
    split; [lia|]. split; [done|]. auto.
  - simpl. case_decide as Hlt; cycle 1.
    { simpl. split; [apply poll_frame_refl|]. split; [done|].
      split; [exists []; rewrite app_nil_r; simpl; split; [done|lia]|].
      split; [lia|]. split; [done|]. auto. }
    assert (Hidx : (Z.to_nat (u32 (pos s + i) mod nrts s) < length (ts s))%nat).
    { pose proof (Z.mod_pos_bound (u32 (pos s + i)) (nrts s)).
      unfold nrts in *. lia. }
    destruct (lookup_lt_is_Some_2 _ _ Hidx) as [t Ht]. rewrite Ht. simpl.
    assert (HT : ∃ T, threads s !! t = Some T ∧ is_Some (procs s !! th_p T)).
    { unfold poll_ok in Hok. rewrite Forall_forall in Hok. apply Hok.
      by eapply list_elem_of_lookup_2. }
    destruct HT as (T & HT & HP).
    set (n := int_of_u32 (u32 (burst - n_pkts s))).
    assert (Hnval : n = burst - n_pkts s).
    { apply int_of_u32_signed. lia. }
    pose proof (tx_drain_queue_loop_post t (Z.to_nat n) 0 [] s T HT HP) as Hd.
    unfold tx_drain_queue.
    destruct (tx_drain_queue_loop (Z.to_nat n) t 0 [] s) as [[ret hdrs] s1| |];
      simpl in *; [|done|done].
    destruct Hd as (Hf & Hnp & Hret & new & -> & Hlen).
    simpl in Hlen.
    assert (Hsum : u32 (n_pkts s1 + ret) = n_pkts s + ret).
    { rewrite Hnp. unfold u32. apply Z.mod_small. lia. }
    rewrite Hsum.
    assert (Hf2 : poll_frame s (set_n_pkts (n_pkts s + ret) s1)).
    { eapply poll_frame_trans; [done|apply poll_frame_set_n_pkts]. }
    case_decide as Hfull.
    + simpl in *. split; [done|]. split; [by eapply poll_ok_frame|].
      split; [eexists; split; [done|]; rewrite length_fmap; lia|].
      split; [lia|]. split; [auto|]. done.
    + simpl in Hfull.
      specialize (IH (i + 1) (pulled ++ ((fun h => (h, t)) <$> new))
                    (u32 (pulltotal + ret)) (set_n_pkts (n_pkts s + ret) s1)).
      destruct (tx_burst_poll_loop burst k (i + 1) _ _ _) as [[[full pulled'] pt'] s2| |];
        simpl in *.
      * destruct IH as (Hf3 & Hok3 & (new3 & -> & Hn3) & Hmax & Hfull3 & Hnf3).
        { by eapply poll_ok_frame. }
        { lia. }
        { destruct Hf2 as (_&_&_&_&_&_&_&_&_&_&Hlen2&_). simpl in Hlen2.
          unfold nrts in *. simpl. lia. }
        { lia. }
        split; [by eapply poll_frame_trans|]. split; [done|].
        split.
        { eexists. rewrite <- app_assoc. split; [done|].
          rewrite length_app, length_fmap. lia. }
        split; [lia|]. split; [intros Hft; split; [by apply Hfull3|done]|].
        intros Hff. left. destruct (Hnf3 Hff) as [?|[-> _]]; simpl; lia.
      * done.
      * apply IH; [by eapply poll_ok_frame|lia| |lia].
        destruct Hf2 as (_&_&_&_&_&_&_&_&_&_&Hlen2&_). simpl in Hlen2.
        unfold nrts in *. simpl. lia.
Qed.

End PollLoop.

Lemma tx_burst_poll_post burst s :
  0 < burst < 2 ^ 31 → poll_ok s → 0 ≤ n_pkts s < 2 ^ 31 →
  poll_post burst s (tx_burst_poll burst s).
Proof.
  intros Hb Hok Hn. unfold tx_burst_poll.
  assert (Hl : poll_loop_post burst 0 [] s
                 (tx_burst_poll_loop burst (length (ts s)) 0 [] 0 s)).
  { apply tx_burst_poll_loop_post; try done; unfold nrts; lia. }
  destruct (tx_burst_poll_loop burst (length (ts s)) 0 [] 0 s)
    as [[[full pulled] pt] s1| |]; simpl in *; [|done|done].
  destruct Hl as (Hf & Hok1 & (new & -> & Hnp) & Hmax & Hfull & Hnf).
  destruct Hf as (Hpos&Hnb&Hbufs&Hlog&Hpool&Hmb&Hshm&Hprocs&Hstats&_).
  destruct full; simpl.
  - repeat split; try done.
    destruct (Hfull eq_refl) as [Hge Hne].
    rewrite decide_False; [done|].
    intros [_ [?|Hts]]; [lia|].
    unfold nrts in Hne. rewrite Hts in Hne. simpl in Hne. lia.
  - destruct (Z.eqb_spec (n_pkts s1) 0) as [Hz|Hnz]; simpl.
    + repeat split; try done; try lia.
      rewrite decide_False; [done|]. lia.
    + repeat split; try done.
      rewrite Hpos. rewrite decide_True; [done|].
      split; [lia|].
      destruct (Hnf eq_refl) as [?|[-> Hnot]]; [by left|right].
      unfold nrts in Hnot. destruct (ts s); [done|simpl in Hnot; lia].
Qed.

(** ** Transmit phase of the burst *)

Lemma write_bufs_length objs : ∀ i b, length (write_bufs i objs b) = length b.
Proof.
  induction objs as [|o objs IH]; intros i b; simpl; [done|].
  by rewrite IH, length_insert.
Qed.

Lemma write_bufs_lookup_lt objs : ∀ i b j,
  (j < i)%nat → write_bufs i objs b !! j = b !! j.
Proof.
  induction objs as [|o objs IH]; intros i b j Hj; simpl; [done|].
  rewrite IH by lia. apply list_lookup_insert_ne. lia.
Qed.

Lemma write_bufs_take objs i b : take i (write_bufs i objs b) = take i b.
Proof.
  apply list_eq. intros j. destruct (decide (j < i)%nat).
  - rewrite !lookup_take_lt by done. by apply write_bufs_lookup_lt.
  - rewrite !lookup_take_ge by lia. done.
Qed.

Lemma write_bufs_lookup_new objs : ∀ i b j o,
  objs !! j = Some o → (i + j < length b)%nat →
  write_bufs i objs b !! (i + j)%nat = Some o.
Proof.
  induction objs as [|o' objs IH]; intros i b j o Hj Hlen; [done|].
  destruct j as [|j]; simpl in *.
  - injection Hj as ->. rewrite Nat.add_0_r, write_bufs_lookup_lt by lia.
    apply list_lookup_insert_eq. lia.
  - replace (i + S j)%nat with (S i + j)%nat by lia.
    apply IH; [done|]. rewrite length_insert. lia.
Qed.

Lemma fill_frame_trans s s1 s2 : fill_frame s s1 → fill_frame s1 s2 → fill_frame s s2.
Proof.
  intros (?&?&?&?&?&?&?&?&?&?&?) (?&?&?&?&?&?&?&?&?&?&?). repeat split; congruence.
Qed.

Lemma tx_prepare_tx_mbuf_frame buf hdr th s u s1 :
  tx_prepare_tx_mbuf buf hdr th s = Ret u s1 → fill_frame s s1.
Proof.
  unfold tx_prepare_tx_mbuf.
  destruct (threads s !! th) as [T|]; [cbn [of_option]|discriminate].
  destruct (procs s !! th_p T) as [P|]; [cbn [of_option]|discriminate].
  destruct (mbufs s !! buf) as [B|]; [cbn [of_option]|discriminate].
  destruct (page_paddrs P !! _) as [paddr|]; [cbn [of_option]|discriminate].
  intros [= _ <-]. repeat split; try reflexivity.
  cbn. apply length_alter.
Qed.

Lemma tx_burst_fill_frame segs : ∀ i s u s1,
  tx_burst_fill i segs s = Ret u s1 → fill_frame s s1.
Proof.
  induction segs as [|[hdr t] segs IH]; intros i s u s1; simpl.
  - intros [= _ <-]. by repeat split.
  - destruct (bufs s !! i) as [b|]; [simpl|done].
    destruct (tx_prepare_tx_mbuf b hdr t s) as [u' s'| |] eqn:Hp; [simpl|done|done].
    intros Hrest. eapply fill_frame_trans.
    + by eapply tx_prepare_tx_mbuf_frame.
    + by eapply IH.
Qed.

Lemma tx_burst_shift_spec ret : ∀ k i b b',
  tx_burst_shift k i ret b = Some b' →
  length b' = length b ∧
  (∀ j, (j < i)%nat → b' !! j = b !! j) ∧
  (∀ j, (i ≤ j < i + k)%nat → b' !! j = b !! (ret + j)%nat).
Proof.
  induction k as [|k IH]; intros i b b'; simpl.
  - intros [= <-]. split; [done|]. split; [done|]. intros j Hj. lia.
  - destruct (b !! (ret + i)%nat) as [x|] eqn:Hx; [simpl|done].
    intros Hrest. destruct (IH _ _ _ Hrest) as (Hlen & Hlt & Hmid).
    rewrite length_insert in Hlen. split; [done|].
    assert (Hi : (i < length b)%nat) by (apply lookup_lt_Some in Hx; lia).
    split.
    + intros j Hj. rewrite Hlt by lia. apply list_lookup_insert_ne. lia.
    + intros j Hj. destruct (decide (j = i)) as [->|Hne].
      * rewrite Hlt by lia. rewrite list_lookup_insert_eq by done. done.
      * rewrite Hmid by lia. apply list_lookup_insert_ne. lia.
Qed.

Lemma tx_burst_shift_take k ret b b' :
  tx_burst_shift k 0 ret b = Some b' →
  length b' = length b ∧ take k b' = take k (drop ret b).
Proof.
  intros H. destruct (tx_burst_shift_spec ret k 0 b b' H) as (Hlen & _ & Hmid).
  split; [done|]. apply list_eq. intros j.
  destruct (decide (j < k)%nat).
  - rewrite !lookup_take_lt by done. rewrite lookup_drop. apply Hmid. lia.
  - rewrite !lookup_take_ge by lia. done.
Qed.

Lemma print_pkt_loop_ok m hdr pktlen udp_data : ∀ fuel j out,
  pktlen / 4 - j ≤ Z.of_nat fuel →
  (∀ j', j ≤ j' < pktlen / 4 → frame_read m hdr (udp_data + 4 * j') 4) →
  is_Some (print_pkt_loop fuel j pktlen udp_data m hdr out).
Proof.
  induction fuel as [|fuel IH]; intros j out Hfuel Hread; cbn [print_pkt_loop].
  - case_decide as Hc; [|by eexists]. exfalso. Z.div_mod_to_equations. lia.
  - case_decide as Hc; [|by eexists].
    assert (Hj : j < pktlen / 4) by (Z.div_mod_to_equations; lia).
    rewrite decide_True by (apply Hread; lia).
    apply IH; [lia|]. intros j' Hj'. apply Hread. lia.
Qed.

Lemma print_pkt_contents_ok m h : log_ok m h → is_Some (print_pkt_contents m h).
Proof.
  intros [Hfield Hwords]. unfold print_pkt_contents.
  unfold UDP_OFFSET, off_udp_len, sizeof_udp_hdr in Hfield, Hwords.
  rewrite decide_True.
  2:{ unfold frame_read, hdr_payload, sizeof_tx_net_hdr, UDP_OFFSET, off_udp_len. lia. }
  fold (log_len m h). apply print_pkt_loop_ok.
  - destruct (decide (0 ≤ log_len m h)); Z.div_mod_to_equations; lia.
  - intros j' Hj'. unfold frame_read, hdr_payload, sizeof_tx_net_hdr, UDP_OFFSET,
      sizeof_udp_hdr.
    destruct Hwords as [Hshort|Hfit]; [Z.div_mod_to_equations; lia|lia].
Qed.

Lemma tx_burst_print_ok pulled m : ∀ k i,
  0 ≤ i → (Z.to_nat i + k ≤ length pulled)%nat →
  Forall (fun d : Z * nat => log_ok m d.1) pulled →
  is_Some (tx_burst_print k i 0 pulled m).
Proof.
  induction k as [|k IH]; intros i Hi Hlen Hok; cbn [tx_burst_print]; [by eexists|].
  rewrite decide_False by lia. rewrite Z.sub_0_r.
  destruct (lookup_lt_is_Some_2 pulled (Z.to_nat i)) as [[h t] Hd]; [lia|].
  rewrite Hd. cbn [mbind option_bind].
  rewrite Forall_forall in Hok.
  destruct (print_pkt_contents_ok m h) as [ws Hws].
  { apply (Hok (h, t)). by eapply list_elem_of_lookup_2. }
  rewrite Hws. cbn [mbind option_bind].
  destruct (IH (i + 1)) as [rest Hrest]; [lia|lia|by apply Forall_forall|].
  rewrite Hrest. by eexists.
Qed.

(** A call entered with carried-over buffers does not get past the logging
    loop: its first round reads [hdrs[0]], which the call did not write. *)
Lemma tx_burst_transmit_carried burst accept n0 pulled pt s :
  0 < n0 → 0 < n_pkts s →
  tx_burst_transmit burst accept n0 pulled pt s = Undef.
Proof.
  intros Hn0 Hn. unfold tx_burst_transmit. cbn [n_pkts shm set_stats].
  destruct (Z.to_nat (n_pkts s)) as [|k] eqn:Hk; [lia|].
  cbn [tx_burst_print]. by rewrite decide_True by lia.
Qed.

Lemma tx_burst_transmit_post burst accept n0 pulled pt s :
  burst * 50 < 2 ^ 16 → 0 ≤ n_bufs s →
  transmit_post burst accept s (tx_burst_transmit burst accept n0 pulled pt s).
Proof.
  intros Hb Hnb. unfold tx_burst_transmit.
  cbn [n_bufs n_pkts shm set_stats].
  destruct (tx_burst_print _ _ _ _ _) as [ws|]; [|done].
  cbn [of_option].
  case_decide; [done|].
  destruct (tx_burst_gso _ _ []) as [[m' segs]|]; [|done].
  cbn [of_option]. unfold TX_MAX_SEGS.
  cbn [n_bufs n_pkts pool bufs nic_log set_n_pkts set_shm set_stats set_pool set_bufs].
  set (m := n_bufs s + Z.of_nat (length segs)) in *.
  case_decide as Hmax; [done|].
  case_decide as Hpool.
  { cbn. do 6 (split; [done|]). left. done. }
  case_decide as Hcap; [|done].
  set (need := Z.to_nat (m - n_bufs s)) in *.
  set (bw := write_bufs (Z.to_nat (n_bufs s)) (take need (pool s)) (bufs s)).
  match goal with |- context [tx_burst_fill ?i ?l ?st] =>
    destruct (tx_burst_fill i l st) as [u s1| |] eqn:Hfill; [|done|done] end.
  apply tx_burst_fill_frame in Hfill.
  destruct Hfill as (Hpos & Hnp & Hnb1 & Hbufs & Hlog & _ & _ & _ & Hts & Hthr & Hpr).
  cbn [pos n_bufs n_pkts pool bufs nic_log set_n_pkts set_shm set_stats set_pool set_bufs] in *.
  cbn [obind].
  cbn [pos n_bufs n_pkts pool bufs nic_log set_n_pkts set_shm set_stats set_pool set_bufs
       set_n_bufs set_nic_log STAT_INC].
  rewrite Hnp, Hbufs, Hlog.
  assert (Hu16 : u16 m = m).
  { unfold u16. apply Z.mod_small. lia. }
  rewrite Hu16.
  set (offered := take (Z.to_nat m) bw).
  set (ret := Z.max 0 (Z.min accept m)).
  assert (Hbwlen : length bw = length (bufs s)) by apply write_bufs_length.
  assert (Hofflen : Z.of_nat (length offered) = m).
  { unfold offered. rewrite length_take, Hbwlen. lia. }
  assert (Hprefix : take (Z.to_nat (n_bufs s)) offered
                    = take (Z.to_nat (n_bufs s)) (bufs s)).
  { unfold offered. rewrite take_take.
    replace (Z.to_nat (n_bufs s) `min` Z.to_nat m)%nat with (Z.to_nat (n_bufs s)) by lia.
    apply write_bufs_take. }
  case_decide as Hshort.
  - unfold STAT_INC.
    cbn [pos n_bufs n_pkts pool bufs nic_log set_n_pkts set_shm set_stats set_pool set_bufs
       set_n_bufs set_nic_log].
    match goal with |- context [tx_burst_shift ?k ?i ?r ?b] =>
      destruct (tx_burst_shift k i r b) as [b'|] eqn:Hshift; [|done] end.
    apply tx_burst_shift_take in Hshift as [Hlen' Htake].
    cbn. split; [done|]. split; [done|]. split; [congruence|].
    do 3 (split; [done|]). right.
    exists offered, ret. rewrite Hofflen. repeat split; try done; try lia.
    rewrite Htake. unfold offered.
    rewrite take_drop_commute. do 2 f_equal. lia.
  - cbn. split; [done|]. split; [done|]. split; [congruence|].
    do 3 (split; [done|]). right.
    exists offered, ret. rewrite Hofflen. repeat split; try done; try lia.
    rewrite drop_ge; [|lia]. replace (Z.to_nat (m - ret)) with 0%nat by lia. done.
Qed.

Lemma tx_burst_poll_pos_transmit burst accept n0 pulled pt s b s' :
  tx_burst_transmit burst accept n0 pulled pt s = Ret b s' → pos s' = pos s.
Proof.
  unfold tx_burst_transmit. cbn [n_bufs n_pkts shm set_stats].
  destruct (tx_burst_print _ _ _ _ _) as [ws|]; [|done].
  cbn [of_option].
  case_decide; [done|].
  destruct (tx_burst_gso _ _ []) as [[m' segs]|]; [|done].
  cbn [of_option].
  case_decide; [done|].
  case_decide.
  { intros [= _ <-]. reflexivity. }
  case_decide; [|done].
  match goal with |- context [tx_burst_fill ?i ?l ?st] =>
    destruct (tx_burst_fill i l st) as [u s1| |] eqn:Hfill; [|done|done] end.
  apply tx_burst_fill_frame in Hfill. destruct Hfill as (Hpos & _).
  cbn [obind]. case_decide.
  - match goal with |- context [tx_burst_shift ?k ?i ?r ?b] =>
      destruct (tx_burst_shift k i r b) as [b'|]; [|done] end.
    intros [= _ <-]. exact Hpos.
  - intros [= _ <-]. exact Hpos.
Qed.

(** *** The polling cursor and back pressure *)

Lemma poll_ok_bp_state offs : poll_ok (bp_state offs).
Proof. repeat constructor. eexists. split; [reflexivity|]. by eexists. Qed.

(** C6 as stated fails: in the call after a short enqueue no descriptor is
    pulled (the rings are empty) and the burst is not filled, yet the
    polling phase advances [pos] from 1 to 2, because the two carried-over
    buffers count in [n_pkts].  (Past the polling phase that call has no
    defined result: the logging loop reads [hdrs[0]] and [hdrs[1]], which the
    call did not write.) *)
Lemma tx_burst_pos_advances_without_pull :
  tx_burst 4 1 bp3_iok = Ret true bp3_after ∧
  pos bp3_after = 1 ∧ n_pkts bp3_after = 2 ∧
  match tx_burst_poll 4 bp3_after with
  | Ret (Some (pulled, pulltotal)) s1 => pulled = [] ∧ pulltotal = 0 ∧ pos s1 = 2
  | _ => False
  end ∧
  tx_burst 4 4 bp3_after = Undef.
Proof. vm_compute. repeat split; reflexivity. Qed.

(** C6 (amended): in a [tx_burst] with a non-empty poll set, the polling
    phase ends in a [BUG_ON] or returns; when it returns, [n_pkts] is the
    number of buffers carried over from the previous call plus the number of
    descriptors pulled in this one, and [pos] is advanced by exactly one
    (modulo 2^32) when and only when that sum is non-zero and below
    IOKERNEL_TX_BURST_SIZE; when the burst fills, or the sum is zero, [pos]
    is left unchanged.  The rest of [tx_burst] does not touch [pos]. *)
Theorem tx_burst_pos_advance burst s :
  0 < burst < 2 ^ 31 → poll_ok s → 0 ≤ n_pkts s < 2 ^ 31 → ts s ≠ [] →
  match tx_burst_poll burst s with
  | Undef => False
  | Bug _ => True
  | Ret r s1 =>
      n_pkts s1 = n_pkts s + npulled r ∧
      pos s1 = (if decide (0 < n_pkts s1 < burst) then u32 (pos s + 1) else pos s) ∧
      ∀ accept b s', tx_burst burst accept s = Ret b s' → pos s' = pos s1
  end.
Proof.
  intros Hb Hok Hn Hts.
  pose proof (tx_burst_poll_post burst s Hb Hok Hn) as Hpost.
  destruct (tx_burst_poll burst s) as [r s1| |] eqn:Hpoll; [|done|done].
  destruct Hpost as (_&_&_&_&_&_&_&_&Hnp&_&_&Hpos&_).
  split; [done|]. split.
  - rewrite Hpos. destruct (decide (0 < n_pkts s1 < burst)) as [Hin|Hout].
    + rewrite decide_True; [done|]. split; [lia|left; lia].
    + rewrite decide_False; [done|]. intros [? [?|?]]; [lia|done].
  - intros accept b s'. unfold tx_burst. rewrite Hpoll. cbn [obind].
    destruct r as [[pulled pt]|].
    + apply tx_burst_poll_pos_transmit.
    + by intros [= _ <-].
Qed.

Lemma tx_burst_pos_advance_witness :
  match tx_burst_poll 4 bp3_iok with
  | Undef => False
  | Bug _ => True
  | Ret r s1 =>
      n_pkts s1 = n_pkts bp3_iok + npulled r ∧
      pos s1 = (if decide (0 < n_pkts s1 < 4) then u32 (pos bp3_iok + 1)
                else pos bp3_iok) ∧
      ∀ accept b s', tx_burst 4 accept bp3_iok = Ret b s' → pos s' = pos s1
  end.
Proof.
  apply (tx_burst_pos_advance 4 bp3_iok).
  - lia.
  - apply poll_ok_bp_state.
  - simpl. lia.
  - discriminate.
Defined.

Lemma poll_ok_transfer s1 s' :
  ts s' = ts s1 → threads s' = threads s1 →
  length (procs s') = length (procs s1) → poll_ok s1 → poll_ok s'.
Proof.
  intros Hts Hthr Hlen Hok. unfold poll_ok in *. rewrite Hts, Hthr.
  eapply Forall_impl; [exact Hok|]. intros t (T & HT & HP). simpl in *.
  exists T. split; [done|].
  apply lookup_lt_is_Some. apply lookup_lt_is_Some in HP. lia.
Qed.

(** What one call of [tx_burst] that returns does to the carry-over state:
    either the driver was not called and the carry-over array is as it was,
    or the driver was offered the carried-over buffers first. *)
Lemma tx_burst_carry burst accept s b s' :
  burst * 50 < 2 ^ 16 → 0 < burst →
  poll_ok s → 0 ≤ n_pkts s < 2 ^ 31 → 0 ≤ n_bufs s →
  tx_burst burst accept s = Ret b s' →
  poll_ok s' ∧
  ((nic_log s' = nic_log s ∧ bufs s' = bufs s ∧ n_bufs s' = n_bufs s)
   ∨ ∃ offered ret,
       nic_log s' = nic_log s ++ [(offered, ret)] ∧
       n_bufs s ≤ Z.of_nat (length offered) ≤ burst * 50 ∧
       take (Z.to_nat (n_bufs s)) offered = take (Z.to_nat (n_bufs s)) (bufs s) ∧
       ret = Z.max 0 (Z.min accept (Z.of_nat (length offered))) ∧
       n_pkts s' = Z.of_nat (length offered) - ret ∧
       n_bufs s' = n_pkts s' ∧
       take (Z.to_nat (n_pkts s')) (bufs s') = drop (Z.to_nat ret) offered).
Proof.
  intros Hb Hb0 Hok Hn Hnb. unfold tx_burst.
  assert (Hb31 : 0 < burst < 2 ^ 31).
  { change (2 ^ 16) with 65536 in Hb. change (2 ^ 31) with 2147483648. lia. }
  pose proof (tx_burst_poll_post burst s Hb31 Hok Hn) as Hpost.
  destruct (tx_burst_poll burst s) as [r s1| |]; [|done|done].
  destruct Hpost as (Hnb1&Hbufs1&Hlog1&_&_&_&_&_&_&_&_&_&Hok1).
  cbn [obind]. destruct r as [[pulled pt]|].
  - intros Hrun.
    pose proof (tx_burst_transmit_post burst accept (n_pkts s) pulled pt s1 Hb) as Ht.
    rewrite Hrun in Ht. destruct Ht as (_&_&_&Hts&Hthr&Hpr&Hcases); [lia|].
    split; [by eapply poll_ok_transfer|].
    rewrite Hnb1, Hbufs1, Hlog1 in Hcases. done.
  - intros [= _ <-]. split; [done|]. left. done.
Qed.




(** ** Shared memory: loads and stores *)

Lemma u32_nonneg z : 0 ≤ u32 z.
Proof. unfold u32. pose proof (Z.mod_pos_bound z (2 ^ 32)). lia. Qed.

Lemma u32_small z : 0 ≤ z < 2 ^ 32 → u32 z = z.
Proof. intros. unfold u32. by apply Z.mod_small. Qed.

Lemma u16_small z : 0 ≤ z < 2 ^ 16 → u16 z = z.
Proof. intros. unfold u16. by apply Z.mod_small. Qed.

Lemma store8_out m a v x : x ≠ a → store8 m a v x = m x.
Proof. intros Hx. unfold store8. destruct (Z.eqb_spec x a); [done|reflexivity]. Qed.

Lemma store16_out m a v x : x < a ∨ a + 2 ≤ x → store16 m a v x = m x.
Proof. intros Hx. unfold store16. rewrite !store8_out by lia. reflexivity. Qed.

Lemma store32_out m a v x : x < a ∨ a + 4 ≤ x → store32 m a v x = m x.
Proof. intros Hx. unfold store32. rewrite !store16_out by lia. reflexivity. Qed.

Lemma store64_out m a v x : x < a ∨ a + 8 ≤ x → store64 m a v x = m x.
Proof. intros Hx. unfold store64. rewrite !store32_out by lia. reflexivity. Qed.

Lemma memmove_out m dst src n x : x < dst ∨ dst + n ≤ x → memmove m dst src n x = m x.
Proof.
  intros Hx. unfold memmove.
  destruct (Z.leb_spec dst x), (Z.ltb_spec x (dst + n)); simpl; try reflexivity. lia.
Qed.

Lemma memmove_in m dst src n i :
  0 ≤ i < n → memmove m dst src n (dst + i) = m (src + i).
Proof.
  intros Hi. unfold memmove.
  destruct (Z.leb_spec dst (dst + i)), (Z.ltb_spec (dst + i) (dst + n)); simpl; try lia.
  f_equal. lia.
Qed.

(** Loads only depend on the bytes they read. *)
Lemma load16_ext m1 m2 a b :
  (∀ i, 0 ≤ i < 2 → m1 (a + i) = m2 (b + i)) → load16 m1 a = load16 m2 b.
Proof.
  intros H. unfold load16, load8.
  pose proof (H 0 ltac:(lia)) as H0. rewrite !Z.add_0_r in H0.
  rewrite H0, (H 1) by lia. reflexivity.
Qed.

Lemma load32_ext m1 m2 a b :
  (∀ i, 0 ≤ i < 4 → m1 (a + i) = m2 (b + i)) → load32 m1 a = load32 m2 b.
Proof.
  intros H. unfold load32. f_equal; [|f_equal]; apply load16_ext; intros i Hi.
  - apply H. lia.
  - rewrite <- !Z.add_assoc. apply H. lia.
Qed.

Lemma load64_ext m1 m2 a b :
  (∀ i, 0 ≤ i < 8 → m1 (a + i) = m2 (b + i)) → load64 m1 a = load64 m2 b.
Proof.
  intros H. unfold load64. f_equal; [|f_equal]; apply load32_ext; intros i Hi.
  - apply H. lia.
  - rewrite <- !Z.add_assoc. apply H. lia.
Qed.

Lemma load16_store16 m a v : load16 (store16 m a v) a = v mod 2 ^ 16.
Proof.
  unfold load16, load8, store16, store8.
  repeat match goal with
         | |- context [?x =? ?y] => destruct (Z.eqb_spec x y); try lia
         end.
  change (2 ^ 8) with 256. change (2 ^ 16) with 65536.
  Z.div_mod_to_equations. lia.
Qed.

Lemma load32_store32 m a v : load32 (store32 m a v) a = v mod 2 ^ 32.
Proof.
  unfold load32, store32.
  rewrite (load16_ext _ (store16 m a v) a a).
  2:{ intros i Hi. apply store16_out. lia. }
  rewrite !load16_store16.
  change (2 ^ 16) with 65536. change (2 ^ 32) with 4294967296.
  Z.div_mod_to_equations. lia.
Qed.

Lemma load64_store64 m a v : load64 (store64 m a v) a = v mod 2 ^ 64.
Proof.
  unfold load64, store64.
  rewrite (load32_ext _ (store32 m a v) a a).
  2:{ intros i Hi. apply store32_out. lia. }
  rewrite !load32_store32.
  change (2 ^ 32) with 4294967296. change (2 ^ 64) with 18446744073709551616.
  Z.div_mod_to_equations. lia.
Qed.

Lemma bswap16_involutive x : 0 ≤ x < 2 ^ 16 → bswap16 (bswap16 x mod 2 ^ 16) = x.
Proof.
  intros Hx. unfold bswap16.
  change (2 ^ 8) with 256 in *. change (2 ^ 16) with 65536 in *.
  Z.div_mod_to_equations. lia.
Qed.

Lemma u16_range z : 0 ≤ u16 z < 2 ^ 16.
Proof. unfold u16. apply Z.mod_pos_bound. lia. Qed.

(** ** The segmenter *)

Lemma seg_ptrs_length h n : length (seg_ptrs h n) = n.
Proof. revert h. induction n as [|n IH]; intros h; simpl; [done|]. by rewrite IH. Qed.

Lemma seg_ptrs_snoc n : ∀ h,
  seg_ptrs h (S n) = seg_ptrs h n ++ [h + 1518 * Z.of_nat n].
Proof.
  induction n as [|n IH]; intros h.
  - simpl. f_equal. lia.
  - change (seg_ptrs h (S (S n))) with (h :: seg_ptrs (h + 1518) (S n)).
    rewrite IH. simpl. do 3 f_equal. lia.
Qed.

Lemma seg_ptrs_map {A} (f : Z → A) (c : A) n : ∀ h,
  (∀ j, 0 ≤ j < Z.of_nat n → f (h + 1518 * j) = c) →
  f <$> seg_ptrs h n = replicate n c.
Proof.
  induction n as [|n IH]; intros h Hf; simpl; [done|].
  f_equal.
  - rewrite <- (Hf 0) by lia. f_equal. lia.
  - apply IH. intros j Hj. rewrite <- (Hf (j + 1)) by lia. f_equal. lia.
Qed.

Lemma seg_ptrs_Forall (Q : Z → Prop) n : ∀ h,
  (∀ j, 0 ≤ j < Z.of_nat n → Q (h + 1518 * j)) → Forall Q (seg_ptrs h n).
Proof.
  induction n as [|n IH]; intros h HQ; simpl; constructor.
  - replace h with (h + 1518 * 0) by lia. apply HQ. lia.
  - apply IH. intros j Hj. replace (h + 1518 + 1518 * j) with (h + 1518 * (j + 1)) by lia.
    apply HQ. lia.
Qed.

Lemma hdr_fields_ext m1 m2 h1 h2 len tok udp ip :
  (∀ i, 0 ≤ i < 60 → m2 (h2 + i) = m1 (h1 + i)) →
  hdr_fields m1 h1 len tok udp ip → hdr_fields m2 h2 len tok udp ip.
Proof.
  intros H (Hl & Ht & Hu & Hi).
  unfold hdr_fields, hdr_len, hdr_completion_data, udp_len_field, ip_len_field,
    hdr_payload, off_len, off_completion_data, sizeof_tx_net_hdr in *.
  rewrite <- Hl, <- Ht, <- Hu, <- Hi.
  repeat split.
  - apply load32_ext. intros i ?. rewrite <- !Z.add_assoc. apply H. lia.
  - apply load64_ext. intros i ?. rewrite <- !Z.add_assoc. apply H. lia.
  - f_equal. apply load16_ext. intros i ?. rewrite <- !Z.add_assoc. apply H. lia.
  - f_equal. apply load16_ext. intros i ?. rewrite <- !Z.add_assoc. apply H. lia.
Qed.

Lemma gso_update_len_fields_out m shdr x :
  x < shdr + 34 ∨ shdr + 36 ≤ x < shdr + 56 ∨ shdr + 58 ≤ x →
  gso_update_len_fields m shdr x = m x.
Proof.
  intros Hx. unfold gso_update_len_fields, hdr_payload, sizeof_tx_net_hdr.
  rewrite !store16_out by lia. reflexivity.
Qed.

(** After the [len] field of the header block at [shdr] is set to [L], the
    update of the length fields leaves [len] and the token alone and writes
    [L - 34] and [L - 14], truncated to 16 bits, in network order. *)
Lemma gso_update_len_fields_spec m shdr L tok :
  hdr_len m shdr = L → hdr_completion_data m shdr = tok →
  hdr_fields (gso_update_len_fields m shdr) shdr L tok
    (u16 (u32 (L - 34))) (u16 (u32 (L - 14))).
Proof.
  intros HL Htok.
  assert (HL' : hdr_len (gso_update_len_fields m shdr) shdr = L).
  { rewrite <- HL. unfold hdr_len, off_len. apply load32_ext. intros i Hi.
    apply gso_update_len_fields_out. lia. }
  assert (Htok' : hdr_completion_data (gso_update_len_fields m shdr) shdr = tok).
  { rewrite <- Htok. unfold hdr_completion_data, off_completion_data.
    apply load64_ext. intros i Hi. apply gso_update_len_fields_out. lia. }
  split; [done|]. split; [done|].
  unfold udp_len_field, ip_len_field, gso_update_len_fields.
  set (m1 := store16 m (hdr_payload shdr + 38) (hton16 (u16 (u32 (hdr_len m shdr - 34))))).
  assert (HL1 : hdr_len m1 shdr = L).
  { rewrite <- HL. unfold hdr_len, off_len. apply load32_ext. intros i Hi.
    unfold m1, hdr_payload, sizeof_tx_net_hdr. apply store16_out. lia. }
  rewrite HL1. split.
  - rewrite (load16_ext _ m1 _ (hdr_payload shdr + 38)).
    2:{ intros i Hi. apply store16_out. lia. }
    unfold m1. rewrite load16_store16, HL. unfold ntoh16, hton16.
    apply bswap16_involutive, u16_range.
  - rewrite load16_store16. unfold ntoh16, hton16.
    apply bswap16_involutive, u16_range.
Qed.

(** The payload moves: chunk [c] of the payload, at [h + 60 + 1458 * c],
    ends up at [h + 60 + 1518 * c], and nothing else is written.  The loop is
    entered at round [j] with [k] rounds to go. *)
Lemma gso_move_payload_spec h segs len :
  1458 * (segs - 1) < 2 ^ 32 →
  let r := u32 (len - u32 (1458 * u32 (segs - 1))) in
  ∀ k j m,
  1 ≤ j → j + Z.of_nat k = segs →
  let res := gso_move_payload k j segs len (h + 60 + 1458 * (segs - j)) m in
  res.1 = h + 60 ∧
  (∀ c i, 1 ≤ c ≤ segs - j → 0 ≤ i < gso_chunk_size segs r c →
          res.2 (h + 60 + 1518 * c + i) = m (h + 60 + 1458 * c + i)) ∧
  (∀ x, (∀ c, 1 ≤ c ≤ segs - j →
              ¬ (h + 60 + 1518 * c ≤ x < h + 60 + 1518 * c + gso_chunk_size segs r c)) →
        res.2 x = m x).
Proof.
  intros Hwrap r. change (2 ^ 32) with 4294967296 in Hwrap.
  induction k as [|k IH]; intros j m Hj Hjk.
  - cbv zeta. simpl. split; [lia|]. split; [intros; lia|done].
  - cbn [gso_move_payload]. cbv zeta.
    set (c0 := segs - j).
    assert (Hc0 : 1 ≤ c0 ≤ segs - 1) by (unfold c0; lia).
    assert (Hdst : h + 60 + 1458 * c0 + u32 (u32 c0 * 60) = h + 60 + 1518 * c0).
    { rewrite (u32_small c0) by (change (2 ^ 32) with 4294967296; lia).
      rewrite u32_small by (change (2 ^ 32) with 4294967296; lia). lia. }
    rewrite Hdst.
    assert (Hn : (if j =? 1 then u32 (len - u32 (1458 * u32 (segs - 1))) else 1458)
                 = gso_chunk_size segs r c0).
    { unfold gso_chunk_size, c0, r.
      destruct (Z.eqb_spec j 1), (Z.eqb_spec (segs - j) (segs - 1)); try lia; done. }
    rewrite Hn.
    set (m1 := memmove m (h + 60 + 1518 * c0) (h + 60 + 1458 * c0)
                 (gso_chunk_size segs r c0)).
    replace (h + 60 + 1458 * c0 - 1458) with (h + 60 + 1458 * (segs - (j + 1)))
      by (unfold c0; lia).
    destruct (IH (j + 1) m1) as (Hcur & Hcont & Hframe); [lia|lia|].
    assert (Hsz : ∀ c, 1 ≤ c ≤ segs - (j + 1) → gso_chunk_size segs r c = 1458).
    { intros c Hc. unfold gso_chunk_size. destruct (Z.eqb_spec c (segs - 1)); [lia|done]. }
    split; [done|]. split.
    + intros c i Hc Hi. destruct (decide (c = c0)) as [->|Hne].
      * rewrite Hframe.
        -- unfold m1. by apply memmove_in.
        -- intros c Hc'. rewrite (Hsz c Hc'). lia.
      * rewrite Hcont by (unfold c0 in *; lia).
        unfold m1. apply memmove_out. rewrite (Hsz c) in Hi by (unfold c0 in *; lia).
        lia.
    + intros x Hx. rewrite Hframe.
      * unfold m1. apply memmove_out. specialize (Hx c0 ltac:(unfold c0; lia)). lia.
      * intros c Hc. apply Hx. lia.
Qed.

Lemma gso_copy_header_step_out m curr x :
  x < curr ∨ curr + 60 ≤ x < curr + 1518 ∨ curr + 1518 + 60 ≤ x →
  gso_copy_header_step m curr x = m x.
Proof.
  intros Hx. unfold gso_copy_header_step, off_len, off_completion_data, memcpy.
  rewrite gso_update_len_fields_out by lia.
  rewrite store64_out, store32_out, memmove_out by lia. reflexivity.
Qed.

Lemma gso_copy_header_step_template m curr i :
  0 ≤ i < 60 → gso_copy_header_step m curr (curr + 1518 + i) = m (curr + i).
Proof.
  intros Hi. unfold gso_copy_header_step, off_len, off_completion_data, memcpy.
  rewrite gso_update_len_fields_out by lia.
  rewrite store64_out, store32_out by lia. by apply memmove_in.
Qed.

Lemma gso_copy_header_step_fields m curr :
  hdr_fields (gso_copy_header_step m curr) curr 1500 0 1466 1486.
Proof.
  unfold gso_copy_header_step.
  set (m1 := memcpy m (curr + 1518) curr 60).
  set (m2 := store32 m1 (curr + off_len) MTU_SIZE).
  set (m3 := store64 m2 (curr + off_completion_data) 0).
  assert (Htok : hdr_completion_data m3 curr = 0).
  { unfold hdr_completion_data, m3. by rewrite load64_store64. }
  assert (Hlen : hdr_len m3 curr = 1500).
  { unfold hdr_len, m3. rewrite (load32_ext _ m2 _ (curr + off_len)).
    - unfold m2. by rewrite load32_store32.
    - intros i Hi. apply store64_out. unfold off_len, off_completion_data. lia. }
  exact (gso_update_len_fields_spec m3 curr 1500 0 Hlen Htok).
Qed.

Lemma gso_copy_headers_spec : ∀ k curr m out curr' m' out',
  gso_copy_headers k curr m out = (curr', m', out') →
  curr' = curr + 1518 * Z.of_nat k ∧
  out' = out ++ seg_ptrs curr k ∧
  (∀ x, (∀ j, 0 ≤ j ≤ Z.of_nat k → ¬ (curr + 1518 * j ≤ x < curr + 1518 * j + 60)) →
        m' x = m x) ∧
  (∀ i, 0 ≤ i < 60 → m' (curr + 1518 * Z.of_nat k + i) = m (curr + i)) ∧
  (∀ j, 0 ≤ j < Z.of_nat k →
        hdr_fields m' (curr + 1518 * j) 1500 0 1466 1486).
Proof.
  induction k as [|k IH]; intros curr m out curr' m' out' Hrun.
  - simpl in Hrun. injection Hrun as <- <- <-.
    split; [lia|]. split; [by rewrite app_nil_r|]. split; [done|].
    split; [|intros; lia]. intros i Hi. f_equal. lia.
  - cbn [gso_copy_headers] in Hrun.
    apply (IH (curr + 1518) (gso_copy_header_step m curr) (out ++ [curr])) in Hrun.
    destruct Hrun as (Hc & Hout & Hframe & Htpl & Hfld).
    split; [lia|]. split; [by rewrite Hout, <- app_assoc|].
    split; [|split].
    + intros x Hx. rewrite Hframe.
      * apply gso_copy_header_step_out.
        pose proof (Hx 0 ltac:(lia)). pose proof (Hx 1 ltac:(lia)). lia.
      * intros j Hj. specialize (Hx (j + 1) ltac:(lia)). lia.
    + intros i Hi.
      replace (curr + 1518 * Z.of_nat (S k) + i)
        with (curr + 1518 + 1518 * Z.of_nat k + i) by lia.
      rewrite Htpl by done. by apply gso_copy_header_step_template.
    + intros j Hj. destruct (decide (j = 0)) as [->|Hne].
      * eapply hdr_fields_ext; [|apply (gso_copy_header_step_fields m curr)].
        intros i Hi. rewrite Z.mul_0_r, Z.add_0_r. apply Hframe.
        intros j Hj'. lia.
      * replace (curr + 1518 * j) with (curr + 1518 + 1518 * (j - 1)) by lia.
        apply Hfld. lia.
Qed.

Lemma gso_payload_len_udp m h : gso_payload_len m h = u32 (udp_len_field m h - 8).
Proof.
  unfold gso_payload_len, udp_len_field, UDP_OFFSET, off_udp_len, sizeof_udp_hdr.
  do 3 f_equal. f_equal. lia.
Qed.

Lemma gso_payload_len_range m h : 0 ≤ gso_payload_len m h < 2 ^ 32.
Proof. unfold gso_payload_len, u32. apply Z.mod_pos_bound. lia. Qed.

Lemma hdr_len_range m h : 0 ≤ hdr_len m h < 2 ^ 32.
Proof.
  unfold hdr_len, load32, load16, load8.
  pose proof (Z.mod_pos_bound (m (h + off_len)) 256).
  pose proof (Z.mod_pos_bound (m (h + off_len + 1)) 256).
  pose proof (Z.mod_pos_bound (m (h + off_len + 2)) 256).
  pose proof (Z.mod_pos_bound (m (h + off_len + 2 + 1)) 256).
  change (2 ^ 8) with 256. change (2 ^ 16) with 65536.
  change (2 ^ 32) with 4294967296. lia.
Qed.

(** A descriptor whose payload fills all segments but the last fits in the
    bytes it declares: [segs] header blocks of 60 bytes and the payload take
    no more than the header block and the frame of [hdr->len] bytes. *)
Lemma gso_fill_in_frame m h :
  1 ≤ gso_segs m h →
  1458 * (gso_segs m h - 1) ≤ gso_payload_len m h →
  60 * gso_segs m h + gso_payload_len m h ≤ sizeof_tx_net_hdr + hdr_len m h.
Proof.
  pose proof (hdr_len_range m h) as HH.
  pose proof (gso_payload_len_range m h) as HL.
  unfold gso_segs, u32, u64, sizeof_tx_net_hdr.
  set (H := hdr_len m h) in *. set (L := gso_payload_len m h) in *.
  change (2 ^ 32) with 4294967296 in *. change (2 ^ 64) with 18446744073709551616.
  intros H1 H2. Z.div_mod_to_equations. lia.
Qed.

Lemma gso_residual_fill m h :
  1 ≤ gso_segs m h →
  1458 * (gso_segs m h - 1) ≤ gso_payload_len m h →
  gso_residual m h = gso_payload_len m h - 1458 * (gso_segs m h - 1).
Proof.
  intros Hsegs Hfill. pose proof (gso_payload_len_range m h).
  unfold gso_residual. apply u32_small. lia.
Qed.

(** The segmentation of an oversized descriptor whose segment count is at
    least one and whose payload fills all segments but the last: the
    segments, their fields, what is written, and where the payload chunks end
    up. *)
Lemma tx_burst_segment_gso m h :
  MTU_SIZE < hdr_len m h →
  1 ≤ gso_segs m h →
  1458 * (gso_segs m h - 1) ≤ gso_payload_len m h →
  ∃ m', tx_burst_segment m h = Some (m', seg_ptrs h (Z.to_nat (gso_segs m h))) ∧
    (∀ j, 0 ≤ j < gso_segs m h - 1 →
          hdr_fields m' (h + 1518 * j) 1500 0 1466 1486) ∧
    (let Llast := u32 (gso_residual m h + 42) in
     hdr_fields m' (h + 1518 * (gso_segs m h - 1)) Llast (hdr_completion_data m h)
       (u16 (u32 (Llast - 34))) (u16 (u32 (Llast - 14)))) ∧
    (∀ x, x < h ∨ h + 1518 * (gso_segs m h - 1) + 60 + gso_residual m h ≤ x →
          m' x = m x) ∧
    (∀ c i, 0 ≤ c < gso_segs m h →
            0 ≤ i < gso_chunk_size (gso_segs m h) (gso_residual m h) c →
            m' (h + 1518 * c + 60 + i) = m (h + 60 + 1458 * c + i)).
Proof.
  intros Hbig Hsegs Hfill.
  assert (Hwrap : 1458 * (gso_segs m h - 1) < 2 ^ 32).
  { pose proof (gso_payload_len_range m h). lia. }
  unfold tx_burst_segment, gso_residual.
  destruct (Z.leb_spec (hdr_len m h) MTU_SIZE) as [?|_]; [lia|].
  fold (gso_payload_len m h). fold (gso_segs m h).
  set (plen := gso_payload_len m h) in *. set (segs := gso_segs m h) in *.
  cbv zeta.
  destruct (Z.eqb_spec segs 0) as [?|_]; [lia|].
  destruct (Z.ltb_spec plen (1458 * (segs - 1))) as [?|_]; [lia|].
  pose proof (gso_move_payload_spec h segs plen Hwrap) as Hmove.
  cbv zeta in Hmove.
  assert (Hs1 : u32 (segs - 1) = segs - 1) by (apply u32_small; lia).
  rewrite Hs1 in *.
  assert (Hs2 : u32 (1458 * (segs - 1)) = 1458 * (segs - 1)) by (apply u32_small; lia).
  rewrite Hs2 in *.
  set (r := u32 (plen - 1458 * (segs - 1))) in *.
  assert (Hr : 0 ≤ r) by apply u32_nonneg.
  set (k := Z.to_nat (segs - 1)).
  assert (Hk : Z.of_nat k = segs - 1) by (unfold k; lia).
  specialize (Hmove k 1 m ltac:(lia) ltac:(lia)).
  replace (hdr_payload h + 42 + 1458 * (segs - 1)) with (h + 60 + 1458 * (segs - 1))
    by (unfold hdr_payload, sizeof_tx_net_hdr; lia).
  destruct (gso_move_payload k 1 segs plen _ m) as [curr1 m1].
  simpl in Hmove. destruct Hmove as (Hc1 & Hcont & Hmframe).
  destruct (gso_copy_headers k (curr1 - 60) m1 []) as [[curr2 m2] out] eqn:Hcopy.
  apply gso_copy_headers_spec in Hcopy as (Hc2 & Hout & Hcframe & Htpl & Hfld).
  assert (Hcurr1 : curr1 - 60 = h) by lia.
  rewrite Hcurr1 in *. clear Hcurr1. rewrite Hk in *.
  assert (Hlast : curr2 = h + 1518 * (segs - 1)) by lia.
  eexists. split.
  { do 2 f_equal. rewrite Hout. simpl.
    replace (Z.to_nat segs) with (S k) by lia.
    rewrite seg_ptrs_snoc. do 3 f_equal. lia. }
  set (Llast := u32 (r + 42)).
  set (m3 := store32 m2 (curr2 + off_len) Llast).
  assert (Hm3 : ∀ x, x < curr2 ∨ curr2 + 60 ≤ x →
                     gso_update_len_fields m3 curr2 x = m2 x).
  { intros x Hx. rewrite gso_update_len_fields_out by lia.
    apply store32_out. unfold off_len. lia. }
  assert (Hsz : ∀ c, 1 ≤ c ≤ segs - 1 → gso_chunk_size segs r c ≤ 1458 ∨ c = segs - 1).
  { intros c Hc. unfold gso_chunk_size. destruct (Z.eqb_spec c (segs - 1)); [by right|left; lia]. }
  assert (Hszl : gso_chunk_size segs r (segs - 1) = r).
  { unfold gso_chunk_size. by rewrite Z.eqb_refl. }
  assert (Hszo : ∀ c, c ≠ segs - 1 → gso_chunk_size segs r c = 1458).
  { intros c Hc. unfold gso_chunk_size. destruct (Z.eqb_spec c (segs - 1)); done. }
  assert (Hhdr_m : ∀ i, 0 ≤ i < 60 → m1 (h + i) = m (h + i)).
  { intros i Hi. apply Hmframe. intros c Hc. lia. }
  split; [|split; [|split]].
  - intros j Hj. eapply hdr_fields_ext; [|apply (Hfld j); lia].
    intros i Hi. apply Hm3. lia.
  - rewrite <- Hlast.
    apply gso_update_len_fields_spec.
    + unfold hdr_len, m3. rewrite load32_store32. unfold Llast, u32.
      apply Z.mod_mod. lia.
    + unfold hdr_completion_data, m3, off_completion_data, off_len.
      rewrite (load64_ext _ m (curr2 + 0) (h + 0)); [done|].
      intros i Hi. rewrite store32_out by lia.
      rewrite Hlast. rewrite !Z.add_0_r.
      rewrite Htpl by lia. apply Hhdr_m. lia.
  - intros x Hx. rewrite Hm3 by lia. rewrite Hcframe by (intros j Hj; lia).
    apply Hmframe. intros c Hc.
    destruct (decide (c = segs - 1)) as [->|Hne].
    + rewrite Hszl. lia.
    + rewrite (Hszo c Hne). lia.
  - intros c i Hc Hi.
    assert (Hi' : c = segs - 1 ∨ (c < segs - 1 ∧ i < 1458)).
    { destruct (decide (c = segs - 1)); [by left|right].
      rewrite Hszo in Hi by done. lia. }
    rewrite Hm3 by lia.
    rewrite Hcframe by (intros j Hj; lia).
    destruct (decide (c = 0)) as [->|Hc0].
    + replace (h + 1518 * 0 + 60 + i) with (h + 60 + 1458 * 0 + i) by lia.
      apply Hmframe. intros c Hc'. lia.
    + replace (h + 1518 * c + 60 + i) with (h + 60 + 1518 * c + i) by lia.
      apply Hcont; [lia|done].
Qed.

(** *** Segments of one descriptor *)

Lemma nonzero_count_segments n tok :
  nonzero_count (replicate n 0 ++ [tok]) = if decide (tok = 0) then 0%nat else 1%nat.
Proof.
  unfold nonzero_count. induction n as [|n IH]; simpl.
  - rewrite filter_cons. destruct (decide (tok ≠ 0)), (decide (tok = 0)); done.
  - rewrite filter_cons. destruct (decide (0 ≠ 0)); [done|]. exact IH.
Qed.

Lemma gso_segs_range m h : 0 ≤ gso_segs m h.
Proof. apply u32_nonneg. Qed.

(** C3 as stated fails: for the descriptor of the claim, total length
    42 + 4000 with a UDP length field of 4008, the code computes
    (4042 + 18 - 4000) / 60 = 1 segment and emits one segment of 4042 bytes,
    not three. *)
Lemma tx_burst_segment_claimed_example :
  hdr_len claim_shm 1000 = 42 + 4000 ∧
  udp_len_field claim_shm 1000 = 4000 + 8 ∧
  segment_view claim_shm 1000 = Some ([1000], [4042], [170], [4008], [4028]).
Proof. vm_compute. repeat split; reflexivity. Qed.

Lemma tx_burst_segment_reserved_example :
  segment_view gso_shm 1000
  = Some ([1000; 2518; 4036], [1500; 1500; 1126], [0; 0; 170],
          [1466; 1466; 1092], [1486; 1486; 1112]).
Proof. vm_compute. reflexivity. Qed.

(** C3 (amended): for every oversized UDP descriptor with header size
    H = 42 and UDP payload length [plen] recovered from the UDP length
    field, whose total length reserves one 60-byte header block per segment,
    [len = plen + 60 * segs - 18] with [segs = ceil (plen / 1458)], the
    segmenter emits exactly [segs] segments; each of the first [segs - 1]
    has the transmit-descriptor length MTU (1500) and the last has length
    [42 + (plen - (segs - 1) * 1458)]; in every emitted segment the IP
    total-length field is the segment length - 14 and the UDP length field
    is the segment length - 34. *)
Theorem tx_burst_segment_udp m h plen :
  udp_len_field m h = plen + 8 →
  0 < plen → plen + 8 < 2 ^ 16 →
  hdr_len m h = plen + 60 * ((plen + 1457) / 1458) - 18 →
  MTU_SIZE < hdr_len m h →
  let segs := (plen + 1457) / 1458 in
  ∃ m' out,
    tx_burst_segment m h = Some (m', out) ∧
    out = seg_ptrs h (Z.to_nat segs) ∧
    Z.of_nat (length out) = segs ∧
    hdr_len m' <$> out
      = replicate (Z.to_nat (segs - 1)) MTU_SIZE ++ [42 + (plen - (segs - 1) * 1458)] ∧
    Forall (fun p => ip_len_field m' p = hdr_len m' p - 14 ∧
                     udp_len_field m' p = hdr_len m' p - 34) out.
Proof.
  intros Hudp Hpos Hmax Hlen Hbig segs. fold segs in Hlen.
  change (2 ^ 16) with 65536 in Hmax.
  assert (Hsegs : 1458 * (segs - 1) < plen ≤ 1458 * segs).
  { unfold segs. Z.div_mod_to_equations. lia. }
  assert (Hpl : gso_payload_len m h = plen).
  { rewrite gso_payload_len_udp, Hudp.
    replace (plen + 8 - 8) with plen by lia. apply u32_small.
    change (2 ^ 32) with 4294967296. lia. }
  assert (Hgs : gso_segs m h = segs).
  { unfold gso_segs. rewrite Hpl, Hlen. unfold sizeof_tx_net_hdr.
    replace (plen + 60 * segs - 18 + 18 - plen) with (segs * 60) by lia.
    unfold u64. rewrite Z.mod_small.
    - rewrite Z.div_mul by lia. apply u32_small.
      change (2 ^ 32) with 4294967296. lia.
    - change (2 ^ 64) with 18446744073709551616. lia. }
  destruct (tx_burst_segment_gso m h Hbig) as (m' & Hrun & Hfirst & Hlast & _).
  { rewrite Hgs. lia. }
  { rewrite Hgs. change (2 ^ 32) with 4294967296. lia. }
  unfold gso_residual in Hlast.
  rewrite Hgs, Hpl in *. cbv zeta in Hlast.
  assert (HL : u32 (u32 (plen - 1458 * (segs - 1)) + 42)
               = 42 + (plen - (segs - 1) * 1458)).
  { rewrite (u32_small (plen - _)) by (change (2 ^ 32) with 4294967296; lia).
    rewrite u32_small by (change (2 ^ 32) with 4294967296; lia). lia. }
  rewrite HL in Hlast.
  set (Llast := 42 + (plen - (segs - 1) * 1458)) in *.
  exists m', (seg_ptrs h (Z.to_nat segs)).
  split; [done|]. split; [done|]. split; [rewrite seg_ptrs_length; lia|].
  replace (Z.to_nat segs) with (S (Z.to_nat (segs - 1))) by lia.
  rewrite seg_ptrs_snoc. split.
  - rewrite fmap_app. f_equal.
    + apply seg_ptrs_map. intros j Hj. apply (Hfirst j). lia.
    + simpl. f_equal. replace (Z.of_nat (Z.to_nat (segs - 1))) with (segs - 1) by lia.
      apply Hlast.
  - apply Forall_app. split.
    + apply seg_ptrs_Forall. intros j Hj.
      destruct (Hfirst j) as (Hl & _ & Hu & Hi); [lia|].
      rewrite Hl, Hu, Hi. done.
    + constructor; [|constructor].
      replace (Z.of_nat (Z.to_nat (segs - 1))) with (segs - 1) by lia.
      destruct Hlast as (Hl & _ & Hu & Hi). rewrite Hl, Hu, Hi.
      rewrite !u32_small by (change (2 ^ 32) with 4294967296; unfold Llast; lia).
      rewrite !u16_small by (change (2 ^ 16) with 65536; unfold Llast; lia).
      done.
Qed.

Lemma tx_burst_segment_udp_witness :
  udp_len_field gso_shm 1000 = 4000 + 8 ∧
  hdr_len gso_shm 1000 = 4000 + 60 * ((4000 + 1457) / 1458) - 18 ∧
  ∃ m' out,
    tx_burst_segment gso_shm 1000 = Some (m', out) ∧
    out = seg_ptrs 1000 (Z.to_nat ((4000 + 1457) / 1458)) ∧
    Z.of_nat (length out) = (4000 + 1457) / 1458 ∧
    hdr_len m' <$> out
      = replicate (Z.to_nat ((4000 + 1457) / 1458 - 1)) MTU_SIZE
        ++ [42 + (4000 - ((4000 + 1457) / 1458 - 1) * 1458)] ∧
    Forall (fun p => ip_len_field m' p = hdr_len m' p - 14 ∧
                     udp_len_field m' p = hdr_len m' p - 34) out.
Proof.
  assert (H1 : udp_len_field gso_shm 1000 = 4000 + 8) by (vm_compute; reflexivity).
  assert (H2 : hdr_len gso_shm 1000 = 4000 + 60 * ((4000 + 1457) / 1458) - 18)
    by (vm_compute; reflexivity).
  split; [exact H1|]. split; [exact H2|].
  apply (tx_burst_segment_udp gso_shm 1000 4000 H1).
  - lia.
  - vm_compute. reflexivity.
  - exact H2.
  - vm_compute. reflexivity.
Defined.

(** C4 as stated fails for a descriptor whose own token is zero: it is
    emitted unchanged with the token zero, its buffer carries the token
    zero, and the release of that buffer enqueues nothing: the descriptor
    gets no completion, not one. *)
Lemma tx_burst_zero_token_no_completion :
  hdr_len (shm zero_tok_iok) 1000 = 100 ∧
  hdr_completion_data (shm zero_tok_iok) 1000 = 0 ∧
  match tx_burst 4 4 zero_tok_iok with
  | Ret _ s' =>
      nic_log s' = [([0%nat], 1)] ∧
      match mbufs s' !! 0%nat with
      | Some B =>
          completion_data (tx_pktmbuf_get_priv B) = 0 ∧
          match tx_send_completion B s' with
          | Some (r, s'') =>
              r = true ∧ rx_log s'' = [] ∧ rxq <$> threads s'' = [[]] ∧
              overflow_of <$> procs s'' = [[]]
          | None => False
          end
      | None => False
      end
  | _ => False
  end.
Proof. vm_compute. repeat split; reflexivity. Qed.

(** C4 (amended): a descriptor whose total length is at most MTU is emitted
    unchanged, as the one segment that carries its completion token; an
    oversized descriptor with a segment count [segs] of at least one, whose
    payload length, read at the offset of the UDP length, is at least
    [1458 * (segs - 1)], produces [segs] segments and has its original token
    in the last emitted segment and the token zero in each of the first
    [segs - 1].  Hence the number of emitted segments whose token is not the
    suppression marker is one for every such descriptor whose own token is
    non-zero, and none for a descriptor whose own token is zero. *)
Theorem tx_burst_segment_tokens m h :
  (hdr_len m h ≤ MTU_SIZE →
     tx_burst_segment m h = Some (m, [h]) ∧
     nonzero_count (hdr_completion_data m <$> [h])
       = if decide (hdr_completion_data m h = 0) then 0%nat else 1%nat) ∧
  (MTU_SIZE < hdr_len m h → 1 ≤ gso_segs m h →
   1458 * (gso_segs m h - 1) ≤ gso_payload_len m h →
     ∃ m' out,
       tx_burst_segment m h = Some (m', out) ∧
       Z.of_nat (length out) = gso_segs m h ∧
       hdr_completion_data m' <$> out
         = replicate (Z.to_nat (gso_segs m h - 1)) 0 ++ [hdr_completion_data m h] ∧
       nonzero_count (hdr_completion_data m' <$> out)
         = if decide (hdr_completion_data m h = 0) then 0%nat else 1%nat).
Proof.
  split.
  - intros Hsmall. split.
    + unfold tx_burst_segment.
      destruct (Z.leb_spec (hdr_len m h) MTU_SIZE); [done|lia].
    + apply (nonzero_count_segments 0).
  - intros Hbig Hsegs Hfill.
    destruct (tx_burst_segment_gso m h Hbig Hsegs Hfill)
      as (m' & Hrun & Hfirst & Hlast & _).
    exists m', (seg_ptrs h (Z.to_nat (gso_segs m h))).
    split; [done|]. split; [rewrite seg_ptrs_length; lia|].
    assert (Htoks : hdr_completion_data m' <$> seg_ptrs h (Z.to_nat (gso_segs m h))
              = replicate (Z.to_nat (gso_segs m h - 1)) 0 ++ [hdr_completion_data m h]).
    { replace (Z.to_nat (gso_segs m h)) with (S (Z.to_nat (gso_segs m h - 1))) by lia.
      rewrite seg_ptrs_snoc, fmap_app. f_equal.
      - apply seg_ptrs_map. intros j Hj. apply (Hfirst j). lia.
      - simpl. f_equal.
        replace (Z.of_nat (Z.to_nat (gso_segs m h - 1))) with (gso_segs m h - 1) by lia.
        apply Hlast. }
    split; [done|]. rewrite Htoks. apply nonzero_count_segments.
Qed.

Lemma tx_burst_segment_tokens_witness :
  MTU_SIZE < hdr_len gso_shm 1000 ∧ gso_segs gso_shm 1000 = 3 ∧
  gso_payload_len gso_shm 1000 = 4000 ∧
  ∃ m' out,
    tx_burst_segment gso_shm 1000 = Some (m', out) ∧
    Z.of_nat (length out) = gso_segs gso_shm 1000 ∧
    hdr_completion_data m' <$> out
      = replicate (Z.to_nat (gso_segs gso_shm 1000 - 1)) 0
        ++ [hdr_completion_data gso_shm 1000] ∧
    nonzero_count (hdr_completion_data m' <$> out)
      = if decide (hdr_completion_data gso_shm 1000 = 0) then 0%nat else 1%nat.
Proof.
  assert (H1 : MTU_SIZE < hdr_len gso_shm 1000) by (vm_compute; reflexivity).
  assert (H2 : gso_segs gso_shm 1000 = 3) by (vm_compute; reflexivity).
  assert (H3 : gso_payload_len gso_shm 1000 = 4000) by (vm_compute; reflexivity).
  split; [exact H1|]. split; [exact H2|]. split; [exact H3|].
  apply (proj2 (tx_burst_segment_tokens gso_shm 1000) H1).
  - rewrite H2. lia.
  - rewrite H2, H3. lia.
Defined.





(** ** The segmentation of a batch *)

Lemma hdr_agree_18 m1 m2 h :
  (∀ x, h ≤ x < h + 18 → m1 x = m2 x) →
  hdr_len m1 h = hdr_len m2 h ∧ hdr_completion_data m1 h = hdr_completion_data m2 h.
Proof.
  intros H. unfold hdr_len, hdr_completion_data, off_len, off_completion_data. split.
  - apply load32_ext. intros i Hi. apply H. lia.
  - apply load64_ext. intros i Hi. apply H. lia.
Qed.

Lemma hdr_agree_60 m1 m2 h :
  (∀ x, h ≤ x < h + 60 → m1 x = m2 x) →
  gso_segs m1 h = gso_segs m2 h ∧ gso_residual m1 h = gso_residual m2 h ∧
  gso_payload_len m1 h = gso_payload_len m2 h.
Proof.
  intros H.
  destruct (hdr_agree_18 m1 m2 h) as [Hl _]; [intros; apply H; lia|].
  assert (Hp : gso_payload_len m1 h = gso_payload_len m2 h).
  { unfold gso_payload_len. do 3 f_equal. apply load16_ext. intros i Hi. apply H.
    unfold hdr_payload, sizeof_tx_net_hdr, UDP_OFFSET, off_udp_len. lia. }
  assert (Hs : gso_segs m1 h = gso_segs m2 h).
  { unfold gso_segs. by rewrite Hl, Hp. }
  split; [done|]. split; [|done]. unfold gso_residual. by rewrite Hp, Hs.
Qed.

Lemma load8_range m a : 0 ≤ load8 m a < 256.
Proof. unfold load8. apply Z.mod_pos_bound. lia. Qed.

Lemma hdr_len_nonneg m h : 0 ≤ hdr_len m h.
Proof.
  unfold hdr_len, load32, load16.
  pose proof (load8_range m (h + off_len)).
  pose proof (load8_range m (h + off_len + 1)).
  pose proof (load8_range m (h + off_len + 2)).
  pose proof (load8_range m (h + off_len + 2 + 1)).
  change (2 ^ 8) with 256. change (2 ^ 16) with 65536. lia.
Qed.

Lemma desc_extent_min m h : desc_ok m h → 18 ≤ desc_extent m h.
Proof.
  intros Hok. unfold desc_extent, sizeof_tx_net_hdr.
  pose proof (hdr_len_nonneg m h).
  destruct (Z.leb_spec (hdr_len m h) MTU_SIZE); [lia|].
  destruct Hok as [?|[Hs _]]; [lia|].
  pose proof (u32_nonneg (gso_payload_len m h - 1458 * (gso_segs m h - 1))).
  unfold gso_residual. lia.
Qed.

(** One descriptor, in a memory [mc] that agrees with [m] on its range. *)
Lemma tx_burst_segment_desc m mc h :
  desc_ok m h →
  (∀ x, in_extent m h x → mc x = m x) →
  ∃ m1, tx_burst_segment mc h = Some (m1, seg_list m h) ∧
    (∀ x, ¬ in_extent m h x → m1 x = mc x) ∧
    (∀ m', (∀ x, in_extent m h x → m' x = m1 x) →
       hdr_completion_data m' <$> seg_list m h = seg_tokens m h ∧
       hdr_len m' <$> seg_list m h = seg_lens m h ∧
       (hdr_len m h ≤ MTU_SIZE → ∀ x, in_extent m h x → m' x = m x)).
Proof.
  intros Hok Hagree. unfold in_extent in *.
  pose proof (desc_extent_min m h Hok) as Hmin.
  destruct (hdr_agree_18 mc m h) as [Hl Ht]; [intros; apply Hagree; lia|].
  unfold seg_tokens, seg_lens, seg_list, desc_extent in *.
  destruct (Z.leb_spec (hdr_len m h) MTU_SIZE) as [Hsmall|Hbig].
  - exists mc. split; [|split].
    + unfold tx_burst_segment. rewrite Hl.
      destruct (Z.leb_spec (hdr_len m h) MTU_SIZE); [done|lia].
    + done.
    + intros m' Hm'. simpl.
      destruct (hdr_agree_18 m' mc h) as [Hl' Ht']; [intros; apply Hm'; lia|].
      rewrite Hl', Ht', Hl, Ht. split; [done|]. split; [done|].
      intros _ x Hx. rewrite Hm' by done. by apply Hagree.
  - destruct Hok as [?|[Hsegs Hfill]]; [lia|].
    destruct (hdr_agree_60 mc m h) as (Hs & Hr & Hp).
    { intros x Hx. apply Hagree. unfold gso_residual.
      pose proof (u32_nonneg (gso_payload_len m h - 1458 * (gso_segs m h - 1))). lia. }
    destruct (tx_burst_segment_gso mc h) as (m1 & Hrun & Hfirst & Hlast & Hframe & _);
      [lia|lia|by rewrite Hs, Hp|].
    rewrite Hs, Hr, Ht in *. cbv zeta in Hlast.
    set (segs := gso_segs m h) in *. set (r := gso_residual m h) in *.
    assert (Hr0 : 0 ≤ r) by apply u32_nonneg.
    exists m1. split; [done|]. split.
    { intros x Hx. apply Hframe. lia. }
    intros m' Hm'. rewrite seg_ptrs_length.
    replace (Z.to_nat segs) with (S (Z.to_nat (segs - 1))) by lia.
    rewrite seg_ptrs_snoc, !fmap_app. simpl pred.
    replace (Z.of_nat (Z.to_nat (segs - 1))) with (segs - 1) by lia.
    assert (Hfirst' : ∀ j, 0 ≤ j < segs - 1 →
              hdr_fields m' (h + 1518 * j) 1500 0 1466 1486).
    { intros j Hj. eapply hdr_fields_ext; [|apply (Hfirst j Hj)].
      intros i Hi. apply Hm'. lia. }
    assert (Hlast' : hdr_fields m' (h + 1518 * (segs - 1)) (u32 (r + 42))
              (hdr_completion_data m h)
              (u16 (u32 (u32 (r + 42) - 34))) (u16 (u32 (u32 (r + 42) - 14)))).
    { eapply hdr_fields_ext; [|apply Hlast].
      intros i Hi. apply Hm'. lia. }
    split; [|split; [|intros; lia]]; f_equal.
    + apply seg_ptrs_map. intros j Hj. apply (Hfirst' j). lia.
    + simpl. f_equal. apply Hlast'.
    + apply seg_ptrs_map. intros j Hj. apply (Hfirst' j). lia.
    + simpl. f_equal. apply Hlast'.
Qed.

Lemma disjoint_not_in_extent m h rest x :
  Forall (fun h' => h + desc_extent m h ≤ h' ∨ h' + desc_extent m h' ≤ h) rest →
  in_extent m h x → Forall (fun h' => ¬ in_extent m h' x) rest.
Proof.
  intros Hd Hx. eapply Forall_impl; [exact Hd|].
  intros h' Hh'. simpl in Hh'. unfold in_extent in *. lia.
Qed.

Lemma disjoint_not_in_extent_rev m h rest x :
  Forall (fun h' => h + desc_extent m h ≤ h' ∨ h' + desc_extent m h' ≤ h) rest →
  Exists (fun h' => in_extent m h' x) rest → ¬ in_extent m h x.
Proof.
  intros Hd Hx Hin. apply Exists_exists in Hx as (h' & Hel & Hx).
  rewrite Forall_forall in Hd. specialize (Hd h' Hel). unfold in_extent in *. lia.
Qed.

Lemma tx_burst_gso_batch_from m : ∀ descs mc acc,
  Forall (fun d : Z * nat => desc_ok m d.1) descs →
  descs_disjoint m (fst <$> descs) →
  (∀ x, Exists (fun h => in_extent m h x) (fst <$> descs) → mc x = m x) →
  ∃ m', tx_burst_gso descs mc acc = Some (m', acc ++ batch_segs m descs) ∧
    Forall (fun d : Z * nat =>
              hdr_completion_data m' <$> seg_list m d.1 = seg_tokens m d.1 ∧
              hdr_len m' <$> seg_list m d.1 = seg_lens m d.1 ∧
              (hdr_len m d.1 ≤ MTU_SIZE → ∀ x, in_extent m d.1 x → m' x = m x)) descs ∧
    (∀ x, Forall (fun h => ¬ in_extent m h x) (fst <$> descs) → m' x = mc x).
Proof.
  induction descs as [|[h t] rest IH]; intros mc acc Hok Hdis Hagree.
  - exists mc. simpl. split; [by rewrite app_nil_r|]. split; [constructor|done].
  - apply Forall_cons in Hok as [Hokh Hokr]. simpl in Hokh.
    simpl in Hdis. destruct Hdis as [Hdh Hdr].
    destruct (tx_burst_segment_desc m mc h Hokh) as (m1 & Hrun & Hframe & Hstable).
    { intros x Hx. apply Hagree. simpl. by apply Exists_cons_hd. }
    destruct (IH m1 (acc ++ ((fun h' => (h', t)) <$> seg_list m h)) Hokr Hdr)
      as (m' & Hrun' & Hres & Hframe').
    { intros x Hx. rewrite Hframe.
      - apply Hagree. simpl. by apply Exists_cons_tl.
      - by eapply disjoint_not_in_extent_rev. }
    exists m'. split; [|split].
    + cbn [tx_burst_gso]. rewrite Hrun. simpl. rewrite Hrun'.
      unfold batch_segs. simpl. by rewrite <- app_assoc.
    + constructor; [|done]. simpl. apply Hstable.
      intros x Hx. apply Hframe'. by eapply disjoint_not_in_extent.
    + intros x Hx. simpl in Hx. apply Forall_cons in Hx as [Hxh Hxr].
      rewrite Hframe' by done. by apply Hframe.
Qed.

(** The segmentation loop of [tx_burst] over a whole batch (tx.c, lines
    294-346).  When every descriptor of the batch is short, or has a segment
    count [segs] of at least one and a payload length of at least
    [1458 * (segs - 1)], and the descriptors occupy pairwise disjoint ranges
    of shared memory, the loop ends and emits, descriptor after
    descriptor and in order, the segments of each descriptor with the thread
    of the descriptor.  In the memory the loop leaves, the segments of each
    descriptor carry the token zero except the last, which carries the token
    of the descriptor; their lengths are MTU except the last; a short
    descriptor and its frame are as the runtime wrote them; and no byte
    outside the ranges of the descriptors is written. *)
Theorem tx_burst_gso_batch m descs :
  Forall (fun d : Z * nat => desc_ok m d.1) descs →
  descs_disjoint m (fst <$> descs) →
  ∃ m', tx_burst_gso descs m [] = Some (m', batch_segs m descs) ∧
    Forall (fun d : Z * nat =>
              hdr_completion_data m' <$> seg_list m d.1 = seg_tokens m d.1 ∧
              hdr_len m' <$> seg_list m d.1 = seg_lens m d.1 ∧
              nonzero_count (hdr_completion_data m' <$> seg_list m d.1)
                = (if decide (hdr_completion_data m d.1 = 0) then 0%nat else 1%nat) ∧
              (hdr_len m d.1 ≤ MTU_SIZE → ∀ x, in_extent m d.1 x → m' x = m x)) descs ∧
    (∀ x, Forall (fun h => ¬ in_extent m h x) (fst <$> descs) → m' x = m x).
Proof.
  intros Hok Hdis.
  destruct (tx_burst_gso_batch_from m descs m [] Hok Hdis) as (m' & Hrun & Hres & Hframe);
    [done|].
  exists m'. split; [done|]. split; [|done].
  eapply Forall_impl; [exact Hres|].
  intros d (Htok & Hlen & Hsmall). split; [done|]. split; [done|]. split; [|done].
  rewrite Htok. apply nonzero_count_segments.
Qed.

Lemma tx_burst_gso_batch_witness :
  Forall (fun d : Z * nat => desc_ok batch_shm d.1) batch_descs ∧
  descs_disjoint batch_shm (fst <$> batch_descs) ∧
  batch_segs batch_shm batch_descs
    = [(1000, 0%nat); (2518, 0%nat); (4036, 0%nat); (6000, 0%nat)] ∧
  ∃ m', tx_burst_gso batch_descs batch_shm [] = Some (m', batch_segs batch_shm batch_descs) ∧
    Forall (fun d : Z * nat =>
              hdr_completion_data m' <$> seg_list batch_shm d.1 = seg_tokens batch_shm d.1 ∧
              hdr_len m' <$> seg_list batch_shm d.1 = seg_lens batch_shm d.1 ∧
              nonzero_count (hdr_completion_data m' <$> seg_list batch_shm d.1)
                = (if decide (hdr_completion_data batch_shm d.1 = 0)
                   then 0%nat else 1%nat) ∧
              (hdr_len batch_shm d.1 ≤ MTU_SIZE →
               ∀ x, in_extent batch_shm d.1 x → m' x = batch_shm x)) batch_descs ∧
    (∀ x, Forall (fun h => ¬ in_extent batch_shm h x) (fst <$> batch_descs) →
          m' x = batch_shm x).
Proof.
  assert (H1 : Forall (fun d : Z * nat => desc_ok batch_shm d.1) batch_descs).
  { constructor; [|constructor; [|constructor]].
    - right. split; vm_compute; discriminate.
    - left. vm_compute. discriminate. }
  assert (H2 : descs_disjoint batch_shm (fst <$> batch_descs)).
  { split; [|split; [constructor|exact I]].
    constructor; [|constructor]. left. vm_compute. discriminate. }
  split; [exact H1|]. split; [exact H2|]. split; [vm_compute; reflexivity|].
  exact (tx_burst_gso_batch batch_shm batch_descs H1 H2).
Defined.

(** The payload through the segmenter (tx.c, lines 300-343).  For an
    oversized descriptor with a segment count [segs] of at least one and a
    payload length [plen] of at least [1458 * (segs - 1)], byte [i] of the
    payload of segment [c] (header blocks are 60 bytes, segments 1518 bytes
    apart) is byte [1458 * c + i] of the payload the runtime wrote behind the
    one header block of the descriptor: the chunks are 1458 bytes long, the
    last one has the [plen - 1458 * (segs - 1)] bytes that are left, and
    together they are the first [plen] bytes behind the header block, in
    order.  The segments end inside the frame of the descriptor, and no byte
    outside their range is written. *)
Theorem tx_burst_segment_payload m h :
  MTU_SIZE < hdr_len m h →
  1 ≤ gso_segs m h →
  1458 * (gso_segs m h - 1) ≤ gso_payload_len m h →
  let r := gso_payload_len m h - 1458 * (gso_segs m h - 1) in
  ∃ m' out,
    tx_burst_segment m h = Some (m', out) ∧
    Z.of_nat (length out) = gso_segs m h ∧
    (∀ c i, 0 ≤ c < gso_segs m h →
            0 ≤ i < gso_chunk_size (gso_segs m h) r c →
            m' (h + 1518 * c + 60 + i) = m (h + 60 + 1458 * c + i)) ∧
    h + 1518 * (gso_segs m h - 1) + 60 + r ≤ h + sizeof_tx_net_hdr + hdr_len m h ∧
    (∀ x, x < h ∨ h + 1518 * (gso_segs m h - 1) + 60 + r ≤ x → m' x = m x).
Proof.
  intros Hbig Hsegs Hfill r.
  destruct (tx_burst_segment_gso m h Hbig Hsegs Hfill)
    as (m' & Hrun & _ & _ & Hframe & Hpay).
  pose proof (gso_fill_in_frame m h Hsegs Hfill) as Hin.
  rewrite (gso_residual_fill m h Hsegs Hfill) in Hframe, Hpay. fold r in Hframe, Hpay.
  exists m', (seg_ptrs h (Z.to_nat (gso_segs m h))).
  split; [done|]. split; [rewrite seg_ptrs_length; lia|].
  split; [done|]. split; [unfold r; lia|done].
Qed.

Lemma tx_burst_segment_payload_witness :
  MTU_SIZE < hdr_len gso_shm 1000 ∧
  gso_segs gso_shm 1000 = 3 ∧ gso_payload_len gso_shm 1000 = 4000 ∧
  let r := gso_payload_len gso_shm 1000 - 1458 * (gso_segs gso_shm 1000 - 1) in
  ∃ m' out,
    tx_burst_segment gso_shm 1000 = Some (m', out) ∧
    Z.of_nat (length out) = gso_segs gso_shm 1000 ∧
    (∀ c i, 0 ≤ c < gso_segs gso_shm 1000 →
            0 ≤ i < gso_chunk_size (gso_segs gso_shm 1000) r c →
            m' (1000 + 1518 * c + 60 + i) = gso_shm (1000 + 60 + 1458 * c + i)) ∧
    1000 + 1518 * (gso_segs gso_shm 1000 - 1) + 60 + r
      ≤ 1000 + sizeof_tx_net_hdr + hdr_len gso_shm 1000 ∧
    (∀ x, x < 1000 ∨ 1000 + 1518 * (gso_segs gso_shm 1000 - 1) + 60 + r ≤ x →
          m' x = gso_shm x).
Proof.
  assert (H1 : MTU_SIZE < hdr_len gso_shm 1000) by (vm_compute; reflexivity).
  assert (H2 : gso_segs gso_shm 1000 = 3) by (vm_compute; reflexivity).
  assert (H3 : gso_payload_len gso_shm 1000 = 4000) by (vm_compute; reflexivity).
  split; [exact H1|]. split; [exact H2|]. split; [exact H3|].
  apply (tx_burst_segment_payload gso_shm 1000 H1).
  - rewrite H2. lia.
  - rewrite H2, H3. lia.
Defined.

(** ** Reference counts *)

(** The reference count through [tx_send_completion] (tx.c, lines
    105-160).  For a buffer whose trailer names the process [p], the call
    returns; the reference count of [p] is one lower than before exactly when
    the call returns true, and is the same as before when it returns false,
    which happens only for a process that is not killed, a non-zero token and
    a full overflow queue. *)
Theorem tx_send_completion_ref buf s p P :
  priv_p (tx_pktmbuf_get_priv buf) = Some p →
  procs s !! p = Some P →
  proc_ok s P →
  priv_th_ok s (tx_pktmbuf_get_priv buf) →
  ∃ r s', tx_send_completion buf s = Some (r, s') ∧
    ref <$> procs s' !! p = Some (if r then ref P - 1 else ref P) ∧
    (r = false →
       kill P = false ∧ completion_data (tx_pktmbuf_get_priv buf) ≠ 0 ∧
       nr_overflows P = max_overflows P).
Proof.
  intros Hp HP Hok Hth.
  destruct (tx_send_completion_paths buf s p P Hp HP Hok Hth)
    as (r & s' & path & Hrun & Hpath).
  exists r, s'. split; [done|].
  destruct path; simpl in Hpath.
  - destruct Hpath as (_ & -> & ->). split; [|done].
    by rewrite procs_proc_put, list_lookup_alter_eq, HP.
  - destruct Hpath as (_ & _ & -> & _ & _ & _ & Href). done.
  - destruct Hpath as (_ & _ & -> & _ & _ & _ & Href). done.
  - destruct Hpath as (Hk & Hne & -> & _ & _ & _ & Hfull & Href). done.
Qed.

Lemma tx_send_completion_ref_witness :
  priv_p (tx_pktmbuf_get_priv (token_buf 21)) = Some 0%nat ∧
  procs spill_iok !! 0%nat = Some spill_proc ∧
  ∃ r s', tx_send_completion (token_buf 21) spill_iok = Some (r, s') ∧
    ref <$> procs s' !! 0%nat = Some (if r then ref spill_proc - 1 else ref spill_proc) ∧
    (r = false →
       kill spill_proc = false ∧ completion_data (tx_pktmbuf_get_priv (token_buf 21)) ≠ 0 ∧
       nr_overflows spill_proc = max_overflows spill_proc).
Proof.
  split; [reflexivity|]. split; [reflexivity|].
  apply (tx_send_completion_ref (token_buf 21) spill_iok 0 spill_proc).
  - reflexivity.
  - reflexivity.
  - exact proc_ok_spill.
  - exists 0%nat. split; [reflexivity|]. by eexists.
Defined.

(** What [tx_prepare_tx_mbuf] writes (tx.c, lines 52-100).  For a thread of
    the thread table whose process maps the page of the frame, the call
    returns; the mbuf then points at the frame behind the descriptor, its
    packet length is the length field of the descriptor, its trailer holds
    the process of the thread, the thread and the completion token of the
    descriptor, and the process holds one more reference.  Shared memory is
    not written. *)
Theorem tx_prepare_tx_mbuf_trailer buf net_hdr th s T P B paddr :
  threads s !! th = Some T →
  procs s !! th_p T = Some P →
  mbufs s !! buf = Some B →
  page_paddrs P !! Z.to_nat (u32 (PGN_2MB (u64 (hdr_payload net_hdr - region_base P))))
    = Some paddr →
  ∃ s1 B', tx_prepare_tx_mbuf buf net_hdr th s = Ret tt s1 ∧
    mbufs s1 !! buf = Some B' ∧
    buf_addr B' = hdr_payload net_hdr ∧
    pkt_len B' = hdr_len (shm s) net_hdr ∧
    data_len B' = u16 (hdr_len (shm s) net_hdr) ∧
    tx_pktmbuf_get_priv B'
      = mk_priv (Some (th_p T)) (Some th) (hdr_completion_data (shm s) net_hdr) ∧
    ref <$> procs s1 !! th_p T = Some (ref P + 1) ∧
    shm s1 = shm s.
Proof.
  intros HT HP HB Hpage. unfold tx_prepare_tx_mbuf.
  rewrite HT. cbn [of_option]. rewrite HP. cbn [of_option]. rewrite HB. cbn [of_option].
  rewrite Hpage. cbn [of_option].
  eexists _, _. split; [reflexivity|].
  split.
  { cbn [proc_get upd_proc set_procs set_mbufs mbufs].
    apply list_lookup_insert_eq. by eapply lookup_lt_Some. }
  cbn [buf_addr pkt_len data_len tx_pktmbuf_get_priv priv].
  split; [done|]. split; [done|]. split; [done|]. split; [done|].
  split; [|done].
  cbn [proc_get upd_proc set_procs set_mbufs procs].
  by rewrite list_lookup_alter_eq, HP.
Qed.

Lemma tx_prepare_tx_mbuf_trailer_witness :
  ∃ s1 B', tx_prepare_tx_mbuf 0 1000 0 (bp_state [1000]) = Ret tt s1 ∧
    mbufs s1 !! 0%nat = Some B' ∧
    buf_addr B' = hdr_payload 1000 ∧
    pkt_len B' = hdr_len (shm (bp_state [1000])) 1000 ∧
    data_len B' = u16 (hdr_len (shm (bp_state [1000])) 1000) ∧
    tx_pktmbuf_get_priv B'
      = mk_priv (Some 0%nat) (Some 0%nat)
          (hdr_completion_data (shm (bp_state [1000])) 1000) ∧
    ref <$> procs s1 !! 0%nat = Some (ref bp_proc + 1) ∧
    shm s1 = shm (bp_state [1000]).
Proof.
  apply (tx_prepare_tx_mbuf_trailer 0 1000 0 (bp_state [1000])
           (mk_thread 0 true [] 8 [(TXPKT_NET_XMIT, 1000)]) bp_proc
           (mbuf_of (mk_priv None None 0)) (2 ^ 30)).
  - reflexivity.
  - reflexivity.
  - reflexivity.
  - vm_compute. reflexivity.
Defined.

(** ** The poller on well-formed rings *)

Lemma set_txpktq_id T : set_txpktq (txpktq T) T = T.
Proof. by destruct T. Qed.

Lemma list_insert_alter_eq {A} (f : A → A) (x : A) (l : list A) :
  ∀ i, <[i := x]> (alter f i l) = <[i := x]> l.
Proof. induction l as [|a l IH]; intros [|i]; simpl; f_equal; auto. Qed.

Lemma shmptr_to_ptr_Some P slot ptr :
  shmptr_to_ptr P slot.2 sizeof_tx_net_hdr = Some ptr → ptr = slot_ptr P slot.
Proof. unfold shmptr_to_ptr, slot_ptr. case_decide; congruence. Qed.

Lemma tx_drain_queue_loop_pulls t P : ∀ k i hdrs s T,
  threads s !! t = Some T →
  procs s !! th_p T = Some P →
  Forall (slot_ok P) (take k (txpktq T)) →
  ∃ s', tx_drain_queue_loop k t i hdrs s
        = Ret (i + Z.of_nat (k `min` length (txpktq T)),
               hdrs ++ (slot_ptr P <$> take k (txpktq T))) s' ∧
    threads s' = <[t := set_txpktq (drop k (txpktq T)) T]> (threads s) ∧
    ts s' = (if decide ((length (txpktq T) < k)%nat ∧ active T = false)
             then filter (fun t' => t' ≠ t) (ts s) else ts s) ∧
    procs s' = procs s.
Proof.
  induction k as [|k IH]; intros i hdrs s T HT HP Hok.
  - exists s. cbn [tx_drain_queue_loop].
    rewrite take_0, drop_0, fmap_nil, Nat.min_0_l, Z.add_0_r, app_nil_r, set_txpktq_id.
    split; [done|]. split; [by rewrite list_insert_id|]. split; [|done].
    rewrite decide_False; [done|]. intros [? _]. lia.
  - cbn [tx_drain_queue_loop]. rewrite HT. cbn [of_option].
    destruct (txpktq T) as [|[cmd payload] q] eqn:Hq.
    + exists (if active T then s else unpoll_thread t s). simpl.
      rewrite Z.add_0_r, app_nil_r.
      assert (Hid : set_txpktq [] T = T) by (rewrite <- Hq; apply set_txpktq_id).
      rewrite Hid. split; [done|]. split.
      { rewrite list_insert_id by done. by destruct (active T). }
      split; [|by destruct (active T)].
      destruct (active T) eqn:Ha.
      * rewrite decide_False; [done|]. by intros [_ ?].
      * rewrite decide_True; [done|]. split; [lia|done].
    + simpl in Hok. apply Forall_cons in Hok as [[Hcmd [ptr Hptr]] Hok].
      simpl in Hcmd, Hptr. case_decide; [done|].
      cbn [upd_thread set_threads procs]. rewrite HP. cbn [of_option]. rewrite Hptr.
      destruct (IH (i + 1) (hdrs ++ [ptr]) (upd_thread t (set_txpktq q) s)
                  (set_txpktq q T)) as (s' & Hrun & Hthr & Hts & Hprocs).
      { simpl. by rewrite list_lookup_alter_eq, HT. }
      { done. }
      { done. }
      exists s'. fold (upd_thread t (set_txpktq q) s). rewrite Hrun.
      apply (shmptr_to_ptr_Some P (cmd, payload)) in Hptr. subst ptr.
      split.
      { simpl. rewrite <- app_assoc. do 2 f_equal. lia. }
      split.
      { rewrite Hthr. simpl. apply list_insert_alter_eq. }
      split; [|done].
      rewrite Hts. simpl.
      destruct (decide ((length q < k)%nat ∧ active T = false)) as [[H1 H2]|H1],
               (decide ((S (length q) < S k)%nat ∧ active T = false)) as [[H3 H4]|H3];
        try done; exfalso; apply H1 || apply H3; split; (lia || done).
Qed.

(** What [tx_drain_queue] pulls (tx.c, lines 196-220).  When the first [n]
    records of the egress ring of [t] carry the transmit tag and an offset
    inside the region of the process, the call returns; it consumes the
    first [min n (length of the ring)] records and stores their pointers,
    region base plus offset, in ring order; the count returned is their
    number; the thread is removed from the poll set exactly when the ring ran
    empty before [n] records were pulled and the thread is not active; no
    process record changes. *)
Theorem tx_drain_queue_pulls t n s T P :
  threads s !! t = Some T →
  procs s !! th_p T = Some P →
  Forall (slot_ok P) (take (Z.to_nat n) (txpktq T)) →
  ∃ s', tx_drain_queue t n s
        = Ret (Z.of_nat (Z.to_nat n `min` length (txpktq T)),
               slot_ptr P <$> take (Z.to_nat n) (txpktq T)) s' ∧
    threads s' = <[t := set_txpktq (drop (Z.to_nat n) (txpktq T)) T]> (threads s) ∧
    ts s' = (if decide ((length (txpktq T) < Z.to_nat n)%nat ∧ active T = false)
             then filter (fun t' => t' ≠ t) (ts s) else ts s) ∧
    procs s' = procs s.
Proof.
  intros HT HP Hok. unfold tx_drain_queue.
  destruct (tx_drain_queue_loop_pulls t P (Z.to_nat n) 0 [] s T HT HP Hok)
    as (s' & Hrun & Hrest).
  exists s'. split; [|done]. rewrite Hrun. by rewrite Z.add_0_l.
Qed.

Lemma tx_drain_queue_pulls_witness :
  ∃ s', tx_drain_queue 1 4 two_rings_iok
        = Ret (2, [7000; 9000]) s' ∧
    threads s' = <[1%nat := mk_thread 0 false [] 8 []]> (threads two_rings_iok) ∧
    ts s' = [0%nat] ∧
    procs s' = procs two_rings_iok.
Proof.
  destruct (tx_drain_queue_pulls 1 4 two_rings_iok
              (mk_thread 0 false [] 8 ((fun o => (TXPKT_NET_XMIT, o)) <$> [7000; 9000]))
              bp_proc eq_refl eq_refl) as (s' & Hrun & Hthr & Hts & Hprocs).
  { repeat constructor; by eexists. }
  exists s'. split; [exact Hrun|]. split; [exact Hthr|]. split; [|exact Hprocs].
  rewrite Hts. rewrite decide_True; [reflexivity|]. split; [simpl; lia|reflexivity].
Defined.

Lemma rings_ok_poll_ok s : rings_ok s → poll_ok s.
Proof.
  unfold rings_ok, poll_ok. intros H. eapply Forall_impl; [exact H|].
  intros t (T & P & HT & HP & _). exists T. split; [done|]. by exists P.
Qed.

Lemma rings_ok_drain s s' t T c :
  rings_ok s →
  threads s !! t = Some T →
  threads s' = <[t := set_txpktq (drop c (txpktq T)) T]> (threads s) →
  ts s' ⊆ ts s →
  procs s' = procs s →
  rings_ok s'.
Proof.
  intros Hok HT Hthr Hsub Hprocs. unfold rings_ok in *.
  rewrite Forall_forall in Hok |- *. intros t' Ht'.
  destruct (Hok t' (Hsub _ Ht')) as (T' & P' & HT' & HP' & Hq).
  rewrite Hthr, Hprocs. destruct (decide (t' = t)) as [->|Hne].
  - rewrite HT in HT'. injection HT' as <-.
    exists (set_txpktq (drop c (txpktq T)) T), P'.
    split; [apply list_lookup_insert_eq; by eapply lookup_lt_Some|].
    split; [done|]. simpl. by apply Forall_drop.
  - exists T', P'. by rewrite list_lookup_insert_ne.
Qed.

Lemma tx_burst_poll_loop_no_bug burst : ∀ k i pulled pulltotal s,
  rings_ok s → no_bug (tx_burst_poll_loop burst k i pulled pulltotal s).
Proof.
  induction k as [|k IH]; intros i pulled pulltotal s Hok.
  - simpl. by case_decide.
  - cbn [tx_burst_poll_loop]. case_decide; [|done].
    destruct (ts s !! Z.to_nat (u32 (pos s + i) mod nrts s)) as [t|] eqn:Ht; [|done].
    cbn [of_option].
    assert (Hin : t ∈ ts s) by (by eapply list_elem_of_lookup_2).
    pose proof Hok as Hok'. unfold rings_ok in Hok'. rewrite Forall_forall in Hok'.
    destruct (Hok' t Hin) as (T & P & HT & HP & Hq).
    unfold tx_drain_queue.
    destruct (tx_drain_queue_loop_pulls t P
                (Z.to_nat (int_of_u32 (u32 (burst - n_pkts s)))) 0 [] s T HT HP)
      as (s1 & Hrun & Hthr & Hts & Hprocs).
    { by apply Forall_take. }
    assert (Hsub : ts s1 ⊆ ts s).
    { rewrite Hts. case_decide; [|done].
      intros x Hx. by apply list_elem_of_filter in Hx as [_ ?]. }
    clear Hts. rewrite Hrun. cbn [obind].
    case_decide; [exact I|]. apply IH.
    by apply (rings_ok_drain s _ t T (Z.to_nat (int_of_u32 (u32 (burst - n_pkts s))))).
Qed.

(** The polling phase on well-formed rings (tx.c, lines 258-276).  When
    every record in the egress ring of every polled thread carries the
    transmit tag and an offset inside the region of its process, the polling
    phase of [tx_burst] returns: no [BUG_ON] fires and every access is
    defined.  It pulls at most [IOKERNEL_TX_BURST_SIZE - n_pkts] descriptors,
    [n_pkts] grows by the number pulled, the early [return false] is taken
    only with [n_pkts = 0], and process records, shared memory, the mbufs and
    the carry-over array are not touched. *)
Theorem tx_burst_poll_returns burst s :
  0 < burst < 2 ^ 31 → rings_ok s → 0 ≤ n_pkts s < 2 ^ 31 →
  ∃ r s1, tx_burst_poll burst s = Ret r s1 ∧
    n_pkts s1 = n_pkts s + npulled r ∧
    npulled r ≤ Z.max 0 (burst - n_pkts s) ∧
    (r = None → n_pkts s1 = 0) ∧
    procs s1 = procs s ∧ shm s1 = shm s ∧ mbufs s1 = mbufs s ∧
    bufs s1 = bufs s ∧ n_bufs s1 = n_bufs s ∧ nic_log s1 = nic_log s.
Proof.
  intros Hb Hok Hn.
  pose proof (tx_burst_poll_post burst s Hb (rings_ok_poll_ok s Hok) Hn) as Hpost.
  assert (Hnb : no_bug (tx_burst_poll burst s)).
  { unfold tx_burst_poll.
    pose proof (tx_burst_poll_loop_no_bug burst (length (ts s)) 0 [] 0 s Hok) as Hl.
    destruct (tx_burst_poll_loop burst (length (ts s)) 0 [] 0 s)
      as [[[full pulled] pt] s1| |]; [|done|done].
    cbn [obind]. destruct full; [done|]. by destruct (n_pkts s1 =? 0). }
  destruct (tx_burst_poll burst s) as [r s1| |]; [|done|done].
  destruct Hpost as (Hnb1&Hbufs&Hlog&_&Hmb&Hshm&Hprocs&_&Hsum&Hmax&Hnone&_&_).
  exists r, s1. split; [done|]. split; [done|]. split; [lia|]. done.
Qed.

Lemma tx_burst_poll_returns_witness :
  ∃ r s1, tx_burst_poll 4 two_rings_iok = Ret r s1 ∧
    n_pkts s1 = n_pkts two_rings_iok + npulled r ∧
    npulled r ≤ Z.max 0 (4 - n_pkts two_rings_iok) ∧
    (r = None → n_pkts s1 = 0) ∧
    procs s1 = procs two_rings_iok ∧ shm s1 = shm two_rings_iok ∧
    mbufs s1 = mbufs two_rings_iok ∧
    bufs s1 = bufs two_rings_iok ∧ n_bufs s1 = n_bufs two_rings_iok ∧
    nic_log s1 = nic_log two_rings_iok.
Proof.
  apply (tx_burst_poll_returns 4 two_rings_iok).
  - lia.
  - repeat constructor; eexists _, bp_proc;
      (split; [reflexivity|]); (split; [reflexivity|]);
      repeat constructor; by eexists.
  - simpl. lia.
Defined.

(** ** A datagram from the ring to its completion *)

(** The datagram of 4000 bytes of payload, with the token 170, goes through
    one [tx_burst]: three buffers are offered to the driver, of 1500, 1500
    and 1126 bytes, with the tokens 0, 0 and 170 in their trailers and three
    references taken on the process; when the driver releases them, one
    completion record, with the token 170, reaches the runtime, and the
    three references are dropped. *)
Lemma tx_burst_gso_scenario :
  match tx_burst 4 4 gso_iok with
  | Ret b s' =>
      b = true ∧
      nic_log s' = [([0; 1; 2]%nat, 3)] ∧
      pkt_len <$> take 3 (mbufs s') = [1500; 1500; 1126] ∧
      (fun B => completion_data (tx_pktmbuf_get_priv B)) <$> take 3 (mbufs s')
        = [0; 0; 170] ∧
      ref <$> procs s' = [ref bp_proc + 3] ∧
      match release_all [0; 1; 2]%nat s' with
      | Some (rs, s'') =>
          rs = [true; true; true] ∧
          rx_log s'' = [(0%nat, (RX_NET_COMPLETE, 170))] ∧
          ref <$> procs s'' = [ref bp_proc]
      | None => False
      end
  | _ => False
  end.
Proof. vm_compute. repeat split; reflexivity. Qed.

(** ** From the segments to the driver *)

Lemma tx_prepare_tx_mbuf_spec buf h th s T P B :
  threads s !! th = Some T →
  procs s !! th_p T = Some P →
  mbufs s !! buf = Some B →
  is_Some (page_paddrs P !! frame_page P h) →
  ∃ s1 B', tx_prepare_tx_mbuf buf h th s = Ret tt s1 ∧
    mbufs s1 = <[buf := B']> (mbufs s) ∧
    procs s1 = alter (fun P' => set_ref (ref P' + 1) P') (th_p T) (procs s) ∧
    buf_addr B' = hdr_payload h ∧
    pkt_len B' = hdr_len (shm s) h ∧
    tx_pktmbuf_get_priv B'
      = mk_priv (Some (th_p T)) (Some th) (hdr_completion_data (shm s) h) ∧
    fill_frame s s1.
Proof.
  intros HT HP HB [paddr Hpage]. unfold frame_page in Hpage.
  assert (Hrun : ∃ s1, tx_prepare_tx_mbuf buf h th s = Ret tt s1).
  { unfold tx_prepare_tx_mbuf.
    rewrite HT. cbn [of_option]. rewrite HP. cbn [of_option].
    rewrite HB. cbn [of_option]. rewrite Hpage. cbn [of_option]. by eexists. }
  destruct Hrun as [s1 Hrun].
  pose proof (tx_prepare_tx_mbuf_frame _ _ _ _ _ _ Hrun) as Hframe.
  unfold tx_prepare_tx_mbuf in Hrun.
  rewrite HT in Hrun. cbn [of_option] in Hrun. rewrite HP in Hrun.
  cbn [of_option] in Hrun. rewrite HB in Hrun. cbn [of_option] in Hrun.
  rewrite Hpage in Hrun. cbn [of_option] in Hrun.
  injection Hrun as <-.
  eexists _, _. split.
  { unfold tx_prepare_tx_mbuf.
    rewrite HT. cbn [of_option]. rewrite HP. cbn [of_option].
    rewrite HB. cbn [of_option]. rewrite Hpage. cbn [of_option]. reflexivity. }
  split; [reflexivity|]. split; [reflexivity|].
  split; [reflexivity|]. split; [reflexivity|]. split; [reflexivity|]. exact Hframe.
Qed.

Lemma seg_ok_frame s s1 seg :
  threads s1 = threads s →
  (∀ p P, procs s !! p = Some P → ∃ r, procs s1 !! p = Some (set_ref r P)) →
  seg_ok s seg → seg_ok s1 seg.
Proof.
  intros Hthr Hprocs (T & P & HT & HP & Hpage).
  destruct (Hprocs _ _ HP) as [r HP1].
  exists T, (set_ref r P). rewrite Hthr. by repeat split.
Qed.

Lemma procs_alter_ref (f : proc → Z) q (l : list proc) p P :
  l !! p = Some P →
  ∃ r, alter (fun P' => set_ref (f P') P') q l !! p = Some (set_ref r P).
Proof.
  intros HP. destruct (decide (q = p)) as [->|Hne].
  - exists (f P). by rewrite list_lookup_alter_eq, HP.
  - exists (ref P). rewrite list_lookup_alter_ne by done. rewrite HP. by destruct P.
Qed.

Lemma refs_taken_cons s h t segs p :
  refs_taken s ((h, t) :: segs) p
  = (if decide (th_p <$> threads s !! t = Some p) then 1 else 0) + refs_taken s segs p.
Proof.
  unfold refs_taken. rewrite filter_cons. simpl.
  destruct (decide (th_p <$> threads s !! t = Some p)); simpl; lia.
Qed.

Lemma tx_burst_fill_spec : ∀ segs i s,
  Forall (seg_ok s) segs →
  (∀ j, (j < length segs)%nat →
        ∃ b, bufs s !! (i + j)%nat = Some b ∧ (b < length (mbufs s))%nat) →
  NoDup (take (length segs) (drop i (bufs s))) →
  ∃ s1, tx_burst_fill i segs s = Ret tt s1 ∧ fill_frame s s1 ∧
    length (mbufs s1) = length (mbufs s) ∧
    (∀ j h t b, segs !! j = Some (h, t) → bufs s !! (i + j)%nat = Some b →
       ∃ B T, mbufs s1 !! b = Some B ∧ threads s !! t = Some T ∧
         buf_addr B = hdr_payload h ∧ pkt_len B = hdr_len (shm s) h ∧
         tx_pktmbuf_get_priv B
           = mk_priv (Some (th_p T)) (Some t) (hdr_completion_data (shm s) h)) ∧
    (∀ b, b ∉ take (length segs) (drop i (bufs s)) → mbufs s1 !! b = mbufs s !! b) ∧
    (∀ p P, procs s !! p = Some P →
            procs s1 !! p = Some (set_ref (ref P + refs_taken s segs p) P)).
Proof.
  induction segs as [|[h t] segs IH]; intros i s Hok Hbufs Hnd.
  - exists s. cbn [tx_burst_fill]. split; [done|]. split; [by repeat split|].
    split; [done|]. split; [done|]. split; [done|].
    intros p P HP. rewrite HP. unfold refs_taken. cbn.
    rewrite Z.add_0_r. by destruct P.
  - apply Forall_cons in Hok as [(T & P0 & HT & HP0 & Hpage) Hok].
    cbn [fst snd] in HT, HP0, Hpage.
    destruct (Hbufs 0%nat) as (b & Hb & Hblt); [simpl; lia|].
    rewrite Nat.add_0_r in Hb.
    destruct (lookup_lt_is_Some_2 _ _ Hblt) as [B HB].
    destruct (tx_prepare_tx_mbuf_spec b h t s T P0 B HT HP0 HB Hpage)
      as (s1 & B' & Hrun & Hmb & Hprocs & Haddr & Hlen & Hpriv & Hframe).
    pose proof Hframe as (_ & _ & _ & Hbufs1 & _ & _ & Hshm1 & _ & _ & Hthr1 & _).
    assert (Hdrop : drop i (bufs s) = b :: drop (S i) (bufs s)) by (by apply drop_S).
    cbn [length] in Hnd. rewrite Hdrop in Hnd. cbn [take] in Hnd.
    apply NoDup_cons in Hnd as [Hnotin Hnd].
    assert (Hlen1 : length (mbufs s1) = length (mbufs s)).
    { by rewrite Hmb, length_insert. }
    destruct (IH (S i) s1) as (s2 & Hrun2 & Hframe2 & Hlen2 & Htr & Hother & Hrefs).
    { eapply Forall_impl; [exact Hok|]. intros seg. apply seg_ok_frame; [done|].
      intros p P HP. rewrite Hprocs. by apply procs_alter_ref. }
    { intros j Hj. destruct (Hbufs (S j)) as (b' & Hb' & Hlt'); [simpl; lia|].
      exists b'. rewrite Hbufs1, Hlen1.
      replace (S i + j)%nat with (i + S j)%nat by lia. done. }
    { by rewrite Hbufs1. }
    exists s2. split.
    { cbn [tx_burst_fill]. rewrite Hb. cbn [of_option]. rewrite Hrun. cbn [obind]. done. }
    split; [by eapply fill_frame_trans|]. split; [congruence|].
    split; [|split].
    + intros [|j] h' t' b' Hseg Hb'.
      * cbn in Hseg. injection Hseg as <- <-.
        rewrite Nat.add_0_r, Hb in Hb'. injection Hb' as <-.
        exists B', T. rewrite Hother by (by rewrite Hbufs1).
        rewrite Hmb. split; [apply list_lookup_insert_eq; done|]. done.
      * cbn in Hseg.
        destruct (Htr j h' t' b' Hseg) as (B2 & T2 & ? & ? & ? & ? & ?).
        { rewrite Hbufs1. by replace (S i + j)%nat with (i + S j)%nat by lia. }
        exists B2, T2. by rewrite <- Hthr1, <- Hshm1.
    + intros b' Hb'. cbn [length] in Hb'. rewrite Hdrop in Hb'. cbn [take] in Hb'.
      apply not_elem_of_cons in Hb' as [Hne Hb'].
      rewrite Hother by (by rewrite Hbufs1).
      rewrite Hmb. by apply list_lookup_insert_ne.
    + intros p P HP. rewrite refs_taken_cons.
      assert (Hrt : refs_taken s1 segs p = refs_taken s segs p).
      { unfold refs_taken. by rewrite Hthr1. }
      rewrite HT. cbn [fmap option_fmap option_map].
      destruct (decide (Some (th_p T) = Some p)) as [Heq|Hne].
      * injection Heq as <-.
        rewrite (Hrefs (th_p T) (set_ref (ref P + 1) P)).
        { rewrite Hrt. unfold set_ref.
          cbn [kill ref overflow_queue nr_overflows max_overflows next_thread_rr
               p_threads region_base region_len page_paddrs].
          do 2 f_equal. lia. }
        rewrite Hprocs, list_lookup_alter_eq, HP. done.
      * rewrite (Hrefs p P).
        { by rewrite Hrt, Z.add_0_l. }
        rewrite Hprocs, list_lookup_alter_ne; [done|]. congruence.
Qed.

Lemma write_bufs_new_segment objs i b :
  (i + length objs ≤ length b)%nat →
  take (length objs) (drop i (write_bufs i objs b)) = objs.
Proof.
  intros Hlen. apply list_eq. intros j.
  destruct (decide (j < length objs)%nat) as [Hj|Hj].
  - rewrite lookup_take_lt, lookup_drop by done.
    destruct (lookup_lt_is_Some_2 objs j Hj) as [o Ho]. rewrite Ho.
    apply write_bufs_lookup_new; [done|lia].
  - rewrite lookup_take_ge by lia. symmetry. apply lookup_ge_None. lia.
Qed.

Lemma write_bufs_offered objs i b :
  (i + length objs ≤ length b)%nat →
  take (i + length objs) (write_bufs i objs b) = take i b ++ objs.
Proof.
  intros Hlen.
  rewrite <- (take_drop i (write_bufs i objs b)) at 1.
  rewrite take_app_add'.
  - by rewrite write_bufs_take, write_bufs_new_segment.
  - rewrite length_take, write_bufs_length. lia.
Qed.

Lemma tx_burst_shift_total ret : ∀ k i b,
  (ret + i + k ≤ length b)%nat → is_Some (tx_burst_shift k i ret b).
Proof.
  induction k as [|k IH]; intros i b Hlen; simpl; [by eexists|].
  destruct (lookup_lt_is_Some_2 b (ret + i)) as [x Hx]; [lia|].
  rewrite Hx. simpl. apply IH. rewrite length_insert. lia.
Qed.

Lemma tx_burst_transmit_offers burst accept n0 pulled pt s m' segs :
  burst * 50 < 2 ^ 16 →
  n0 = 0 → n_bufs s = n0 →
  n_pkts s = Z.of_nat (length pulled) →
  Forall (fun d : Z * nat => log_ok (shm s) d.1) pulled →
  tx_burst_gso pulled (shm s) [] = Some (m', segs) →
  n_bufs s + Z.of_nat (length segs) ≤ burst * 50 →
  (length segs ≤ length (pool s))%nat →
  (Z.to_nat (n_bufs s) + length segs ≤ length (bufs s))%nat →
  Forall (fun b => (b < length (mbufs s))%nat) (take (length segs) (pool s)) →
  NoDup (take (length segs) (pool s)) →
  Forall (seg_ok s) segs →
  ∃ s', tx_burst_transmit burst accept n0 pulled pt s = Ret true s' ∧
    nic_log s' = nic_log s ++
      [(take (Z.to_nat (n_bufs s)) (bufs s) ++ take (length segs) (pool s),
        Z.max 0 (Z.min accept (n_bufs s + Z.of_nat (length segs))))] ∧
    pool s' = drop (length segs) (pool s) ∧
    shm s' = m' ∧
    (∀ j h t b, segs !! j = Some (h, t) → pool s !! j = Some b →
       ∃ B T, mbufs s' !! b = Some B ∧ threads s !! t = Some T ∧
         buf_addr B = hdr_payload h ∧ pkt_len B = hdr_len m' h ∧
         tx_pktmbuf_get_priv B
           = mk_priv (Some (th_p T)) (Some t) (hdr_completion_data m' h)) ∧
    (∀ b, b ∉ take (length segs) (pool s) → mbufs s' !! b = mbufs s !! b) ∧
    (∀ p P, procs s !! p = Some P →
            procs s' !! p = Some (set_ref (ref P + refs_taken s segs p) P)).
Proof.
  intros Hb Hz Hn0 Hnp Hlogok Hgso Hmax Hpool Hcap Hvalid Hnd Hok. subst n0.
  assert (Hnb : 0 ≤ n_bufs s) by lia.
  unfold tx_burst_transmit. cbn [n_bufs n_pkts set_stats shm].
  destruct (tx_burst_print_ok pulled (shm s) (Z.to_nat (n_pkts s)) 0) as [ws Hws];
    [lia|lia|done|].
  rewrite Hws. cbn [of_option].
  case_decide; [lia|].
  replace (Z.to_nat (n_bufs s - 0)) with 0%nat by lia.
  rewrite drop_0, Hgso. cbn [of_option]. unfold TX_MAX_SEGS.
  cbn [n_bufs n_pkts pool bufs nic_log set_n_pkts set_shm set_stats set_pool set_bufs].
  set (m := n_bufs s + Z.of_nat (length segs)) in *.
  case_decide as Hm; [lia|].
  replace (Z.to_nat (m - n_bufs s)) with (length segs) by lia.
  case_decide as Hshort; [lia|].
  case_decide as Hcap'; [|lia].
  set (nb := Z.to_nat (n_bufs s)) in *.
  set (objs := take (length segs) (pool s)) in *.
  assert (Hobjs : length objs = length segs).
  { unfold objs. rewrite length_take. lia. }
  set (bw := write_bufs nb objs (bufs s)).
  match goal with |- context [tx_burst_fill nb segs ?st] => set (sA := st) end.
  destruct (tx_burst_fill_spec segs nb sA) as (s1 & Hfill & Hframe & Hlen1 & Htr & Hother & Hrefs).
  { exact Hok. }
  { intros j Hj. cbn [sA bufs mbufs set_pool set_bufs set_n_pkts set_shm set_stats].
    destruct (lookup_lt_is_Some_2 objs j) as [o Ho]; [lia|].
    exists o. split.
    - apply write_bufs_lookup_new; [done|lia].
    - rewrite Forall_forall in Hvalid. apply Hvalid. by eapply list_elem_of_lookup_2. }
  { cbn [sA bufs set_pool set_bufs]. fold bw. unfold bw.
    rewrite <- Hobjs, write_bufs_new_segment; [done|lia]. }
  rewrite Hfill. cbn [obind].
  destruct Hframe as (_ & Hnp1 & Hnb1 & Hbufs1 & Hlog1 & Hpool1 & Hshm1 & _ & _ & Hthr1 & _).
  cbn [sA pos n_pkts n_bufs bufs nic_log pool shm threads mbufs procs
       set_pool set_bufs set_n_pkts set_shm set_stats] in Hnp1, Hnb1, Hbufs1, Hlog1,
       Hpool1, Hshm1, Hthr1, Hlen1, Htr, Hother, Hrefs.
  fold bw in Hbufs1.
  assert (Hu16 : u16 m = m).
  { unfold u16. apply Z.mod_small. lia. }
  assert (Hoffered : take (Z.to_nat m) bw = take nb (bufs s) ++ objs).
  { replace (Z.to_nat m) with (nb + length objs)%nat by lia.
    apply write_bufs_offered. lia. }
  assert (Htr' : ∀ j h t b, segs !! j = Some (h, t) → pool s !! j = Some b →
            ∃ B T, mbufs s1 !! b = Some B ∧ threads s !! t = Some T ∧
              buf_addr B = hdr_payload h ∧ pkt_len B = hdr_len m' h ∧
              tx_pktmbuf_get_priv B
                = mk_priv (Some (th_p T)) (Some t) (hdr_completion_data m' h)).
  { intros j h t b Hseg Hpj. apply (Htr j h t b Hseg).
    pose proof (lookup_lt_Some _ _ _ Hseg) as Hj.
    apply write_bufs_lookup_new; [|lia].
    unfold objs. rewrite lookup_take_lt; [done|]. by eapply lookup_lt_Some. }
  assert (Hother' : ∀ b, b ∉ objs → mbufs s1 !! b = mbufs s !! b).
  { intros b Hnot. apply Hother. unfold bw.
    rewrite <- Hobjs, write_bufs_new_segment; [done|lia]. }
  assert (Hrefs' : ∀ p P, procs s !! p = Some P →
            procs s1 !! p = Some (set_ref (ref P + refs_taken s segs p) P)).
  { intros p P HP. by apply Hrefs. }
  clear Htr Hother Hrefs Hfill.
  cbn [pos n_pkts n_bufs bufs nic_log pool shm threads mbufs procs stats
       set_n_bufs set_nic_log set_n_pkts STAT_INC set_stats set_bufs].
  rewrite Hnp1, Hbufs1, Hlog1, Hu16, Hoffered.
  case_decide as Hret.
  - destruct (tx_burst_shift_total (Z.to_nat (Z.max 0 (Z.min accept m)))
                (Z.to_nat (m - Z.max 0 (Z.min accept m))) 0 bw) as [b' Hshift].
    { unfold bw. rewrite write_bufs_length. lia. }
    rewrite Hshift. cbn [of_option].
    eexists. split; [reflexivity|].
    cbn [pos n_pkts n_bufs bufs nic_log pool shm threads mbufs procs stats
         set_n_bufs set_nic_log set_n_pkts STAT_INC set_stats set_bufs].
    rewrite Hpool1, Hshm1. done.
  - eexists. split; [reflexivity|].
    cbn [pos n_pkts n_bufs bufs nic_log pool shm threads mbufs procs stats
         set_n_bufs set_nic_log set_n_pkts STAT_INC set_stats set_bufs].
    rewrite Hpool1, Hshm1. done.
Qed.

Lemma seg_ok_poll s s1 seg :
  th_p <$> threads s1 = th_p <$> threads s → procs s1 = procs s →
  seg_ok s seg → seg_ok s1 seg.
Proof.
  intros Hthr Hprocs (T & P & HT & HP & Hpage).
  apply (f_equal (fun l => l !! seg.2)) in Hthr.
  rewrite !list_lookup_fmap, HT in Hthr. simpl in Hthr.
  destruct (threads s1 !! seg.2) as [T1|] eqn:HT1; [|done].
  injection Hthr as Hp. exists T1, P. rewrite Hp, Hprocs. done.
Qed.

Lemma refs_taken_poll s s1 segs p :
  th_p <$> threads s1 = th_p <$> threads s →
  refs_taken s1 segs p = refs_taken s segs p.
Proof.
  intros Hthr. unfold refs_taken. do 2 f_equal.
  apply list_filter_iff. intros seg.
  by rewrite <- !list_lookup_fmap, Hthr.
Qed.

Lemma tx_drain_queue_loop_count t : ∀ k i hdrs s r hdrs' s1,
  tx_drain_queue_loop k t i hdrs s = Ret (r, hdrs') s1 →
  ∃ new, hdrs' = hdrs ++ new ∧ r = i + Z.of_nat (length new).
Proof.
  induction k as [|k IH]; intros i hdrs s r hdrs' s1; cbn [tx_drain_queue_loop].
  - intros [= <- <- _]. exists []. by rewrite app_nil_r, Z.add_0_r.
  - destruct (threads s !! t) as [T|]; [cbn [of_option]|done].
    destruct (txpktq T) as [|[cmd payload] q].
    + intros [= <- <- _]. exists []. by rewrite app_nil_r, Z.add_0_r.
    + case_decide; [done|].
      destruct (procs _ !! _) as [P|]; [cbn [of_option]|done].
      destruct (shmptr_to_ptr P payload sizeof_tx_net_hdr) as [ptr|]; [|done].
      intros Hrun. apply IH in Hrun as (new & -> & ->).
      exists (ptr :: new). rewrite <- app_assoc. split; [done|]. simpl length. lia.
Qed.

Lemma tx_burst_poll_loop_count burst : ∀ k i pulled pt s full pulled' pt' s1,
  0 ≤ pt < 2 ^ 32 →
  tx_burst_poll_loop burst k i pulled pt s = Ret (full, pulled', pt') s1 →
  ∃ new, pulled' = pulled ++ new ∧ pt' = u32 (pt + Z.of_nat (length new)).
Proof.
  induction k as [|k IH]; intros i pulled pt s full pulled' pt' s1 Hpt;
    cbn [tx_burst_poll_loop].
  - case_decide; [done|]. intros [= _ <- <- _]. exists [].
    rewrite app_nil_r, Z.add_0_r, u32_small; done.
  - case_decide; cycle 1.
    { intros [= _ <- <- _]. exists []. rewrite app_nil_r, Z.add_0_r, u32_small; done. }
    destruct (ts s !! _) as [t|]; [cbn [of_option]|done].
    unfold tx_drain_queue.
    destruct (tx_drain_queue_loop _ t 0 [] s) as [[ret hdrs] s0| |] eqn:Hdrain;
      [cbn [obind]|done|done].
    apply tx_drain_queue_loop_count in Hdrain as (new0 & Hh & Hr).
    rewrite app_nil_l in Hh. subst hdrs. rewrite Z.add_0_l in Hr. subst ret.
    assert (Hsum : ∀ n, u32 (u32 (pt + Z.of_nat (length new0)) + n)
                        = u32 (pt + Z.of_nat (length (new0 : list Z)) + n)).
    { intros n. unfold u32. by rewrite Zplus_mod_idemp_l. }
    case_decide.
    + intros [= _ <- <- _]. eexists. split; [reflexivity|].
      by rewrite length_fmap.
    + intros Hrun. apply IH in Hrun as (new & -> & ->).
      2:{ apply Z.mod_pos_bound. lia. }
      exists (((fun h => (h, t)) <$> new0) ++ new). rewrite app_assoc.
      split; [done|]. rewrite Hsum, length_app, length_fmap. f_equal. lia.
Qed.

(** The polling phase on well-formed rings returns. *)
Lemma tx_burst_poll_total burst s :
  0 < burst < 2 ^ 31 → rings_ok s → 0 ≤ n_pkts s < 2 ^ 31 →
  ∃ r s1, tx_burst_poll burst s = Ret r s1 ∧
          poll_post burst s (Ret r s1) ∧
          th_p <$> threads s1 = th_p <$> threads s ∧
          (∀ pulled pt, r = Some (pulled, pt) → pt = u32 (Z.of_nat (length pulled))).
Proof.
  intros Hb Hok Hn.
  pose proof (rings_ok_poll_ok s Hok) as Hpok.
  pose proof (tx_burst_poll_post burst s Hb Hpok Hn) as Hpost.
  unfold tx_burst_poll in *.
  pose proof (tx_burst_poll_loop_no_bug burst (length (ts s)) 0 [] 0 s Hok) as Hnb.
  pose proof (tx_burst_poll_loop_post burst Hb (length (ts s)) 0 [] 0 s Hpok) as Hl.
  destruct (tx_burst_poll_loop burst (length (ts s)) 0 [] 0 s)
    as [[[full pl] pt0] s0| |] eqn:Hloop; [|done|].
  - apply tx_burst_poll_loop_count in Hloop as (new & Hnew & Hpt0); [|done].
    rewrite app_nil_l in Hnew. subst pl. rewrite Z.add_0_l in Hpt0.
    destruct Hl as ((_&_&_&_&_&_&_&_&_&Hth&_) & _); [lia|unfold nrts; lia|done|].
    cbn [obind] in *. destruct full.
    + eexists _, _. split; [reflexivity|]. split; [exact Hpost|]. split; [done|].
      by intros ? ? [= <- <-].
    + destruct (n_pkts s0 =? 0); eexists _, _; (split; [reflexivity|]);
        (split; [exact Hpost|]); (split; [done|]); [done|].
      by intros ? ? [= <- <-].
  - exfalso. apply Hl; [lia|unfold nrts; lia|done].
Qed.

(** What the polling and the segmentation of a ready burst give. *)
Lemma tx_burst_ready_poll burst s :
  burst * 50 < 2 ^ 16 → 0 < burst → burst_ready burst s → polled burst s ≠ [] →
  ∃ s1 m',
    tx_burst_poll burst s
      = Ret (Some (polled burst s, Z.of_nat (length (polled burst s)))) s1 ∧
    tx_burst_gso (polled burst s) (shm s) [] = Some (m', burst_segs burst s) ∧
    s1 = poll_state burst s ∧
    n_pkts s1 = Z.of_nat (length (polled burst s)) ∧
    n_bufs s1 = 0 ∧ bufs s1 = bufs s ∧ nic_log s1 = nic_log s ∧ pool s1 = pool s ∧
    mbufs s1 = mbufs s ∧ shm s1 = shm s ∧ procs s1 = procs s ∧ stats s1 = stats s ∧
    th_p <$> threads s1 = th_p <$> threads s ∧
    Forall (fun d : Z * nat =>
              hdr_completion_data m' <$> seg_list (shm s) d.1 = seg_tokens (shm s) d.1 ∧
              hdr_len m' <$> seg_list (shm s) d.1 = seg_lens (shm s) d.1)
      (polled burst s).
Proof.
  intros Hb Hb0 (Hnp & Hnb & Hrings & Hdescs & Hdis & Hmax) Hne.
  assert (Hb31 : 0 < burst < 2 ^ 31).
  { change (2 ^ 16) with 65536 in Hb. change (2 ^ 31) with 2147483648. lia. }
  destruct (tx_burst_poll_total burst s Hb31 Hrings) as (r & s1 & Hpoll & Hpost & Hthr & Hpt).
  { rewrite Hnp. change (2 ^ 31) with 2147483648. lia. }
  assert (Hstate : poll_state burst s = s1) by (unfold poll_state; by rewrite Hpoll).
  unfold burst_segs in *. unfold polled in *. rewrite Hpoll in *.
  destruct r as [[pulled pt]|]; [|done].
  destruct Hpost as (Hnb1&Hbufs1&Hlog1&Hpool1&Hmb1&Hshm1&Hprocs1&Hstats1&Hsum&Hle&_).
  cbn [npulled] in Hsum.
  assert (Hptl : pt = Z.of_nat (length pulled)).
  { rewrite (Hpt pulled pt eq_refl). apply u32_small.
    change (2 ^ 31) with 2147483648 in Hb31. change (2 ^ 32) with 4294967296. lia. }
  subst pt.
  destruct (tx_burst_gso_batch_from (shm s) pulled (shm s) []) as (m' & Hgso & Hres & _).
  { eapply Forall_impl; [exact Hdescs|]. by intros d [? _]. }
  { done. }
  { done. }
  rewrite app_nil_l in Hgso.
  exists s1, m'. split; [done|]. split; [done|]. split; [done|].
  split; [lia|]. split; [lia|]. do 7 (split; [done|]). split; [done|].
  eapply Forall_impl; [exact Hres|]. by intros d (? & ? & _).
Qed.

(** The polling phase goes on to the label [full] only with a buffer to
    send. *)
Lemma tx_burst_poll_some burst s pulled pt s1 :
  0 < burst < 2 ^ 31 → poll_ok s → 0 ≤ n_pkts s < 2 ^ 31 →
  tx_burst_poll burst s = Ret (Some (pulled, pt)) s1 → 0 < n_pkts s1.
Proof.
  intros Hb Hpok Hn. unfold tx_burst_poll.
  pose proof (tx_burst_poll_loop_post burst Hb (length (ts s)) 0 [] 0 s Hpok) as Hl.
  destruct (tx_burst_poll_loop burst (length (ts s)) 0 [] 0 s)
    as [[[full pl] pt0] s0| |]; [|done|done].
  destruct Hl as (_ & _ & (new & _ & Hsum) & _ & Hfull & _);
    [lia|unfold nrts; lia|done|].
  cbn [obind]. destruct full.
  - intros [= _ _ <-]. destruct (Hfull eq_refl). lia.
  - destruct (Z.eqb_spec (n_pkts s0) 0); [done|].
    intros [= _ _ <-]. cbn [n_pkts set_pos]. lia.
Qed.

(** A ready burst that pulls nothing returns false at once. *)
Lemma tx_burst_ready_idle burst accept s :
  burst * 50 < 2 ^ 16 → 0 < burst → burst_ready burst s → polled burst s = [] →
  ∃ s', tx_burst burst accept s = Ret false s' ∧
    n_pkts s' = 0 ∧ n_bufs s' = 0 ∧ bufs s' = bufs s ∧ nic_log s' = nic_log s ∧
    pool s' = pool s ∧ mbufs s' = mbufs s ∧ shm s' = shm s ∧ procs s' = procs s.
Proof.
  intros Hb Hb0 (Hnp & Hnb & Hrings & _) He.
  assert (Hb31 : 0 < burst < 2 ^ 31).
  { change (2 ^ 16) with 65536 in Hb. change (2 ^ 31) with 2147483648. lia. }
  assert (Hn31 : 0 ≤ n_pkts s < 2 ^ 31).
  { rewrite Hnp. change (2 ^ 31) with 2147483648. lia. }
  destruct (tx_burst_poll_total burst s Hb31 Hrings Hn31)
    as (r & s1 & Hpoll & Hpost & _).
  unfold polled in He. rewrite Hpoll in He.
  destruct Hpost as (Hnb1&Hbufs1&Hlog1&Hpool1&Hmb1&Hshm1&Hprocs1&_&Hsum&_&Hnone&_).
  destruct r as [[pulled pt]|].
  - subst pulled. cbn [npulled length] in Hsum.
    pose proof (tx_burst_poll_some burst s [] pt s1 Hb31 (rings_ok_poll_ok s Hrings)
                  Hn31 Hpoll). lia.
  - exists s1. split; [unfold tx_burst; by rewrite Hpoll|].
    split; [by apply Hnone|]. split; [lia|]. done.
Qed.

Lemma burst_segs_pulled burst s : burst_segs burst s ≠ [] → polled burst s ≠ [].
Proof. unfold burst_segs. intros Hne He. by rewrite He in Hne. Qed.

Lemma tx_burst_run_offers burst accept s :
  burst * 50 < 2 ^ 16 → 0 < burst →
  burst_ready burst s → polled burst s ≠ [] →
  (length (burst_segs burst s) ≤ length (pool s))%nat →
  (length (burst_segs burst s) ≤ length (bufs s))%nat →
  Forall (fun b => (b < length (mbufs s))%nat)
    (take (length (burst_segs burst s)) (pool s)) →
  NoDup (take (length (burst_segs burst s)) (pool s)) →
  Forall (seg_ok s) (burst_segs burst s) →
  ∃ s', tx_burst burst accept s = Ret true s' ∧
    nic_log s' = nic_log s ++
      [(take (length (burst_segs burst s)) (pool s),
        Z.max 0 (Z.min accept (Z.of_nat (length (burst_segs burst s)))))] ∧
    pool s' = drop (length (burst_segs burst s)) (pool s) ∧
    (∀ j h t b, burst_segs burst s !! j = Some (h, t) → pool s !! j = Some b →
       ∃ B p, mbufs s' !! b = Some B ∧ th_p <$> threads s !! t = Some p ∧
         buf_addr B = hdr_payload h ∧ pkt_len B = hdr_len (shm s') h ∧
         tx_pktmbuf_get_priv B
           = mk_priv (Some p) (Some t) (hdr_completion_data (shm s') h)) ∧
    Forall (fun d : Z * nat =>
              hdr_completion_data (shm s') <$> seg_list (shm s) d.1
                = seg_tokens (shm s) d.1 ∧
              hdr_len (shm s') <$> seg_list (shm s) d.1 = seg_lens (shm s) d.1)
      (polled burst s) ∧
    (∀ b, b ∉ take (length (burst_segs burst s)) (pool s) →
          mbufs s' !! b = mbufs s !! b) ∧
    (∀ p P, procs s !! p = Some P →
            procs s' !! p
            = Some (set_ref (ref P + refs_taken s (burst_segs burst s) p) P)).
Proof.
  intros Hb Hb0 Hready Hne Hpool Hcap Hvalid Hnd Hsegs.
  destruct (tx_burst_ready_poll burst s Hb Hb0 Hready Hne)
    as (s1 & m' & Hpoll & Hgso & _ & Hnp1 & Hnb1 & Hbufs1 & Hlog1 & Hpool1 & Hmb1 &
        Hshm1 & Hprocs1 & _ & Hthr & Htoks).
  destruct Hready as (Hnp & _ & _ & Hdescs & _ & Hmax).
  set (segs := burst_segs burst s) in *.
  destruct (tx_burst_transmit_offers burst accept 0 (polled burst s)
              (Z.of_nat (length (polled burst s))) s1 m' segs)
    as (s' & Hrun & Hlog & Hpl & Hshm & Htr & Hother & Hrefs);
    try (rewrite ?Hnb1, ?Hbufs1, ?Hpool1, ?Hmb1, ?Hshm1; done || lia).
  { rewrite Hshm1. eapply Forall_impl; [exact Hdescs|]. by intros d [_ ?]. }
  { eapply Forall_impl; [exact Hsegs|]. intros seg. by apply seg_ok_poll. }
  exists s'. split.
  { unfold tx_burst. rewrite Hpoll. cbn [obind]. rewrite Hnp. exact Hrun. }
  rewrite Hnb1, Hlog1, Hpool1 in Hlog. rewrite Hpool1 in Hpl.
  cbn [Z.to_nat take app] in Hlog. rewrite Z.add_0_l in Hlog.
  split; [done|]. split; [done|]. split; [|split; [|split]].
  - intros j h t b Hseg Hpj. rewrite <- Hpool1 in Hpj.
    destruct (Htr j h t b Hseg Hpj) as (B & T & HB & HT & Hrest).
    exists B, (th_p T). split; [done|]. split; [|by rewrite Hshm].
    rewrite <- list_lookup_fmap, <- Hthr, list_lookup_fmap, HT. done.
  - by rewrite Hshm.
  - intros b Hnot. rewrite <- Hmb1. apply Hother. by rewrite Hpool1.
  - intros p P HP. rewrite <- Hprocs1 in HP. rewrite (Hrefs p P HP).
    by rewrite (refs_taken_poll s s1).
Qed.

(** What one [tx_burst] hands to the driver (tx.c, lines 246-386).  The call
    is entered with nothing carried over and rings whose records pass the
    checks of the poller; the descriptors it pulls are well formed (short, or
    with a segment count of at least one and a payload that fills all
    segments but the last), hold in their frames what the logging loop reads
    and lie apart.  When the pool holds enough mbufs, distinct and inside the
    mbuf table, the carry-over array has room, and every segment can be
    attached, [tx_burst] returns.  It returns false, without a call of the
    driver, when it pulled nothing, and true otherwise; then the driver is
    called once, with the first mbufs of the pool, one per segment and in the
    order of the segments.  Those mbufs leave the pool; the mbuf of a segment
    points at the frame of the segment, has its length, and holds in its
    trailer the process of the thread of the segment, that thread, and the
    token of the segment, which is zero except in the last segment of a
    descriptor, where it is the token of the descriptor; no other mbuf is
    written; and every process gains one reference per segment of its
    threads, nothing else of the process record changing. *)
Theorem tx_burst_offers burst accept s :
  burst * 50 < 2 ^ 16 → 0 < burst →
  burst_ready burst s →
  (length (burst_segs burst s) ≤ length (pool s))%nat →
  (length (burst_segs burst s) ≤ length (bufs s))%nat →
  Forall (fun b => (b < length (mbufs s))%nat)
    (take (length (burst_segs burst s)) (pool s)) →
  NoDup (take (length (burst_segs burst s)) (pool s)) →
  Forall (seg_ok s) (burst_segs burst s) →
  ∃ s', tx_burst burst accept s = Ret (bool_decide (polled burst s ≠ [])) s' ∧
    nic_log s' = nic_log s ++
      (if decide (polled burst s = []) then []
       else [(take (length (burst_segs burst s)) (pool s),
              Z.max 0 (Z.min accept (Z.of_nat (length (burst_segs burst s)))))]) ∧
    pool s' = drop (length (burst_segs burst s)) (pool s) ∧
    (∀ j h t b, burst_segs burst s !! j = Some (h, t) → pool s !! j = Some b →
       ∃ B p, mbufs s' !! b = Some B ∧ th_p <$> threads s !! t = Some p ∧
         buf_addr B = hdr_payload h ∧ pkt_len B = hdr_len (shm s') h ∧
         tx_pktmbuf_get_priv B
           = mk_priv (Some p) (Some t) (hdr_completion_data (shm s') h)) ∧
    Forall (fun d : Z * nat =>
              hdr_completion_data (shm s') <$> seg_list (shm s) d.1
                = seg_tokens (shm s) d.1 ∧
              hdr_len (shm s') <$> seg_list (shm s) d.1 = seg_lens (shm s) d.1)
      (polled burst s) ∧
    (∀ b, b ∉ take (length (burst_segs burst s)) (pool s) →
          mbufs s' !! b = mbufs s !! b) ∧
    (∀ p P, procs s !! p = Some P →
            procs s' !! p
            = Some (set_ref (ref P + refs_taken s (burst_segs burst s) p) P)).
Proof.
  intros Hb Hb0 Hready Hpool Hcap Hvalid Hnd Hsegs.
  destruct (decide (polled burst s = [])) as [He|Hne].
  - destruct (tx_burst_ready_idle burst accept s Hb Hb0 Hready He)
      as (s' & Hrun & _ & _ & _ & Hlog & Hpl & Hmb & _ & Hprocs).
    exists s'. rewrite bool_decide_eq_false_2 by (by intros H).
    unfold burst_segs. rewrite He. cbn [batch_segs fmap list_fmap concat length take drop].
    split; [exact Hrun|]. split; [by rewrite app_nil_r|]. split; [done|].
    split; [by intros j h t b [=]|]. split; [by apply Forall_nil_2|].
    split; [intros b _; by rewrite Hmb|].
    intros p P HP. rewrite Hprocs, HP. f_equal.
    unfold refs_taken. cbn [filter list_filter length]. destruct P. unfold set_ref. simpl.
    by rewrite Z.add_0_r.
  - destruct (tx_burst_run_offers burst accept s)
      as (s' & Hrun & Hlog & Hpl & Htr & Htoks & Hother & Hrefs); try done.
    exists s'. rewrite bool_decide_eq_true_2 by done.
    split; [exact Hrun|]. split; [exact Hlog|]. split; [exact Hpl|].
    split; [exact Htr|]. split; [exact Htoks|]. split; [exact Hother|exact Hrefs].
Qed.

Lemma polled_gso_iok : polled 4 gso_iok = [(1000, 0%nat)].
Proof. vm_compute. reflexivity. Qed.

Lemma burst_segs_gso_iok :
  burst_segs 4 gso_iok = [(1000, 0%nat); (2518, 0%nat); (4036, 0%nat)].
Proof. unfold burst_segs. rewrite polled_gso_iok. vm_compute. reflexivity. Qed.

Lemma burst_ready_gso_iok : burst_ready 4 gso_iok.
Proof.
  split; [reflexivity|]. split; [reflexivity|]. split; [|split; [|split]].
  - repeat constructor; eexists _, bp_proc;
      (split; [reflexivity|]); (split; [reflexivity|]);
      repeat constructor; by eexists.
  - rewrite polled_gso_iok. constructor; [|constructor]. split.
    + right. split; vm_compute; discriminate.
    + split; [vm_compute; discriminate|]. right. vm_compute. discriminate.
  - rewrite polled_gso_iok. split; [constructor|exact I].
  - rewrite burst_segs_gso_iok. vm_compute. discriminate.
Qed.

Lemma seg_ok_gso_iok : Forall (seg_ok gso_iok) (burst_segs 4 gso_iok).
Proof.
  rewrite burst_segs_gso_iok.
  repeat constructor; exists (mk_thread 0 true [] 8 [(TXPKT_NET_XMIT, 1000)]), bp_proc;
    (split; [reflexivity|]); (split; [reflexivity|]); exists (2 ^ 30); vm_compute; reflexivity.
Qed.

Lemma tx_burst_offers_witness :
  polled 4 gso_iok = [(1000, 0%nat)] ∧
  ∃ s', tx_burst 4 4 gso_iok = Ret (bool_decide (polled 4 gso_iok ≠ [])) s' ∧
    nic_log s' = nic_log gso_iok ++
      (if decide (polled 4 gso_iok = []) then []
       else [(take (length (burst_segs 4 gso_iok)) (pool gso_iok),
              Z.max 0 (Z.min 4 (Z.of_nat (length (burst_segs 4 gso_iok)))))]) ∧
    pool s' = drop (length (burst_segs 4 gso_iok)) (pool gso_iok) ∧
    (∀ j h t b, burst_segs 4 gso_iok !! j = Some (h, t) → pool gso_iok !! j = Some b →
       ∃ B p, mbufs s' !! b = Some B ∧ th_p <$> threads gso_iok !! t = Some p ∧
         buf_addr B = hdr_payload h ∧ pkt_len B = hdr_len (shm s') h ∧
         tx_pktmbuf_get_priv B
           = mk_priv (Some p) (Some t) (hdr_completion_data (shm s') h)) ∧
    Forall (fun d : Z * nat =>
              hdr_completion_data (shm s') <$> seg_list (shm gso_iok) d.1
                = seg_tokens (shm gso_iok) d.1 ∧
              hdr_len (shm s') <$> seg_list (shm gso_iok) d.1 = seg_lens (shm gso_iok) d.1)
      (polled 4 gso_iok) ∧
    (∀ b, b ∉ take (length (burst_segs 4 gso_iok)) (pool gso_iok) →
          mbufs s' !! b = mbufs gso_iok !! b) ∧
    (∀ p P, procs gso_iok !! p = Some P →
            procs s' !! p
            = Some (set_ref (ref P + refs_taken gso_iok (burst_segs 4 gso_iok) p) P)).
Proof.
  split; [exact polled_gso_iok|].
  apply (tx_burst_offers 4 4 gso_iok).
  - vm_compute. reflexivity.
  - lia.
  - exact burst_ready_gso_iok.
  - rewrite burst_segs_gso_iok. vm_compute. lia.
  - rewrite burst_segs_gso_iok. vm_compute. lia.
  - rewrite burst_segs_gso_iok. repeat constructor; vm_compute; lia.
  - rewrite burst_segs_gso_iok. apply (bool_decide_unpack _). vm_compute. exact I.
  - exact seg_ok_gso_iok.
Defined.

(** ** A call entered with buffers carried over *)

(** The logging loop after a short enqueue (tx.c, lines 246-291).  A
    [tx_burst] entered with buffers carried over, on rings whose records pass
    the checks of the poller, has no defined result: whatever it pulls, it
    reaches the logging loop, whose first round passes [hdrs[0]] to
    [print_pkt_contents]; [hdrs] is an automatic array of which this call
    wrote only the slots from [n_pkts] on. *)
Theorem tx_burst_carried_over_undefined burst accept s :
  0 < burst < 2 ^ 31 → rings_ok s → 0 < n_pkts s < 2 ^ 31 →
  tx_burst burst accept s = Undef.
Proof.
  intros Hb Hrings Hn.
  destruct (tx_burst_poll_total burst s Hb Hrings ltac:(lia))
    as (r & s1 & Hpoll & Hpost & _).
  destruct Hpost as (_&_&_&_&_&_&_&_&Hsum&_&Hnone&_).
  unfold tx_burst. rewrite Hpoll. cbn [obind].
  destruct r as [[pulled pt]|].
  - apply tx_burst_transmit_carried; [lia|]. cbn [npulled] in Hsum. lia.
  - cbn [npulled] in Hsum. specialize (Hnone eq_refl). lia.
Qed.

Lemma rings_ok_bp3_after : rings_ok bp3_after.
Proof.
  unfold rings_ok. replace (ts bp3_after) with [0%nat] by (vm_compute; reflexivity).
  constructor; [|constructor].
  exists (mk_thread 0 true [] 8 []), (set_ref 4 bp_proc).
  split; [vm_compute; reflexivity|]. split; [vm_compute; reflexivity|]. constructor.
Qed.

Lemma tx_burst_carried_over_undefined_witness :
  rings_ok bp3_after ∧ n_pkts bp3_after = 2 ∧ tx_burst 4 4 bp3_after = Undef.
Proof.
  split; [exact rings_ok_bp3_after|]. split; [vm_compute; reflexivity|].
  apply (tx_burst_carried_over_undefined 4 4 bp3_after).
  - lia.
  - exact rings_ok_bp3_after.
  - replace (n_pkts bp3_after) with 2 by (vm_compute; reflexivity). lia.
Defined.

(** ** When the pool runs dry *)

Lemma tx_burst_transmit_pool_empty burst accept n0 pulled pt s m' segs :
  n0 = 0 → n_bufs s = n0 →
  n_pkts s = Z.of_nat (length pulled) →
  Forall (fun d : Z * nat => log_ok (shm s) d.1) pulled →
  tx_burst_gso pulled (shm s) [] = Some (m', segs) →
  n_bufs s + Z.of_nat (length segs) ≤ burst * 50 →
  (length (pool s) < length segs)%nat →
  tx_burst_transmit burst accept n0 pulled pt s
  = Ret true
      (STAT_INC TX_COMPLETION_FAIL (Z.of_nat (length segs))
         (set_n_pkts (n_bufs s + Z.of_nat (length segs))
            (set_shm m'
               (set_stats (alter (fun x => u64 (x + pt)) (stat_idx TX_PULLED) (stats s)) s)))).
Proof.
  intros Hz Hn0 Hnp Hlogok Hgso Hmax Hpool. subst n0.
  unfold tx_burst_transmit. cbn [n_bufs n_pkts set_stats shm].
  destruct (tx_burst_print_ok pulled (shm s) (Z.to_nat (n_pkts s)) 0) as [ws Hws];
    [lia|lia|done|].
  rewrite Hws. cbn [of_option].
  case_decide; [lia|].
  replace (Z.to_nat (n_bufs s - 0)) with 0%nat by lia.
  rewrite drop_0, Hgso. cbn [of_option]. unfold TX_MAX_SEGS.
  cbn [n_bufs n_pkts pool bufs nic_log set_n_pkts set_shm set_stats set_pool set_bufs].
  case_decide as Hm; [lia|].
  case_decide as Hshort; [|lia].
  do 2 f_equal. lia.
Qed.

(** A failed allocation (tx.c, lines 350-358).  The call is entered with
    nothing carried over and rings whose records pass the checks of the
    poller; the descriptors it pulls are well formed, hold in their frames
    what the logging loop reads and lie apart.  When the pool holds fewer
    mbufs than the segments of this call need, [tx_burst] takes none of
    them: it returns true without
    calling the driver; the pool, the mbufs, the process records (no
    reference is taken) and the carry-over array are as they were; the
    counter TX_COMPLETION_FAIL grows by the number of segments and TX_PULLED
    by the number of descriptors pulled.  The descriptors are gone from the
    rings, shared memory holds their segmentation, and [n_pkts] is left at
    the number of segments while [n_bufs] is still zero. *)
Theorem tx_burst_pool_empty burst accept s :
  burst * 50 < 2 ^ 16 → 0 < burst →
  burst_ready burst s →
  (length (pool s) < length (burst_segs burst s))%nat →
  ∃ s', tx_burst burst accept s = Ret true s' ∧
    nic_log s' = nic_log s ∧ pool s' = pool s ∧ mbufs s' = mbufs s ∧
    procs s' = procs s ∧ bufs s' = bufs s ∧
    threads s' = threads (poll_state burst s) ∧
    n_bufs s' = 0 ∧
    n_pkts s' = Z.of_nat (length (burst_segs burst s)) ∧
    Forall (fun d : Z * nat =>
              hdr_completion_data (shm s') <$> seg_list (shm s) d.1
                = seg_tokens (shm s) d.1 ∧
              hdr_len (shm s') <$> seg_list (shm s) d.1 = seg_lens (shm s) d.1)
      (polled burst s) ∧
    stats s' = alter (fun x => u64 (x + Z.of_nat (length (burst_segs burst s))))
                 (stat_idx TX_COMPLETION_FAIL)
                 (alter (fun x => u64 (x + Z.of_nat (length (polled burst s))))
                    (stat_idx TX_PULLED) (stats s)).
Proof.
  intros Hb Hb0 Hready Hpool.
  assert (Hne : polled burst s ≠ []).
  { apply burst_segs_pulled. intros He. rewrite He in Hpool. simpl in Hpool. lia. }
  destruct (tx_burst_ready_poll burst s Hb Hb0 Hready Hne)
    as (s1 & m' & Hpoll & Hgso & Hstate & Hnp1 & Hnb1 & Hbufs1 & Hlog1 & Hpool1 & Hmb1 &
        Hshm1 & Hprocs1 & Hstats1 & _ & Htoks).
  destruct Hready as (Hnp & _ & _ & Hdescs & _ & Hmax).
  eexists. split.
  { unfold tx_burst. rewrite Hpoll. cbn [obind]. rewrite Hnp.
    apply (tx_burst_transmit_pool_empty burst accept 0 (polled burst s) _ s1 m'
             (burst_segs burst s));
      rewrite ?Hnb1, ?Hshm1, ?Hpool1; try (done || lia).
    eapply Forall_impl; [exact Hdescs|]. by intros d [_ ?]. }
  cbn [STAT_INC nic_log pool mbufs procs bufs threads n_bufs n_pkts shm stats
       set_stats set_n_pkts set_shm].
  rewrite Hnb1, Hstats1, <- Hstate, Z.add_0_l. repeat split; done.
Qed.

Lemma polled_starved_iok : polled 4 starved_iok = [(1000, 0%nat)].
Proof. vm_compute. reflexivity. Qed.

Lemma burst_segs_starved_iok :
  burst_segs 4 starved_iok = [(1000, 0%nat); (2518, 0%nat); (4036, 0%nat)].
Proof. unfold burst_segs. rewrite polled_starved_iok. vm_compute. reflexivity. Qed.

Lemma burst_ready_starved_iok : burst_ready 4 starved_iok.
Proof.
  split; [reflexivity|]. split; [reflexivity|]. split; [|split; [|split]].
  - repeat constructor; eexists _, bp_proc;
      (split; [reflexivity|]); (split; [reflexivity|]);
      repeat constructor; by eexists.
  - rewrite polled_starved_iok. constructor; [|constructor]. split.
    + right. split; vm_compute; discriminate.
    + split; [vm_compute; discriminate|]. right. vm_compute. discriminate.
  - rewrite polled_starved_iok. split; [constructor|exact I].
  - rewrite burst_segs_starved_iok. vm_compute. discriminate.
Qed.

Lemma tx_burst_pool_empty_witness :
  ∃ s', tx_burst 4 4 starved_iok = Ret true s' ∧
    nic_log s' = nic_log starved_iok ∧ pool s' = pool starved_iok ∧
    mbufs s' = mbufs starved_iok ∧
    procs s' = procs starved_iok ∧ bufs s' = bufs starved_iok ∧
    threads s' = threads (poll_state 4 starved_iok) ∧
    n_bufs s' = 0 ∧
    n_pkts s' = Z.of_nat (length (burst_segs 4 starved_iok)) ∧
    Forall (fun d : Z * nat =>
              hdr_completion_data (shm s') <$> seg_list (shm starved_iok) d.1
                = seg_tokens (shm starved_iok) d.1 ∧
              hdr_len (shm s') <$> seg_list (shm starved_iok) d.1
                = seg_lens (shm starved_iok) d.1)
      (polled 4 starved_iok) ∧
    stats s' = alter (fun x => u64 (x + Z.of_nat (length (burst_segs 4 starved_iok))))
                 (stat_idx TX_COMPLETION_FAIL)
                 (alter (fun x => u64 (x + Z.of_nat (length (polled 4 starved_iok))))
                    (stat_idx TX_PULLED) (stats starved_iok)).
Proof.
  apply (tx_burst_pool_empty 4 4 starved_iok).
  - vm_compute. reflexivity.
  - lia.
  - exact burst_ready_starved_iok.
  - rewrite burst_segs_starved_iok. vm_compute. lia.
Defined.

(** ** Nothing to send *)

(** The early return of [tx_burst] (tx.c, lines 258-274).  A call that
    returns false had nothing carried over and pulled nothing; it did not
    call the driver and left the polling cursor, the counters, the process
    records, shared memory, the mbufs, the pool and the carry-over array as
    they were.  A call entered with carried-over buffers never returns
    false. *)
Theorem tx_burst_nothing_to_send burst accept s b s' :
  burst * 50 < 2 ^ 16 → 0 < burst →
  poll_ok s → 0 ≤ n_pkts s < 2 ^ 31 → 0 ≤ n_bufs s →
  tx_burst burst accept s = Ret b s' →
  (b = false →
     n_pkts s = 0 ∧ n_pkts s' = 0 ∧ pos s' = pos s ∧ nic_log s' = nic_log s ∧
     stats s' = stats s ∧ procs s' = procs s ∧ shm s' = shm s ∧
     mbufs s' = mbufs s ∧ pool s' = pool s ∧ bufs s' = bufs s ∧
     n_bufs s' = n_bufs s) ∧
  (0 < n_pkts s → b = true).
Proof.
  intros Hb Hb0 Hok Hn Hnb Hrun.
  assert (Hb31 : 0 < burst < 2 ^ 31).
  { change (2 ^ 16) with 65536 in Hb. change (2 ^ 31) with 2147483648. lia. }
  pose proof (tx_burst_poll_post burst s Hb31 Hok Hn) as Hpost.
  unfold tx_burst in Hrun.
  destruct (tx_burst_poll burst s) as [r s1| |]; [|done|done].
  destruct Hpost as (Hnb1&Hbufs1&Hlog1&Hpool1&Hmb1&Hshm1&Hprocs1&Hstats1&Hsum&_&Hnone&Hpos&_).
  cbn [obind] in Hrun. destruct r as [[pulled pt]|].
  - pose proof (tx_burst_transmit_post burst accept (n_pkts s) pulled pt s1 Hb) as Ht.
    rewrite Hrun in Ht. destruct Ht as (-> & _); [lia|]. by split.
  - injection Hrun as <- <-. specialize (Hnone eq_refl). simpl in Hsum.
    split; [|lia]. intros _.
    rewrite Hpos. rewrite decide_False by lia.
    repeat split; try done. lia.
Qed.

Lemma tx_burst_nothing_to_send_witness :
  tx_burst 4 4 (bp_state []) = Ret false (bp_state []) ∧
  (false = false →
     n_pkts (bp_state []) = 0 ∧ n_pkts (bp_state []) = 0 ∧
     pos (bp_state []) = pos (bp_state []) ∧
     nic_log (bp_state []) = nic_log (bp_state []) ∧
     stats (bp_state []) = stats (bp_state []) ∧
     procs (bp_state []) = procs (bp_state []) ∧
     shm (bp_state []) = shm (bp_state []) ∧
     mbufs (bp_state []) = mbufs (bp_state []) ∧
     pool (bp_state []) = pool (bp_state []) ∧
     bufs (bp_state []) = bufs (bp_state []) ∧
     n_bufs (bp_state []) = n_bufs (bp_state [])) ∧
  (0 < n_pkts (bp_state []) → false = true).
Proof.
  assert (H1 : tx_burst 4 4 (bp_state []) = Ret false (bp_state [])).
  { vm_compute. reflexivity. }
  split; [exact H1|].
  apply (tx_burst_nothing_to_send 4 4 (bp_state []) false (bp_state [])).
  - vm_compute. reflexivity.
  - lia.
  - apply poll_ok_bp_state.
  - vm_compute. split; [discriminate|reflexivity].
  - vm_compute. discriminate.
  - exact H1.
Defined.

(** ** Draining the overflow queues *)

Lemma lrpc_send_frame t cmd pl s b s1 :
  lrpc_send t cmd pl s = Some (b, s1) →
  procs s1 = procs s ∧ stats s1 = stats s ∧ clients s1 = clients s ∧
  drain_pos s1 = drain_pos s ∧ length (threads s1) = length (threads s).
Proof.
  unfold lrpc_send. destruct (threads s !! t) as [T|]; [simpl|done].
  case_decide; intros [= <- <-]; repeat split. simpl. apply length_alter.
Qed.

Lemma rx_send_to_runtime_frame p hash cmd pl s b s1 :
  rx_send_to_runtime p hash cmd pl s = Some (b, s1) →
  procs s1 = procs s ∧ stats s1 = stats s ∧ clients s1 = clients s ∧
  drain_pos s1 = drain_pos s ∧ length (threads s1) = length (threads s).
Proof.
  unfold rx_send_to_runtime. destruct (procs s !! p) as [P|]; [simpl|done].
  destruct (p_threads P) as [|t0 l] eqn:Hl.
  { by intros [= <- <-]. }
  destruct (_ !! _) as [t|]; [simpl|done]. apply lrpc_send_frame.
Qed.

Lemma drain_rel_refl p s : drain_rel p s s.
Proof.
  repeat split. intros q P HP. exists (nr_overflows P), (next_thread_rr P).
  rewrite HP. split; [by destruct P|]. done.
Qed.

Lemma drain_rel_trans p s s1 s2 :
  drain_rel p s s1 → drain_rel p s1 s2 → drain_rel p s s2.
Proof.
  intros (?&?&?&?&?&Hp1) (?&?&?&?&?&Hp2).
  split; [congruence|]. split; [congruence|]. split; [congruence|].
  split; [congruence|]. split; [congruence|].
  intros q P HP. destruct (Hp1 q P HP) as (k1 & rr1 & HP1 & Hk1 & Hq1).
  destruct (Hp2 q _ HP1) as (k2 & rr2 & HP2 & Hk2 & Hq2).
  exists k2, rr2. split; [by rewrite HP2|]. simpl in Hk2, Hq2.
  split; [lia|]. intros Hne. rewrite Hq2, Hq1; done.
Qed.

Lemma drain_rel_upd p s s1 s' (g : proc → nat) (h : proc → Z) :
  procs s1 = alter (fun P' => set_nr_overflows (g P') (set_next_thread_rr (h P') P')) p
               (procs s) →
  (∀ P, procs s !! p = Some P → (g P ≤ nr_overflows P)%nat) →
  stats s1 = stats s → clients s1 = clients s → drain_pos s1 = drain_pos s →
  length (threads s1) = length (threads s) →
  drain_rel p s1 s' → drain_rel p s s'.
Proof.
  intros Hprocs Hg Hst Hcl Hdp Hth Hrel.
  eapply drain_rel_trans; [|exact Hrel].
  split; [done|]. split; [done|]. split; [done|]. split; [done|].
  split; [by rewrite Hprocs, length_alter|].
  intros q P HP. rewrite Hprocs. destruct (decide (q = p)) as [->|Hne].
  - exists (g P), (h P). rewrite list_lookup_alter_eq, HP. split; [done|].
    split; [by apply Hg|done].
  - exists (nr_overflows P), (next_thread_rr P).
    rewrite list_lookup_alter_ne by done. rewrite HP. split; [by destruct P|]. done.
Qed.

Lemma drain_overflow_loop_rel fuel : ∀ p n i s i' s',
  drain_overflow_loop fuel p n i s = Some (i', s') → drain_rel p s s'.
Proof.
  induction fuel as [|fuel IH]; intros p n i s i' s'; simpl.
  - destruct (procs s !! p) as [P|]; [simpl|done].
    case_decide; [done|]. intros [= _ <-]. apply drain_rel_refl.
  - destruct (procs s !! p) as [P|] eqn:HP; [simpl|done].
    case_decide as Hc; cycle 1.
    { intros [= _ <-]. apply drain_rel_refl. }
    destruct (overflow_queue P !! pred (nr_overflows P)) as [tok|]; [simpl|done].
    destruct (rx_send_to_runtime p (next_thread_rr P) RX_NET_COMPLETE tok _)
      as [[sent s2]|] eqn:Hsend; [simpl|done].
    apply rx_send_to_runtime_frame in Hsend as (Hprocs & Hst & Hcl & Hdp & Hth).
    simpl in Hprocs, Hst, Hcl, Hdp, Hth.
    destruct sent.
    + intros Hrun. apply IH in Hrun.
      eapply (drain_rel_upd p s s2 s' (fun P' => pred (nr_overflows P'))
                (fun P' => u32 (next_thread_rr P' + 1))); try done.
      intros P0 _. lia.
    + intros [= _ <-].
      split; [done|]. split; [done|]. split; [done|]. split; [done|].
      split; [simpl; by rewrite length_alter, Hprocs, length_alter|].
      intros q P0 HP0. simpl. rewrite Hprocs.
      destruct (decide (q = p)) as [->|Hne].
      * rewrite HP in HP0. injection HP0 as <-.
        exists (nr_overflows P), (u32 (next_thread_rr P + 1)).
        rewrite !list_lookup_alter_eq, HP. simpl.
        split; [|done]. f_equal. unfold set_nr_overflows, set_next_thread_rr. simpl.
        f_equal. lia.
      * exists (nr_overflows P0), (next_thread_rr P0).
        rewrite !list_lookup_alter_ne by done. rewrite HP0.
        split; [by destruct P0|]. done.
Qed.

Lemma overflow_of_drained k rr P :
  overflow_of (set_nr_overflows k (set_next_thread_rr rr P))
  = take k (overflow_queue P).
Proof. reflexivity. Qed.

Lemma drain_rel_proc_ok p s s' :
  drain_rel p s s' → Forall (proc_ok s) (procs s) → Forall (proc_ok s') (procs s').
Proof.
  intros (_&_&_&Hth&Hlen&Hrel) Hok. rewrite Forall_lookup in Hok |- *.
  intros q P' HP'.
  destruct (lookup_lt_is_Some_2 (procs s) q) as [P HP].
  { rewrite <- Hlen. by eapply lookup_lt_Some. }
  destruct (Hrel q P HP) as (k & rr & HP1 & Hk & _).
  rewrite HP' in HP1. injection HP1 as ->.
  destruct (Hok q P HP) as (Hths & Hnr & Hoq).
  split; [|split; simpl; [lia|done]]. simpl.
  eapply Forall_impl; [exact Hths|]. intros t. simpl.
  rewrite !lookup_lt_is_Some. lia.
Qed.

Lemma drain_rel_clients_ok p s s' :
  drain_rel p s s' → clients_ok s → clients_ok s'.
Proof.
  intros Hrel [Hcl Hok]. split; [|by eapply drain_rel_proc_ok].
  destruct Hrel as (_&Hc&_&_&Hlen&_). rewrite Hc.
  eapply Forall_impl; [exact Hcl|]. intros q. simpl.
  rewrite !lookup_lt_is_Some. lia.
Qed.

Lemma concat_insert_perm {A} (l : list (list A)) x' d : ∀ p,
  l !! p = Some (x' ++ d) → concat l ≡ₚ concat (<[p := x']> l) ++ d.
Proof.
  induction l as [|a l IH]; intros [|p] Hp; simpl in *; try done.
  - injection Hp as ->. rewrite <- !app_assoc. f_equiv. apply Permutation_app_comm.
  - rewrite <- app_assoc. f_equiv. by apply IH.
Qed.

Lemma drain_rel_queued p s s' P P' d :
  drain_rel p s s' →
  procs s !! p = Some P → procs s' !! p = Some P' →
  overflow_of P = overflow_of P' ++ d →
  queued s ≡ₚ queued s' ++ d.
Proof.
  intros (_&_&_&_&Hlen&Hrel) HP HP' Hov. unfold queued.
  assert (Heq : overflow_of <$> procs s'
                = <[p := overflow_of P']> (overflow_of <$> procs s)).
  { apply list_eq. intros q. rewrite list_lookup_fmap.
    destruct (decide (q = p)) as [->|Hne].
    - rewrite list_lookup_insert_eq.
      + by rewrite HP'.
      + rewrite length_fmap. by eapply lookup_lt_Some.
    - rewrite list_lookup_insert_ne by done. rewrite list_lookup_fmap.
      destruct (procs s !! q) as [Q|] eqn:HQ.
      + destruct (Hrel q Q HQ) as (k & rr & -> & _ & Hk). simpl.
        rewrite overflow_of_drained, (Hk Hne). done.
      + apply lookup_ge_None in HQ. rewrite <- Hlen in HQ.
        apply lookup_ge_None in HQ. by rewrite HQ. }
  rewrite Heq. apply concat_insert_perm.
  rewrite list_lookup_fmap, HP. simpl. by rewrite Hov.
Qed.

Lemma tx_drain_completions_loop_spec batch : ∀ k i drained s,
  clients_ok s → (k ≤ length (clients s))%nat → 0 ≤ drained →
  ∃ drained' s' del,
    tx_drain_completions_loop batch k i drained s = Some (drained', s') ∧
    log_tokens s' = log_tokens s ++ del ∧
    queued s ≡ₚ queued s' ++ del ∧
    drained' = drained + Z.of_nat (length del) ∧
    drained' ≤ Z.max drained batch ∧
    stats s' = stats s ∧ drain_pos s' = drain_pos s.
Proof.
  induction k as [|k IH]; intros i drained s Hok Hk Hd.
  - exists drained, s, []. simpl. rewrite !app_nil_r. repeat split; auto; lia.
  - cbn [tx_drain_completions_loop]. case_decide as Hlt; cycle 1.
    { exists drained, s, []. simpl. rewrite !app_nil_r. repeat split; auto; lia. }
    destruct (lookup_lt_is_Some_2 (clients s)
                (Z.to_nat (u64 (drain_pos s + i) mod Z.of_nat (length (clients s)))))
      as [p Hp].
    { pose proof (Z.mod_pos_bound (u64 (drain_pos s + i)) (Z.of_nat (length (clients s)))).
      lia. }
    rewrite Hp. cbn [mbind option_bind].
    pose proof Hok as [Hcl Hpr].
    rewrite Forall_forall in Hcl.
    destruct (Hcl p) as [P HP]; [by eapply list_elem_of_lookup_2|].
    assert (HPok : proc_ok s P).
    { rewrite Forall_forall in Hpr. apply Hpr. by eapply list_elem_of_lookup_2. }
    destruct (drain_overflow_queue_spec p (batch - drained) s P HP HPok)
      as (d & s1 & P' & del1 & Hrun & HP' & Hlog1 & Hov1 & Hd1 & Hle1).
    assert (Hrel : drain_rel p s s1).
    { unfold drain_overflow_queue in Hrun. rewrite HP in Hrun. simpl in Hrun.
      by eapply drain_overflow_loop_rel. }
    rewrite Hrun. cbn [mbind option_bind].
    pose proof Hrel as (Hst1&Hcl1&Hdp1&_).
    destruct (IH (i + 1) (drained + d) s1)
      as (drained' & s' & del2 & Hrun2 & Hlog2 & Hq2 & Hd2 & Hle2 & Hst2 & Hdp2).
    { by eapply drain_rel_clients_ok. }
    { rewrite Hcl1. lia. }
    { lia. }
    exists drained', s', (del1 ++ del2). split; [done|].
    split; [by rewrite Hlog2, Hlog1, app_assoc|].
    split.
    { rewrite (drain_rel_queued p s s1 P P' (rev del1) Hrel HP HP' Hov1).
      rewrite Hq2, <- app_assoc. f_equiv.
      rewrite Permutation_app_comm. f_equiv. symmetry. apply Permutation_rev. }
    split; [rewrite length_app; lia|]. split; [lia|].
    split; congruence.
Qed.

(** What [tx_drain_completions] delivers (tx.c, lines 162-194).  When every
    client is a process of the table and every process record is well
    formed, the call returns.  The tokens it hands to the rings were all
    waiting in overflow queues, and together with the tokens still waiting
    they are the tokens that waited before: none is lost, none is
    duplicated, none is invented.  At most IOKERNEL_OVERFLOW_BATCH_DRAIN
    tokens are delivered in one call; the result is true exactly when at
    least one was; the static cursor advances by one whatever happened; and
    the counter COMPLETION_DRAINED grows by the number delivered. *)
Theorem tx_drain_completions_conserves batch s :
  0 ≤ batch → clients_ok s →
  ∃ r s' delivered,
    tx_drain_completions batch s = Some (r, s') ∧
    log_tokens s' = log_tokens s ++ delivered ∧
    queued s ≡ₚ queued s' ++ delivered ∧
    Z.of_nat (length delivered) ≤ batch ∧
    r = bool_decide (0 < Z.of_nat (length delivered)) ∧
    drain_pos s' = u64 (drain_pos s + 1) ∧
    stats s' = alter (fun x => u64 (x + Z.of_nat (length delivered)))
                 (stat_idx COMPLETION_DRAINED) (stats s).
Proof.
  intros Hb Hok.
  destruct (tx_drain_completions_loop_spec batch (length (clients s)) 0 0 s Hok)
    as (drained & s1 & del & Hrun & Hlog & Hq & Hd & Hle & Hst & Hdp); [lia|lia|].
  unfold tx_drain_completions. rewrite Hrun. cbn [mbind option_bind].
  eexists _, _, del. split; [reflexivity|].
  assert (Hdr : drained = Z.of_nat (length del)) by lia. subst drained.
  split; [done|]. split; [done|]. split; [lia|]. split; [done|].
  cbn [drain_pos stats STAT_INC set_stats set_drain_pos]. rewrite Hdp, Hst. done.
Qed.

Lemma tx_drain_completions_conserves_witness :
  ∃ r s' delivered,
    tx_drain_completions 2 drain_iok = Some (r, s') ∧
    log_tokens s' = log_tokens drain_iok ++ delivered ∧
    queued drain_iok ≡ₚ queued s' ++ delivered ∧
    Z.of_nat (length delivered) ≤ 2 ∧
    r = bool_decide (0 < Z.of_nat (length delivered)) ∧
    drain_pos s' = u64 (drain_pos drain_iok + 1) ∧
    stats s' = alter (fun x => u64 (x + Z.of_nat (length delivered)))
                 (stat_idx COMPLETION_DRAINED) (stats drain_iok).
Proof.
  apply (tx_drain_completions_conserves 2 drain_iok).
  - lia.
  - split.
    + repeat constructor; by eexists.
    + repeat constructor; simpl; try lia; by eexists.
Defined.

(** ** In-place scrambling *)

Lemma byte_of_lxor x y k :
  0 ≤ k →
  (Z.lxor x y / 2 ^ k) mod 256 = Z.lxor ((x / 2 ^ k) mod 256) ((y / 2 ^ k) mod 256).
Proof.
  intros Hk. change 256 with (2 ^ 8). apply Z.bits_inj'. intros n Hn.
  rewrite Z.lxor_spec, !Z.testbit_mod_pow2 by lia.
  rewrite !Z.div_pow2_bits by lia. rewrite Z.lxor_spec.
  by destruct (n <? 8).
Qed.

Lemma store32_byte m a v i :
  0 ≤ i < 4 → store32 m a v (a + i) = (v / 2 ^ (8 * i)) mod 256.
Proof.
  intros Hi. unfold store32, store16, store8.
  assert (Hcases : i = 0 ∨ i = 1 ∨ i = 2 ∨ i = 3) by lia.
  destruct Hcases as [-> | [-> | [-> | ->]]];
    repeat match goal with
           | |- context [?x =? ?y] => destruct (Z.eqb_spec x y); try lia
           end.
  - by rewrite Z.div_1_r.
  - done.
  - done.
  - rewrite Z.div_div by lia. done.
Qed.

Lemma load32_byte m a i :
  0 ≤ i < 4 → (load32 m a / 2 ^ (8 * i)) mod 256 = load8 m (a + i).
Proof.
  intros Hi. unfold load32, load16.
  replace (a + 2 + 1) with (a + 3) by lia.
  assert (H0 : 0 ≤ load8 m a < 256) by apply load8_range.
  assert (H1 : 0 ≤ load8 m (a + 1) < 256) by apply load8_range.
  assert (H2 : 0 ≤ load8 m (a + 2) < 256) by apply load8_range.
  assert (H3 : 0 ≤ load8 m (a + 3) < 256) by apply load8_range.
  change (2 ^ 8) with 256. change (2 ^ 16) with 65536.
  assert (Hcases : i = 0 ∨ i = 1 ∨ i = 2 ∨ i = 3) by lia.
  destruct Hcases as [-> | [-> | [-> | ->]]].
  - change (2 ^ (8 * 0)) with 1. rewrite Z.add_0_r. Z.div_mod_to_equations. lia.
  - change (2 ^ (8 * 1)) with 256. Z.div_mod_to_equations. lia.
  - change (2 ^ (8 * 2)) with 65536. Z.div_mod_to_equations. lia.
  - change (2 ^ (8 * 3)) with 16777216. Z.div_mod_to_equations. lia.
Qed.

Lemma load8_idemp m a : load8 m a mod 256 = load8 m a.
Proof. apply Z.mod_small, load8_range. Qed.

Lemma xor_word_byte m a i :
  0 ≤ i < 4 →
  load8 (store32 m a (Z.lxor (load32 m a) XOR_SALT)) (a + i)
  = Z.lxor (load8 m (a + i)) (salt_byte i).
Proof.
  intros Hi. unfold load8 at 1. rewrite store32_byte by done.
  rewrite Z.mod_mod by lia. rewrite byte_of_lxor by lia.
  by rewrite load32_byte.
Qed.

Lemma process_in_place_loop_spec : ∀ k fuel addr len ptr m,
  (k ≤ fuel)%nat →
  (k = 0%nat ∨ ptr + 4 * Z.of_nat k < addr + len) →
  addr + len ≤ ptr + 4 * Z.of_nat k + 4 →
  ∃ m', process_in_place_loop fuel addr len ptr m = Some m' ∧
    (∀ j i, 0 ≤ j < Z.of_nat k → 0 ≤ i < 4 →
       load8 m' (ptr + 4 * j + i) = Z.lxor (load8 m (ptr + 4 * j + i)) (salt_byte i)) ∧
    (∀ x, x < ptr ∨ ptr + 4 * Z.of_nat k ≤ x → m' x = m x).
Proof.
  induction k as [|k IH]; intros fuel addr len ptr m Hfuel Hlow Hhigh.
  - exists m. split; [|split; [intros; lia|done]].
    destruct fuel; simpl; case_decide; done || lia.
  - destruct fuel as [|fuel]; [lia|]. simpl process_in_place_loop.
    case_decide; [|lia].
    set (m1 := store32 m ptr (Z.lxor (load32 m ptr) XOR_SALT)).
    destruct (IH fuel addr len (ptr + 4) m1) as (m' & Hrun & Hxor & Hframe);
      [lia|lia|lia|].
    exists m'. split; [done|]. split.
    + intros j i Hj Hi. destruct (decide (j = 0)) as [->|Hne].
      * replace (ptr + 4 * 0 + i) with (ptr + i) by lia.
        unfold load8 at 1. rewrite Hframe by lia.
        fold (load8 m1 (ptr + i)). by apply xor_word_byte.
      * replace (ptr + 4 * j + i) with (ptr + 4 + 4 * (j - 1) + i) by lia.
        rewrite Hxor by lia. f_equal. unfold load8, m1.
        by rewrite store32_out by lia.
    + intros x Hx. rewrite Hframe by lia. unfold m1. apply store32_out. lia.
Qed.

Lemma process_in_place_words_range len :
  0 ≤ len →
  0 ≤ process_in_place_words len ∧
  (0 < len → 1 ≤ len - 4 * process_in_place_words len ≤ 4) ∧
  (len = 0 → process_in_place_words len = 0).
Proof. intros Hlen. unfold process_in_place_words. Z.div_mod_to_equations. lia. Qed.

Lemma process_in_place_run addr len m :
  0 ≤ len →
  ∃ m', process_in_place addr len m = Some m' ∧
    (∀ j i, 0 ≤ j < process_in_place_words len → 0 ≤ i < 4 →
       load8 m' (addr + 4 * j + i)
       = Z.lxor (load8 m (addr + 4 * j + i)) (salt_byte i)) ∧
    (∀ x, x < addr ∨ addr + 4 * process_in_place_words len ≤ x → m' x = m x).
Proof.
  intros Hlen. unfold process_in_place.
  destruct (process_in_place_words_range len Hlen) as (Hw0 & Hw1 & Hw2).
  set (w := process_in_place_words len) in *.
  destruct (process_in_place_loop_spec (Z.to_nat w) (Z.to_nat len) addr len addr m)
    as (m' & Hrun & Hxor & Hframe); [lia|lia|lia|].
  exists m'. split; [done|]. split.
  - intros j i Hj Hi. apply Hxor; lia.
  - intros x Hx. apply Hframe. lia.
Qed.

(** What [process_in_place] scrambles (tx.c, lines 223-228).  For a buffer
    of [len] bytes at [addr] the call returns; it xors the first
    [(len - 1) / 4] whole words of the buffer, byte by byte, with the bytes
    of the salt 4242 (146, 16, 0, 0) and writes no other byte of memory.  The
    loop stops before the word whose end is not strictly below the end of the
    buffer: the last bytes of a buffer that is not empty, between one and
    four of them, are never scrambled, the last whole word of a buffer whose
    length is a multiple of four included. *)
Theorem process_in_place_spec addr len m :
  0 ≤ len →
  ∃ m', process_in_place addr len m = Some m' ∧
    (∀ j i, 0 ≤ j < process_in_place_words len → 0 ≤ i < 4 →
       load8 m' (addr + 4 * j + i)
       = Z.lxor (load8 m (addr + 4 * j + i)) (salt_byte i)) ∧
    (∀ x, x < addr ∨ addr + 4 * process_in_place_words len ≤ x → m' x = m x) ∧
    (0 < len → 1 ≤ len - 4 * process_in_place_words len ≤ 4).
Proof.
  intros Hlen.
  destruct (process_in_place_run addr len m Hlen) as (m' & Hrun & Hxor & Hframe).
  destruct (process_in_place_words_range len Hlen) as (_ & Htail & _).
  exists m'. split; [exact Hrun|]. split; [exact Hxor|]. split; [exact Hframe|exact Htail].
Qed.

Lemma process_in_place_spec_witness :
  ∃ m', process_in_place 100 9 ramp_mem = Some m' ∧
    (∀ j i, 0 ≤ j < process_in_place_words 9 → 0 ≤ i < 4 →
       load8 m' (100 + 4 * j + i)
       = Z.lxor (load8 ramp_mem (100 + 4 * j + i)) (salt_byte i)) ∧
    (∀ x, x < 100 ∨ 100 + 4 * process_in_place_words 9 ≤ x → m' x = ramp_mem x) ∧
    (0 < 9 → 1 ≤ 9 - 4 * process_in_place_words 9 ≤ 4).
Proof. apply (process_in_place_spec 100 9 ramp_mem). lia. Defined.

(** [process_in_place] undoes itself (tx.c, lines 223-228): a second call
    on the same buffer gives every byte of memory the value it had before
    the first. *)
Theorem process_in_place_involutive addr len m :
  0 ≤ len →
  ∃ m1 m2, process_in_place addr len m = Some m1 ∧
    process_in_place addr len m1 = Some m2 ∧
    ∀ x, load8 m2 x = load8 m x.
Proof.
  intros Hlen.
  destruct (process_in_place_run addr len m Hlen) as (m1 & Hrun1 & Hxor1 & Hframe1).
  destruct (process_in_place_run addr len m1 Hlen) as (m2 & Hrun2 & Hxor2 & Hframe2).
  exists m1, m2. split; [done|]. split; [done|].
  intros x.
  destruct (decide (addr ≤ x < addr + 4 * process_in_place_words len)) as [Hin|Hout].
  - assert (Hx : x = addr + 4 * ((x - addr) / 4) + (x - addr) mod 4).
    { Z.div_mod_to_equations. lia. }
    assert (Hj : 0 ≤ (x - addr) / 4 < process_in_place_words len).
    { Z.div_mod_to_equations. lia. }
    assert (Hi : 0 ≤ (x - addr) mod 4 < 4) by (apply Z.mod_pos_bound; lia).
    rewrite Hx, Hxor2, Hxor1 by done.
    by rewrite Z.lxor_assoc, Z.lxor_nilpotent, Z.lxor_0_r.
  - unfold load8. rewrite Hframe2, Hframe1 by lia. done.
Qed.

Lemma process_in_place_involutive_witness :
  ∃ m1 m2, process_in_place 100 9 ramp_mem = Some m1 ∧
    process_in_place 100 9 m1 = Some m2 ∧
    ∀ x, load8 m2 x = load8 ramp_mem x.
Proof. apply (process_in_place_involutive 100 9 ramp_mem). lia. Defined.

(** ** TcpConn: ReadFull and WriteFull *)

Lemma calls_total_cons (call : io_call) calls :
  calls_total (call :: calls) = call.2 + calls_total calls.
Proof. reflexivity. Qed.

Lemma u64_small z : 0 ≤ z < 2 ^ 64 → u64 z = z.
Proof. intros Hz. unfold u64. by apply Z.mod_small. Qed.

Lemma ssize_of_size_small n : 0 ≤ n < 2 ^ 63 → ssize_of_size n = n.
Proof. intros Hn. unfold ssize_of_size. destruct (Z.ltb_spec n (2 ^ 63)); lia. Qed.

Section FullLoops.
Context {conn : Type}.
Variable io : conn → Z → Z * conn.
Hypothesis io_bound : ∀ c req, 0 < req → (io c req).1 ≤ req.
Variable len : Z.
Hypothesis len_range : 0 ≤ len < 2 ^ 63.

Lemma ReadFull_loop_spec : ∀ fuel n c calls,
  0 ≤ n ≤ len → len - n ≤ Z.of_nat fuel →
  ∃ r c' new,
    ReadFull_loop io fuel len n c calls = Some (Returned r, c', calls ++ new) ∧
    calls_chained len n new ∧
    Forall (fun call : io_call => call.2 ≤ call.1.2) new ∧
    ((r = len ∧ n + calls_total new = len ∧
      Forall (fun call : io_call => 0 < call.2) new)
     ∨ (r ≤ 0 ∧ ∃ before last,
          new = before ++ [last] ∧ last.2 = r ∧
          Forall (fun call : io_call => 0 < call.2) before ∧
          n + calls_total before < len)).
Proof.
  assert (H63 : 2 ^ 63 < 2 ^ 64) by done.
  induction fuel as [|fuel IH]; intros n c calls Hn Hfuel.
  - exists len, c, []. simpl. case_decide; [lia|]. case_decide; [|lia].
    rewrite app_nil_r, ssize_of_size_small by lia. subst n.
    split; [done|]. split; [done|]. split; [done|]. left.
    split; [done|]. split; [simpl; unfold calls_total; simpl; lia|done].
  - simpl ReadFull_loop. case_decide as Hlt; cycle 1.
    { exists len, c, []. case_decide; [|lia].
      rewrite app_nil_r, ssize_of_size_small by lia. subst n.
      split; [done|]. split; [done|]. split; [done|]. left.
      split; [done|]. split; [unfold calls_total; simpl; lia|done]. }
    rewrite (u64_small (len - n)) by lia.
    pose proof (io_bound c (len - n)) as Hret.
    destruct (io c (len - n)) as [ret c'] eqn:Hio. simpl in Hret.
    specialize (Hret ltac:(lia)).
    case_decide as Hstop.
    + exists ret, c', [(n, len - n, ret)]. split; [done|].
      split; [by simpl|]. split; [by repeat constructor|]. right.
      split; [done|]. exists [], (n, len - n, ret).
      split; [done|]. split; [done|]. split; [done|].
      unfold calls_total. simpl. lia.
    + rewrite (u64_small (n + ret)) by lia.
      destruct (IH (n + ret) c' (calls ++ [(n, len - n, ret)]))
        as (r & c'' & new & Hrun & Hch & Hle & Hres); [lia|lia|].
      exists r, c'', ((n, len - n, ret) :: new).
      split; [by rewrite Hrun, <- app_assoc|].
      split; [by simpl|]. split; [by constructor|].
      destruct Hres as [(-> & Htot & Hpos)|(Hr & before & last & -> & Hlast & Hpos & Htot)].
      * left. split; [done|]. rewrite calls_total_cons. simpl.
        split; [lia|]. constructor; [simpl; lia|done].
      * right. split; [done|]. exists ((n, len - n, ret) :: before), last.
        split; [done|]. split; [done|]. rewrite calls_total_cons. simpl.
        split; [|lia]. constructor; [simpl; lia|done].
Qed.

Lemma WriteFull_loop_spec : ∀ fuel n c calls,
  0 ≤ n ≤ len → len - n ≤ Z.of_nat fuel →
  ∃ res c' new,
    WriteFull_loop io fuel len n c calls = Some (res, c', calls ++ new) ∧
    calls_chained len n new ∧
    Forall (fun call : io_call => call.2 ≤ call.1.2) new ∧
    match res with
    | Returned r =>
        (r = len ∧ n + calls_total new = len ∧
         Forall (fun call : io_call => 0 < call.2) new)
        ∨ (r < 0 ∧ ∃ before last,
             new = before ++ [last] ∧ last.2 = r ∧
             Forall (fun call : io_call => 0 < call.2) before ∧
             n + calls_total before < len)
    | AssertFailed =>
        ∃ before last,
          new = before ++ [last] ∧ last.2 = 0 ∧
          Forall (fun call : io_call => 0 < call.2) before ∧
          n + calls_total before < len
    end.
Proof.
  assert (H63 : 2 ^ 63 < 2 ^ 64) by done.
  induction fuel as [|fuel IH]; intros n c calls Hn Hfuel.
  - exists (Returned len), c, []. simpl. case_decide; [lia|]. case_decide; [|lia].
    rewrite app_nil_r, ssize_of_size_small by lia. subst n.
    split; [done|]. split; [done|]. split; [done|]. left.
    split; [done|]. split; [unfold calls_total; simpl; lia|done].
  - simpl WriteFull_loop. case_decide as Hlt; cycle 1.
    { exists (Returned len), c, []. case_decide; [|lia].
      rewrite app_nil_r, ssize_of_size_small by lia. subst n.
      split; [done|]. split; [done|]. split; [done|]. left.
      split; [done|]. split; [unfold calls_total; simpl; lia|done]. }
    rewrite (u64_small (len - n)) by lia.
    pose proof (io_bound c (len - n)) as Hret.
    destruct (io c (len - n)) as [ret c'] eqn:Hio. simpl in Hret.
    specialize (Hret ltac:(lia)).
    case_decide as Hneg; [|case_decide as Hpos0].
    + exists (Returned ret), c', [(n, len - n, ret)]. split; [done|].
      split; [by simpl|]. split; [by repeat constructor|]. right.
      split; [done|]. exists [], (n, len - n, ret).
      split; [done|]. split; [done|]. split; [done|].
      unfold calls_total. simpl. lia.
    + rewrite (u64_small (n + ret)) by lia.
      destruct (IH (n + ret) c' (calls ++ [(n, len - n, ret)]))
        as (res & c'' & new & Hrun & Hch & Hle & Hres); [lia|lia|].
      exists res, c'', ((n, len - n, ret) :: new).
      split; [by rewrite Hrun, <- app_assoc|].
      split; [by simpl|]. split; [by constructor|].
      destruct res as [r|].
      * destruct Hres as [(-> & Htot & Hpos)|(Hr & before & last & -> & Hlast & Hpos & Htot)].
        -- left. split; [done|]. rewrite calls_total_cons. simpl.
           split; [lia|]. constructor; [simpl; lia|done].
        -- right. split; [done|]. exists ((n, len - n, ret) :: before), last.
           split; [done|]. split; [done|]. rewrite calls_total_cons. simpl.
           split; [|lia]. constructor; [simpl; lia|done].
      * destruct Hres as (before & last & -> & Hlast & Hpos & Htot).
        exists ((n, len - n, ret) :: before), last.
        split; [done|]. split; [done|]. rewrite calls_total_cons. simpl.
        split; [|lia]. constructor; [simpl; lia|done].
    + exists AssertFailed, c', [(n, len - n, ret)]. split; [done|].
      split; [by simpl|]. split; [by repeat constructor|].
      exists [], (n, len - n, ret).
      split; [done|]. split; [simpl; lia|]. split; [done|].
      unfold calls_total. simpl. lia.
Qed.

End FullLoops.

(** [TcpConn::ReadFull] (bindings/cc/net.h, lines 186-197).  When a read
    never returns more than it was asked for, [ReadFull(buf, len)] returns
    and its assertion holds.  Every call of [Read] starts at the offset the
    calls before it reached and asks for exactly the bytes still missing, so
    no byte is ever written behind [buf + len].  The result is [len], after
    calls that all returned a positive count and that add up to [len]; or it
    is the first result of [Read] that is zero or negative, however many
    bytes the calls before it had read.  With [len = 0] the result is 0 and
    [Read] is not called. *)
Theorem ReadFull_exact {conn : Type} (tcp_read : conn → Z → Z * conn) len c :
  (∀ c req, 0 < req → (tcp_read c req).1 ≤ req) →
  0 ≤ len < 2 ^ 63 →
  ∃ r c' calls,
    ReadFull tcp_read len c = Some (Returned r, c', calls) ∧
    calls_chained len 0 calls ∧
    (len = 0 → calls = [] ∧ r = 0) ∧
    ((r = len ∧ calls_total calls = len ∧
      Forall (fun call : io_call => 0 < call.2) calls)
     ∨ (r ≤ 0 ∧ ∃ before last,
          calls = before ++ [last] ∧ last.2 = r ∧
          Forall (fun call : io_call => 0 < call.2) before ∧
          calls_total before < len)).
Proof.
  intros Hio Hlen. unfold ReadFull.
  destruct (ReadFull_loop_spec tcp_read Hio len Hlen (Z.to_nat len) 0 c [])
    as (r & c' & calls & Hrun & Hch & _ & Hres); [lia|lia|].
  exists r, c', calls. split; [exact Hrun|]. split; [exact Hch|]. split.
  - intros ->. simpl in Hrun. injection Hrun as <- _ <-. done.
  - destruct Hres as [(? & ? & ?)|(? & before & last & ? & ? & ? & ?)].
    + left. split; [done|]. split; [lia|done].
    + right. split; [done|]. exists before, last. repeat split; try done; lia.
Qed.

Lemma ReadFull_exact_witness :
  ∃ r c' calls,
    ReadFull slow_read 7 100 = Some (Returned r, c', calls) ∧
    calls_chained 7 0 calls ∧
    (7 = 0 → calls = [] ∧ r = 0) ∧
    ((r = 7 ∧ calls_total calls = 7 ∧
      Forall (fun call : io_call => 0 < call.2) calls)
     ∨ (r ≤ 0 ∧ ∃ before last,
          calls = before ++ [last] ∧ last.2 = r ∧
          Forall (fun call : io_call => 0 < call.2) before ∧
          calls_total before < 7)).
Proof.
  apply (ReadFull_exact slow_read 7 100).
  - intros c req Hreq. unfold slow_read. simpl. lia.
  - split; [lia|reflexivity].
Defined.

(** [TcpConn::WriteFull] (bindings/cc/net.h, lines 200-212).  When a write
    never reports more than it was asked for, [WriteFull(buf, len)] ends.
    Every call of [Write] starts at the offset the calls before it reached
    and asks for exactly the bytes still missing.  The call returns [len],
    after writes that all reported a positive count and that add up to
    [len]; or it returns the first negative result of [Write]; or, when a
    [Write] reports zero bytes, it stops in the assertion [ret > 0], unlike
    [ReadFull], which returns a zero. *)
Theorem WriteFull_exact {conn : Type} (tcp_write : conn → Z → Z * conn) len c :
  (∀ c req, 0 < req → (tcp_write c req).1 ≤ req) →
  0 ≤ len < 2 ^ 63 →
  ∃ res c' calls,
    WriteFull tcp_write len c = Some (res, c', calls) ∧
    calls_chained len 0 calls ∧
    match res with
    | Returned r =>
        (r = len ∧ calls_total calls = len ∧
         Forall (fun call : io_call => 0 < call.2) calls)
        ∨ (r < 0 ∧ ∃ before last,
             calls = before ++ [last] ∧ last.2 = r ∧
             Forall (fun call : io_call => 0 < call.2) before ∧
             calls_total before < len)
    | AssertFailed =>
        ∃ before last,
          calls = before ++ [last] ∧ last.2 = 0 ∧
          Forall (fun call : io_call => 0 < call.2) before ∧
          calls_total before < len
    end.
Proof.
  intros Hio Hlen. unfold WriteFull.
  destruct (WriteFull_loop_spec tcp_write Hio len Hlen (Z.to_nat len) 0 c [])
    as (res & c' & calls & Hrun & Hch & _ & Hres); [lia|lia|].
  exists res, c', calls. split; [exact Hrun|]. split; [exact Hch|].
  destruct res as [r|].
  - destruct Hres as [(? & ? & ?)|(? & before & last & ? & ? & ? & ?)].
    + left. split; [done|]. split; [lia|done].
    + right. split; [done|]. exists before, last. repeat split; try done; lia.
  - destruct Hres as (before & last & ? & ? & ? & ?).
    exists before, last. repeat split; try done; lia.
Qed.

Lemma WriteFull_exact_witness :
  ∃ res c' calls,
    WriteFull slow_write 7 5 = Some (res, c', calls) ∧
    calls_chained 7 0 calls ∧
    match res with
    | Returned r =>
        (r = 7 ∧ calls_total calls = 7 ∧
         Forall (fun call : io_call => 0 < call.2) calls)
        ∨ (r < 0 ∧ ∃ before last,
             calls = before ++ [last] ∧ last.2 = r ∧
             Forall (fun call : io_call => 0 < call.2) before ∧
             calls_total before < 7)
    | AssertFailed =>
        ∃ before last,
          calls = before ++ [last] ∧ last.2 = 0 ∧
          Forall (fun call : io_call => 0 < call.2) before ∧
          calls_total before < 7
    end.
Proof.
  apply (WriteFull_exact slow_write 7 5).
  - intros c req Hreq. unfold slow_write.
    destruct (Z.leb_spec c 0); simpl; lia.
  - split; [lia|reflexivity].
Defined.

(** ** The headers of the segments *)

Lemma gso_copy_header_step_kept m curr i :
  kept_offset i → gso_copy_header_step m curr (curr + i) = m (curr + i).
Proof.
  intros Hi. unfold kept_offset, off_olflags in Hi.
  unfold gso_copy_header_step, off_len, off_completion_data, memcpy.
  rewrite gso_update_len_fields_out by lia.
  rewrite store64_out, store32_out, memmove_out by lia. reflexivity.
Qed.

Lemma gso_copy_headers_kept : ∀ k curr m out curr' m' out',
  gso_copy_headers k curr m out = (curr', m', out') →
  ∀ j i, 0 ≤ j ≤ Z.of_nat k → kept_offset i →
         m' (curr + 1518 * j + i) = m (curr + i).
Proof.
  induction k as [|k IH]; intros curr m out curr' m' out' Hrun j i Hj Hi.
  - simpl in Hrun. injection Hrun as <- <- <-. f_equal. lia.
  - cbn [gso_copy_headers] in Hrun.
    fold (gso_copy_header_step m curr) in Hrun.
    pose proof Hi as Hi'. unfold kept_offset, off_olflags in Hi'.
    destruct (decide (j = 0)) as [->|Hne].
    + apply gso_copy_headers_spec in Hrun as (_ & _ & Hframe & _).
      rewrite Hframe by (intros j' Hj'; lia).
      rewrite Z.mul_0_r, Z.add_0_r. by apply gso_copy_header_step_kept.
    + replace (curr + 1518 * j + i) with (curr + 1518 + 1518 * (j - 1) + i) by lia.
      rewrite (IH _ _ _ _ _ _ Hrun) by (done || lia).
      apply gso_copy_header_step_template. lia.
Qed.

(** The headers the segmenter writes (tx.c, lines 322-343).  For an
    oversized descriptor with a segment count [segs] of at least one and a
    payload length of at least [1458 * (segs - 1)], every segment starts
    with a copy of the 60-byte header block of the descriptor in
    which only the completion token, the length of the descriptor, the IP
    total length and the UDP length were rewritten.  The offload flags, the
    Ethernet header, the other fields of the IP header (identification,
    flags, protocol, header checksum, addresses), the UDP ports and the UDP
    checksum are the same bytes in every segment as in the descriptor: no
    checksum is recomputed. *)
Theorem tx_burst_segment_headers m h :
  MTU_SIZE < hdr_len m h →
  1 ≤ gso_segs m h →
  1458 * (gso_segs m h - 1) ≤ gso_payload_len m h →
  ∃ m' out,
    tx_burst_segment m h = Some (m', out) ∧
    out = seg_ptrs h (Z.to_nat (gso_segs m h)) ∧
    ∀ j i, 0 ≤ j < gso_segs m h → kept_offset i →
           m' (h + 1518 * j + i) = m (h + i).
Proof.
  intros Hbig Hsegs Hfill.
  assert (Hwrap : 1458 * (gso_segs m h - 1) < 2 ^ 32).
  { pose proof (gso_payload_len_range m h). lia. }
  unfold tx_burst_segment.
  destruct (Z.leb_spec (hdr_len m h) MTU_SIZE) as [?|_]; [lia|].
  fold (gso_payload_len m h). fold (gso_segs m h).
  set (plen := gso_payload_len m h) in *. set (segs := gso_segs m h) in *.
  cbv zeta.
  destruct (Z.eqb_spec segs 0) as [?|_]; [lia|].
  destruct (Z.ltb_spec plen (1458 * (segs - 1))) as [?|_]; [lia|].
  pose proof (gso_move_payload_spec h segs plen Hwrap) as Hmove.
  cbv zeta in Hmove.
  assert (Hs1 : u32 (segs - 1) = segs - 1) by (apply u32_small; lia).
  rewrite Hs1 in *.
  assert (Hs2 : u32 (1458 * (segs - 1)) = 1458 * (segs - 1)) by (apply u32_small; lia).
  rewrite Hs2 in *.
  set (r := u32 (plen - 1458 * (segs - 1))) in *.
  assert (Hr : 0 ≤ r) by apply u32_nonneg.
  set (k := Z.to_nat (segs - 1)).
  assert (Hk : Z.of_nat k = segs - 1) by (unfold k; lia).
  specialize (Hmove k 1 m ltac:(lia) ltac:(lia)).
  replace (hdr_payload h + 42 + 1458 * (segs - 1)) with (h + 60 + 1458 * (segs - 1))
    by (unfold hdr_payload, sizeof_tx_net_hdr; lia).
  destruct (gso_move_payload k 1 segs plen _ m) as [curr1 m1].
  simpl in Hmove. destruct Hmove as (Hc1 & _ & Hmframe).
  destruct (gso_copy_headers k (curr1 - 60) m1 []) as [[curr2 m2] out] eqn:Hcopy.
  pose proof (gso_copy_headers_kept _ _ _ _ _ _ _ Hcopy) as Hkept.
  apply gso_copy_headers_spec in Hcopy as (Hc2 & Hout & _).
  assert (Hcurr1 : curr1 - 60 = h) by lia.
  rewrite Hcurr1 in *. clear Hcurr1. rewrite Hk in *.
  assert (Hlast : curr2 = h + 1518 * (segs - 1)) by lia.
  eexists _, _. split; [reflexivity|]. split.
  { rewrite Hout. simpl.
    replace (Z.to_nat segs) with (S k) by lia.
    rewrite seg_ptrs_snoc. do 2 f_equal. lia. }
  intros j i Hj Hi. pose proof Hi as Hi'. unfold kept_offset, off_olflags in Hi'.
  rewrite gso_update_len_fields_out by lia.
  rewrite store32_out by (unfold off_len; lia).
  rewrite Hkept by (done || lia).
  apply Hmframe. intros c Hc. lia.
Qed.

Lemma tx_burst_segment_headers_witness :
  MTU_SIZE < hdr_len gso_shm 1000 ∧ gso_segs gso_shm 1000 = 3 ∧
  gso_payload_len gso_shm 1000 = 4000 ∧
  ∃ m' out,
    tx_burst_segment gso_shm 1000 = Some (m', out) ∧
    out = seg_ptrs 1000 (Z.to_nat (gso_segs gso_shm 1000)) ∧
    ∀ j i, 0 ≤ j < gso_segs gso_shm 1000 → kept_offset i →
           m' (1000 + 1518 * j + i) = gso_shm (1000 + i).
Proof.
  assert (H1 : MTU_SIZE < hdr_len gso_shm 1000) by (vm_compute; reflexivity).
  assert (H2 : gso_segs gso_shm 1000 = 3) by (vm_compute; reflexivity).
  assert (H3 : gso_payload_len gso_shm 1000 = 4000) by (vm_compute; reflexivity).
  split; [exact H1|]. split; [exact H2|]. split; [exact H3|].
  apply (tx_burst_segment_headers gso_shm 1000 H1).
  - rewrite H2. lia.
  - rewrite H2, H3. lia.
Defined.

(** ** From the attachment of a segment to its completion *)

(** A segment and its completion (tx.c, lines 52-100 and 105-160).  An mbuf
    that [tx_prepare_tx_mbuf] attached to a segment of a thread of a
    well-formed process can be released at once: [tx_send_completion]
    returns on it.  When it returns true the process has the reference count
    it had before the attachment; when it returns false, which takes a full
    overflow queue, the reference taken by the attachment is still held.
    When the token of the segment is not zero and the process is not killed,
    a true result means that the token of the segment was appended to a ring
    of the process or to its overflow queue; when the token is zero or the
    process is killed, the result is true and neither a ring nor the log of
    accepted records changes. *)
Theorem tx_prepare_then_completion buf h th s T P B :
  threads s !! th = Some T →
  procs s !! th_p T = Some P →
  mbufs s !! buf = Some B →
  is_Some (page_paddrs P !! frame_page P h) →
  proc_ok s P →
  ∃ s1 B' r s2,
    tx_prepare_tx_mbuf buf h th s = Ret tt s1 ∧
    mbufs s1 !! buf = Some B' ∧
    tx_send_completion B' s1 = Some (r, s2) ∧
    ref <$> procs s2 !! th_p T = Some (if r then ref P else ref P + 1) ∧
    (r = true → kill P = false → hdr_completion_data (shm s) h ≠ 0 →
       ring_enqueued (RX_NET_COMPLETE, hdr_completion_data (shm s) h) s1 s2 ∨
       overflow_enqueued (th_p T) (hdr_completion_data (shm s) h) s1 s2) ∧
    (hdr_completion_data (shm s) h = 0 ∨ kill P = true →
       r = true ∧ rings_unchanged s1 s2 ∧ rx_log s2 = rx_log s1).
Proof.
  intros HT HP HB Hpage (Hths & Hnr & Hoq).
  destruct (tx_prepare_tx_mbuf_spec buf h th s T P B HT HP HB Hpage)
    as (s1 & B' & Hrun & Hmb & Hprocs & _ & _ & Hpriv & Hframe).
  destruct Hframe as (_ & _ & _ & _ & _ & _ & _ & _ & _ & Hthr & _).
  assert (HB' : mbufs s1 !! buf = Some B').
  { rewrite Hmb. apply list_lookup_insert_eq. by eapply lookup_lt_Some. }
  assert (HP1 : procs s1 !! th_p T = Some (set_ref (ref P + 1) P)).
  { by rewrite Hprocs, list_lookup_alter_eq, HP. }
  destruct (tx_send_completion_paths B' s1 (th_p T) (set_ref (ref P + 1) P))
    as (r & s2 & path & Hcomp & Hpath).
  { by rewrite Hpriv. }
  { done. }
  { split; [|by split]. simpl. by rewrite Hthr. }
  { exists th. rewrite Hpriv, Hthr, HT. split; [done|]. by eexists. }
  exists s1, B', r, s2. split; [done|]. split; [done|]. split; [done|].
  unfold completion_path_spec in Hpath. rewrite Hpriv in Hpath.
  cbn [completion_data kill ref set_ref] in Hpath.
  destruct path.
  - destruct Hpath as (Hsup & -> & ->). split; [|split].
    + rewrite procs_proc_put, list_lookup_alter_eq, HP1. simpl. do 2 f_equal. lia.
    + intros _ Hk Htok. destruct Hsup; congruence.
    + intros _. by repeat split.
  - destruct Hpath as (Hk & Hne & -> & Hring & _ & _ & Href). split; [|split].
    + rewrite Href. do 2 f_equal. lia.
    + intros _ _ _. by left.
    + intros [?|?]; congruence.
  - destruct Hpath as (Hk & Hne & -> & _ & Hov & _ & Href). split; [|split].
    + rewrite Href. do 2 f_equal. lia.
    + intros _ _ _. by right.
    + intros [?|?]; congruence.
  - destruct Hpath as (Hk & Hne & -> & _ & _ & _ & _ & Href). split; [|split].
    + by rewrite Href.
    + done.
    + intros [?|?]; congruence.
Qed.

Lemma tx_prepare_then_completion_witness :
  ∃ s1 B' r s2,
    tx_prepare_tx_mbuf 0 1000 0 (bp_state [1000]) = Ret tt s1 ∧
    mbufs s1 !! 0%nat = Some B' ∧
    tx_send_completion B' s1 = Some (r, s2) ∧
    ref <$> procs s2 !! 0%nat = Some (if r then ref bp_proc else ref bp_proc + 1) ∧
    (r = true → kill bp_proc = false →
     hdr_completion_data (shm (bp_state [1000])) 1000 ≠ 0 →
       ring_enqueued (RX_NET_COMPLETE, hdr_completion_data (shm (bp_state [1000])) 1000)
         s1 s2 ∨
       overflow_enqueued 0 (hdr_completion_data (shm (bp_state [1000])) 1000) s1 s2) ∧
    (hdr_completion_data (shm (bp_state [1000])) 1000 = 0 ∨ kill bp_proc = true →
       r = true ∧ rings_unchanged s1 s2 ∧ rx_log s2 = rx_log s1).
Proof.
  apply (tx_prepare_then_completion 0 1000 0 (bp_state [1000])
           (mk_thread 0 true [] 8 [(TXPKT_NET_XMIT, 1000)]) bp_proc
           (mbuf_of (mk_priv None None 0))).
  - reflexivity.
  - reflexivity.
  - reflexivity.
  - exists (2 ^ 30). vm_compute. reflexivity.
  - split; [|split; simpl; [lia|done]]. repeat constructor. by eexists.
Defined.

(** ** The physical address of a frame *)

Lemma PGN_2MB_div a : PGN_2MB a = a / 2 ^ 21.
Proof. unfold PGN_2MB. apply Z.shiftr_div_pow2. lia. Qed.

Lemma PGOFF_2MB_mod a : PGOFF_2MB a = a mod 2 ^ 21.
Proof.
  unfold PGOFF_2MB. change (2 ^ 21 - 1) with (Z.ones 21). apply Z.land_ones. lia.
Qed.

(** The address [tx_prepare_tx_mbuf] gives to the driver (tx.c, lines
    60-63).  For a region whose base is aligned to 2 MiB and a frame at the
    offset [off] into the region, the physical address of the mbuf is the
    entry [off / 2 MiB] of the page table of the process plus [off mod 2
    MiB]: the page that holds the first byte of the frame, and the place of
    that byte in it. *)
Theorem tx_prepare_tx_mbuf_physaddr buf h th s T P B paddr :
  threads s !! th = Some T →
  procs s !! th_p T = Some P →
  mbufs s !! buf = Some B →
  region_base P mod 2 ^ 21 = 0 →
  0 ≤ hdr_payload h - region_base P < 2 ^ 53 →
  page_paddrs P !! Z.to_nat ((hdr_payload h - region_base P) / 2 ^ 21) = Some paddr →
  0 ≤ paddr → paddr + 2 ^ 21 ≤ 2 ^ 64 →
  ∃ s1 B', tx_prepare_tx_mbuf buf h th s = Ret tt s1 ∧
    mbufs s1 !! buf = Some B' ∧
    buf_physaddr B' = paddr + (hdr_payload h - region_base P) mod 2 ^ 21.
Proof.
  intros HT HP HB Hbase Hoff Hpage Hp0 Hp1.
  assert (Hpn : u32 (PGN_2MB (u64 (hdr_payload h - region_base P)))
                = (hdr_payload h - region_base P) / 2 ^ 21).
  { rewrite u64_small by (change (2 ^ 53) with 9007199254740992 in Hoff;
                          change (2 ^ 64) with 18446744073709551616; lia).
    rewrite PGN_2MB_div. apply u32_small.
    change (2 ^ 53) with 9007199254740992 in Hoff.
    change (2 ^ 21) with 2097152. change (2 ^ 32) with 4294967296.
    Z.div_mod_to_equations. lia. }
  unfold tx_prepare_tx_mbuf.
  rewrite HT. cbn [of_option]. rewrite HP. cbn [of_option].
  rewrite HB. cbn [of_option]. rewrite Hpn, Hpage. cbn [of_option].
  eexists _, _. split; [reflexivity|]. split.
  { cbn [proc_get upd_proc set_procs set_mbufs mbufs].
    apply list_lookup_insert_eq. by eapply lookup_lt_Some. }
  cbn [buf_physaddr]. rewrite PGOFF_2MB_mod.
  assert (Hmod : hdr_payload h mod 2 ^ 21 = (hdr_payload h - region_base P) mod 2 ^ 21).
  { change (2 ^ 21) with 2097152 in *. Z.div_mod_to_equations. lia. }
  rewrite Hmod. apply u64_small.
  pose proof (Z.mod_pos_bound (hdr_payload h - region_base P) (2 ^ 21) ltac:(lia)).
  lia.
Qed.

Lemma tx_prepare_tx_mbuf_physaddr_witness :
  ∃ s1 B', tx_prepare_tx_mbuf 0 1000 0 (bp_state [1000]) = Ret tt s1 ∧
    mbufs s1 !! 0%nat = Some B' ∧
    buf_physaddr B' = 2 ^ 30 + (hdr_payload 1000 - region_base bp_proc) mod 2 ^ 21.
Proof.
  apply (tx_prepare_tx_mbuf_physaddr 0 1000 0 (bp_state [1000])
           (mk_thread 0 true [] 8 [(TXPKT_NET_XMIT, 1000)]) bp_proc
           (mbuf_of (mk_priv None None 0)) (2 ^ 30)).
  - reflexivity.
  - reflexivity.
  - reflexivity.
  - reflexivity.
  - vm_compute. split; [discriminate|reflexivity].
  - vm_compute. reflexivity.
  - vm_compute. discriminate.
  - vm_compute. discriminate.
Defined.

(** ** The mbufs in flight *)

(** No mbuf is used twice (tx.c, lines 350-385).  The call is entered with
    nothing carried over and rings whose records pass the checks of the
    poller; the descriptors it pulls are well formed, hold in their frames
    what the logging loop reads and lie apart.  When the pool holds no mbuf
    twice and enough of them, [tx_burst] returns, false when it pulled
    nothing and true otherwise, and it offers the driver no mbuf twice; on
    return the carried-over buffers and the pool again hold no mbuf twice:
    they are what is left of the pool of the entry, in the same order, once
    the accepted buffers are taken out.  The call returns with
    [n_bufs = n_pkts], the number of buffers the driver did not accept. *)
Theorem tx_burst_mbufs_apart burst accept s :
  burst * 50 < 2 ^ 16 → 0 < burst →
  burst_ready burst s →
  (length (burst_segs burst s) ≤ length (pool s))%nat →
  (length (burst_segs burst s) ≤ length (bufs s))%nat →
  Forall (fun b => (b < length (mbufs s))%nat)
    (take (length (burst_segs burst s)) (pool s)) →
  NoDup (pool s) →
  Forall (seg_ok s) (burst_segs burst s) →
  ∃ s' offered ret,
    tx_burst burst accept s = Ret (bool_decide (polled burst s ≠ [])) s' ∧
    nic_log s' = nic_log s ++
      (if decide (polled burst s = []) then [] else [(offered, ret)]) ∧
    offered = take (length (burst_segs burst s)) (pool s) ∧
    ret = Z.max 0 (Z.min accept (Z.of_nat (length (burst_segs burst s)))) ∧
    NoDup offered ∧
    n_bufs s' = n_pkts s' ∧
    n_pkts s' = Z.of_nat (length offered) - ret ∧
    take (Z.to_nat (n_bufs s')) (bufs s') ++ pool s'
      = drop (Z.to_nat ret) offered ++ drop (length (burst_segs burst s)) (pool s) ∧
    take (Z.to_nat (n_bufs s')) (bufs s') ++ pool s' `sublist_of` pool s ∧
    NoDup (take (Z.to_nat (n_bufs s')) (bufs s') ++ pool s').
Proof.
  intros Hb Hb0 Hready Hpool Hcap Hvalid Hnd Hsegs.
  destruct (decide (polled burst s = [])) as [He|Hne].
  { destruct (tx_burst_ready_idle burst accept s Hb Hb0 Hready He)
      as (s' & Hrun & Hnp' & Hnb' & _ & Hlog & Hpl & _).
    exists s', [], 0. rewrite bool_decide_eq_false_2 by (by intros H).
    unfold burst_segs. rewrite He. cbn [batch_segs fmap list_fmap concat length take drop].
    rewrite Hnb', Hnp', Hpl. cbn [Z.to_nat take drop app length].
    split; [exact Hrun|]. split; [by rewrite app_nil_r|]. split; [done|].
    split; [lia|]. split; [apply NoDup_nil_2|]. split; [done|]. split; [done|].
    split; [done|]. split; done. }
  set (segs := burst_segs burst s) in *.
  assert (Hnd2 : NoDup (take (length segs) (pool s))).
  { eapply sublist_NoDup; [exact Hnd|]. apply sublist_take. }
  destruct (tx_burst_run_offers burst accept s)
    as (s' & Hrun & Hlog & Hpl & _); try done.
  fold segs in Hlog, Hpl.
  pose proof Hready as (Hnp & Hnb & Hrings & _).
  assert (Hn31 : 0 ≤ n_pkts s < 2 ^ 31) by (rewrite Hnp; done).
  destruct (tx_burst_carry burst accept s true s' Hb Hb0 (rings_ok_poll_ok s Hrings)
              Hn31 ltac:(lia) Hrun)
    as (_ & [(Hsame & _)|(offered & ret & Hlog' & _ & _ & _ & Hnp' & Hnb' & Htake')]).
  { rewrite Hsame in Hlog. apply (f_equal length) in Hlog.
    rewrite length_app in Hlog. simpl in Hlog. lia. }
  rewrite Hlog in Hlog'. apply app_inv_head in Hlog'. injection Hlog' as Hoff Hret.
  exists s', offered, ret. rewrite bool_decide_eq_true_2 by done.
  assert (Hleft : take (Z.to_nat (n_bufs s')) (bufs s') ++ pool s'
                  = drop (Z.to_nat ret) offered ++ drop (length segs) (pool s)).
  { by rewrite Hnb', Htake', Hpl. }
  assert (Hsub : drop (Z.to_nat ret) offered ++ drop (length segs) (pool s)
                 `sublist_of` pool s).
  { rewrite <- Hoff.
    transitivity (take (length segs) (pool s) ++ drop (length segs) (pool s)).
    - apply sublist_app; [apply sublist_drop|done].
    - by rewrite take_drop. }
  split; [done|]. split; [by rewrite Hlog, Hoff, Hret|].
  split; [by rewrite Hoff|]. split; [by rewrite Hret|].
  split; [by rewrite <- Hoff|]. split; [done|]. split; [done|].
  split; [done|]. rewrite Hleft. split; [done|].
  eapply sublist_NoDup; [exact Hnd|exact Hsub].
Qed.

Lemma tx_burst_mbufs_apart_witness :
  polled 4 gso_iok = [(1000, 0%nat)] ∧
  ∃ s' offered ret,
    tx_burst 4 1 gso_iok = Ret (bool_decide (polled 4 gso_iok ≠ [])) s' ∧
    nic_log s' = nic_log gso_iok ++
      (if decide (polled 4 gso_iok = []) then [] else [(offered, ret)]) ∧
    offered = take (length (burst_segs 4 gso_iok)) (pool gso_iok) ∧
    ret = Z.max 0 (Z.min 1 (Z.of_nat (length (burst_segs 4 gso_iok)))) ∧
    NoDup offered ∧
    n_bufs s' = n_pkts s' ∧
    n_pkts s' = Z.of_nat (length offered) - ret ∧
    take (Z.to_nat (n_bufs s')) (bufs s') ++ pool s'
      = drop (Z.to_nat ret) offered ++ drop (length (burst_segs 4 gso_iok)) (pool gso_iok) ∧
    take (Z.to_nat (n_bufs s')) (bufs s') ++ pool s' `sublist_of` pool gso_iok ∧
    NoDup (take (Z.to_nat (n_bufs s')) (bufs s') ++ pool s').
Proof.
  split; [exact polled_gso_iok|].
  apply (tx_burst_mbufs_apart 4 1 gso_iok).
  - vm_compute. reflexivity.
  - lia.
  - exact burst_ready_gso_iok.
  - rewrite burst_segs_gso_iok. vm_compute. lia.
  - rewrite burst_segs_gso_iok. vm_compute. lia.
  - rewrite burst_segs_gso_iok. repeat constructor; vm_compute; lia.
  - apply (bool_decide_unpack _). vm_compute. exact I.
  - exact seg_ok_gso_iok.
Defined.

(** ** Where a completion goes *)

(** The completion of an active thread (tx.c, lines 131-137).  When the
    thread that sent the segment is active, its completion is offered to the
    ring of that thread and to no other: the rings of the other threads and
    the round-robin cursor of the process are as they were, whatever the
    outcome.  When the ring has room the call returns true, the record is the
    last of the ring and of the log of accepted records; when the ring is
    full no ring and no log changes (the token goes to the overflow queue or,
    when that is full too, nowhere). *)
Theorem tx_send_completion_to_sender buf s p P th T :
  priv_p (tx_pktmbuf_get_priv buf) = Some p →
  priv_th (tx_pktmbuf_get_priv buf) = Some th →
  procs s !! p = Some P → threads s !! th = Some T →
  proc_ok s P →
  kill P = false → completion_data (tx_pktmbuf_get_priv buf) ≠ 0 →
  active T = true →
  ∃ r s', tx_send_completion buf s = Some (r, s') ∧
    (∀ t, t ≠ th → threads s' !! t = threads s !! t) ∧
    next_thread_rr <$> procs s' !! p = Some (next_thread_rr P) ∧
    ((length (rxq T) < rxq_size T)%nat →
       r = true ∧
       threads s' !! th
         = Some (set_rxq (rxq T ++ [(RX_NET_COMPLETE,
                                     completion_data (tx_pktmbuf_get_priv buf))]) T) ∧
       rx_log s' = rx_log s ++ [(th, (RX_NET_COMPLETE,
                                      completion_data (tx_pktmbuf_get_priv buf)))] ∧
       overflows_unchanged s s') ∧
    (¬ (length (rxq T) < rxq_size T)%nat →
       threads s' = threads s ∧ rx_log s' = rx_log s ∧
       (r = true ↔ (nr_overflows P < max_overflows P)%nat)).
Proof.
  intros Hp Hth HP HT (Hths & Hnr & Hoq) Hk Htok Hact.
  apply Z.eqb_neq in Htok.
  unfold tx_send_completion. rewrite Hp. cbn [mbind option_bind].
  rewrite HP. cbn [mbind option_bind]. rewrite Hk, Htok, Hth. cbn [mbind option_bind].
  rewrite HT. cbn [mbind option_bind]. rewrite Hact.
  destruct (lrpc_send_cases th RX_NET_COMPLETE (completion_data (tx_pktmbuf_get_priv buf))
              s T HT) as [[Hroom ->]|[Hfull ->]]; cbn [mbind option_bind].
  - eexists true, _. split; [reflexivity|].
    unfold tx_send_completion_success.
    cbn [snd threads procs rx_log STAT_INC set_stats proc_put upd_proc set_procs
         set_rx_log upd_thread set_threads].
    split; [|split; [|split]].
    + intros t Hne. by rewrite list_lookup_alter_ne.
    + rewrite list_lookup_alter_eq, HP. done.
    + intros _. split; [done|]. split; [|split; [done|]].
      * by rewrite list_lookup_alter_eq, HT.
      * red. cbn [procs]. by apply overflow_of_alter.
    + intros Hno. done.
  - rewrite HP. cbn [mbind option_bind].
    case_decide as Hmax.
    + exists false, s. split; [done|]. split; [done|]. split; [by rewrite HP|].
      split; [done|]. intros _. split; [done|]. split; [done|]. split; [done|lia].
    + case_decide as Hin; [|lia].
      eexists true, _. split; [reflexivity|].
      unfold tx_send_completion_success.
      cbn [snd threads procs rx_log STAT_INC set_stats proc_put upd_proc set_procs].
      split; [done|]. split.
      { rewrite !list_lookup_alter_eq, HP. done. }
      split; [done|]. intros _. split; [done|]. split; [done|]. split; [lia|done].
Qed.

Lemma tx_send_completion_to_sender_witness :
  ∃ r s', tx_send_completion (token_buf 21) spill_iok = Some (r, s') ∧
    (∀ t, t ≠ 0%nat → threads s' !! t = threads spill_iok !! t) ∧
    next_thread_rr <$> procs s' !! 0%nat = Some (next_thread_rr spill_proc) ∧
    ((length (rxq spill_thread) < rxq_size spill_thread)%nat →
       r = true ∧
       threads s' !! 0%nat
         = Some (set_rxq (rxq spill_thread ++
                            [(RX_NET_COMPLETE,
                              completion_data (tx_pktmbuf_get_priv (token_buf 21)))])
                   spill_thread) ∧
       rx_log s' = rx_log spill_iok ++
                     [(0%nat, (RX_NET_COMPLETE,
                               completion_data (tx_pktmbuf_get_priv (token_buf 21))))] ∧
       overflows_unchanged spill_iok s') ∧
    (¬ (length (rxq spill_thread) < rxq_size spill_thread)%nat →
       threads s' = threads spill_iok ∧ rx_log s' = rx_log spill_iok ∧
       (r = true ↔ (nr_overflows spill_proc < max_overflows spill_proc)%nat)).
Proof.
  apply (tx_send_completion_to_sender (token_buf 21) spill_iok 0 spill_proc 0 spill_thread).
  - reflexivity.
  - reflexivity.
  - reflexivity.
  - reflexivity.
  - exact proc_ok_spill.
  - reflexivity.
  - discriminate.
  - reflexivity.
Defined.

(** ** The segmenter stays inside the descriptor *)

Lemma gso_reserved_layout m h plen :
  udp_len_field m h = plen + 8 →
  0 < plen → plen + 8 < 2 ^ 16 →
  hdr_len m h = plen + 60 * ((plen + 1457) / 1458) - 18 →
  let segs := (plen + 1457) / 1458 in
  1 ≤ segs ∧ gso_payload_len m h = plen ∧ gso_segs m h = segs ∧
  gso_residual m h = plen - 1458 * (segs - 1) ∧
  0 < plen - 1458 * (segs - 1) ≤ 1458.
Proof.
  intros Hudp Hpos Hmax Hlen segs. fold segs in Hlen.
  change (2 ^ 16) with 65536 in Hmax.
  assert (Hsegs : 1458 * (segs - 1) < plen ≤ 1458 * segs).
  { unfold segs. Z.div_mod_to_equations. lia. }
  assert (Hpl : gso_payload_len m h = plen).
  { rewrite gso_payload_len_udp, Hudp.
    replace (plen + 8 - 8) with plen by lia. apply u32_small.
    change (2 ^ 32) with 4294967296. lia. }
  assert (Hgs : gso_segs m h = segs).
  { unfold gso_segs. rewrite Hpl, Hlen. unfold sizeof_tx_net_hdr.
    replace (plen + 60 * segs - 18 + 18 - plen) with (segs * 60) by lia.
    unfold u64. rewrite Z.mod_small.
    - rewrite Z.div_mul by lia. apply u32_small.
      change (2 ^ 32) with 4294967296. lia.
    - change (2 ^ 64) with 18446744073709551616. lia. }
  split; [lia|]. split; [done|]. split; [done|]. split; [|lia].
  unfold gso_residual. rewrite Hpl, Hgs. apply u32_small.
  change (2 ^ 32) with 4294967296. lia.
Qed.

(** The segmenter and the bounds of the descriptor (tx.c, lines 300-343).
    For an oversized UDP descriptor whose total length reserves one 60-byte
    header block per segment, [len = plen + 60 * segs - 18] with
    [segs = ceil (plen / 1458)], the segmentation ends and writes only
    inside the descriptor: every byte below the header block or from the end
    of the frame on, [h + 18 + len], is as it was.  The segments fill the
    descriptor exactly: the last one ends where the frame ended. *)
Theorem tx_burst_segment_in_bounds m h plen :
  udp_len_field m h = plen + 8 →
  0 < plen → plen + 8 < 2 ^ 16 →
  hdr_len m h = plen + 60 * ((plen + 1457) / 1458) - 18 →
  MTU_SIZE < hdr_len m h →
  ∃ m' out,
    tx_burst_segment m h = Some (m', out) ∧
    (∀ x, x < h ∨ h + sizeof_tx_net_hdr + hdr_len m h ≤ x → m' x = m x) ∧
    (∀ p, last out = Some p →
          p + sizeof_tx_net_hdr + hdr_len m' p = h + sizeof_tx_net_hdr + hdr_len m h).
Proof.
  intros Hudp Hpos Hmax Hlen Hbig.
  destruct (gso_reserved_layout m h plen Hudp Hpos Hmax Hlen)
    as (Hsegs & Hpl & Hgs & Hres & Hr).
  set (segs := (plen + 1457) / 1458) in *.
  change (2 ^ 16) with 65536 in Hmax.
  destruct (tx_burst_segment_gso m h Hbig) as (m' & Hrun & _ & Hlast & Hframe & _).
  { rewrite Hgs. lia. }
  { rewrite Hgs. change (2 ^ 32) with 4294967296. lia. }
  rewrite Hgs, Hres in *. cbv zeta in Hlast.
  exists m', (seg_ptrs h (Z.to_nat segs)). split; [done|]. split.
  - intros x Hx. apply Hframe. unfold sizeof_tx_net_hdr in Hx. lia.
  - intros p Hp.
    replace (Z.to_nat segs) with (S (Z.to_nat (segs - 1))) in Hp by lia.
    rewrite seg_ptrs_snoc, last_snoc in Hp. injection Hp as <-.
    replace (Z.of_nat (Z.to_nat (segs - 1))) with (segs - 1) by lia.
    destruct Hlast as (Hl & _). rewrite Hl, Hlen.
    rewrite u32_small by (change (2 ^ 32) with 4294967296; lia).
    unfold sizeof_tx_net_hdr. lia.
Qed.

Lemma tx_burst_segment_in_bounds_witness :
  ∃ m' out,
    tx_burst_segment gso_shm 1000 = Some (m', out) ∧
    (∀ x, x < 1000 ∨ 1000 + sizeof_tx_net_hdr + hdr_len gso_shm 1000 ≤ x →
          m' x = gso_shm x) ∧
    (∀ p, last out = Some p →
          p + sizeof_tx_net_hdr + hdr_len m' p
          = 1000 + sizeof_tx_net_hdr + hdr_len gso_shm 1000).
Proof.
  apply (tx_burst_segment_in_bounds gso_shm 1000 4000).
  - vm_compute. reflexivity.
  - lia.
  - vm_compute. reflexivity.
  - vm_compute. reflexivity.
  - vm_compute. reflexivity.
Defined.

(** ** The order of the descriptors of one thread *)

(** Polling one thread (tx.c, lines 258-276 and 196-220).  With one thread
    in the poll set, nothing carried over, and a ring that is not empty and
    holds well-formed records only, the polling phase of [tx_burst] returns
    the descriptors of the first [min burst (length of the ring)] records,
    in the order of the ring, each with the thread; these records leave the
    ring and the others stay; [n_pkts] is their number; and the polling
    cursor advances exactly when the ring held fewer than a burst. *)
Theorem tx_burst_poll_single_thread burst s t T P :
  0 < burst < 2 ^ 31 →
  ts s = [t] → threads s !! t = Some T → procs s !! th_p T = Some P →
  Forall (slot_ok P) (txpktq T) → txpktq T ≠ [] →
  n_pkts s = 0 →
  ∃ s1,
    tx_burst_poll burst s
    = Ret (Some ((fun slot => (slot_ptr P slot, t)) <$> take (Z.to_nat burst) (txpktq T),
                 Z.min burst (Z.of_nat (length (txpktq T))))) s1 ∧
    threads s1 = <[t := set_txpktq (drop (Z.to_nat burst) (txpktq T)) T]> (threads s) ∧
    n_pkts s1 = Z.min burst (Z.of_nat (length (txpktq T))) ∧
    pos s1 = (if decide (Z.of_nat (length (txpktq T)) < burst)
              then u32 (pos s + 1) else pos s).
Proof.
  intros Hb Hts HT HP Hq Hne Hn.
  assert (Hlen : (0 < length (txpktq T))%nat).
  { destruct (txpktq T); [done|simpl; lia]. }
  unfold tx_burst_poll. rewrite Hts. cbn [length tx_burst_poll_loop].
  assert (Hnrts : nrts s = 1) by (unfold nrts; by rewrite Hts).
  rewrite Hnrts. case_decide; [|lia].
  rewrite Z.mod_1_r, Hts. replace ([t] !! Z.to_nat 0) with (Some t) by reflexivity.
  cbn [of_option]. rewrite Hn, Z.sub_0_r, int_of_u32_small by lia.
  unfold tx_drain_queue.
  pose proof (tx_drain_queue_loop_post t (Z.to_nat burst) 0 [] s T HT
                ltac:(by eexists)) as Hpost.
  destruct (tx_drain_queue_loop_pulls t P (Z.to_nat burst) 0 [] s T HT HP
              ltac:(by apply Forall_take)) as (s' & Hrun & Hthr & Htsd & _).
  rewrite Hrun in Hpost |- *.
  destruct Hpost as ((Hpos & _) & Hnp & _).
  assert (Hnr' : nrts s' ≤ 1).
  { unfold nrts. rewrite Htsd, Hts.
    case_decide; [pose proof (length_filter (fun t' => t' ≠ t) [t])|]; simpl in *; lia. }
  clear Htsd.
  cbn [obind app]. rewrite !Z.add_0_l.
  set (c := Z.of_nat (Z.to_nat burst `min` length (txpktq T))).
  assert (Hc : c = Z.min burst (Z.of_nat (length (txpktq T)))) by (unfold c; lia).
  assert (Hu : u32 (n_pkts s' + c) = c).
  { rewrite Hnp, Hn. apply u32_small. change (2 ^ 31) with 2147483648 in Hb.
    change (2 ^ 32) with 4294967296. lia. }
  assert (Hpt : u32 c = c).
  { apply u32_small. change (2 ^ 31) with 2147483648 in Hb.
    change (2 ^ 32) with 4294967296. lia. }
  rewrite Hu, Hpt. cbn [n_pkts set_n_pkts].
  rewrite <- list_fmap_compose.
  case_decide as Hfull.
  - cbn [obind]. eexists. split; [by rewrite Hc|].
    cbn [threads n_pkts pos set_n_pkts]. split; [done|]. split; [done|].
    rewrite decide_False by lia. done.
  - case_decide as Hmore.
    { exfalso. unfold nrts in *. cbn [ts set_n_pkts] in Hmore. lia. }
    cbn [obind n_pkts set_n_pkts].
    destruct (Z.eqb_spec c 0) as [?|_]; [lia|].
    eexists. split; [by rewrite Hc|].
    cbn [threads n_pkts pos set_n_pkts set_pos]. split; [done|]. split; [done|].
    rewrite decide_True by lia. by rewrite Hpos.
Qed.

Lemma tx_burst_poll_single_thread_witness :
  ∃ s1,
    tx_burst_poll 4 bp5_iok
    = Ret (Some ((fun slot => (slot_ptr bp_proc slot, 0%nat))
                   <$> ((fun o => (TXPKT_NET_XMIT, o)) <$> [1000; 3000; 5000; 7000]),
                 4)) s1 ∧
    threads s1
      = <[0%nat := mk_thread 0 true [] 8 [(TXPKT_NET_XMIT, 9000)]]> (threads bp5_iok) ∧
    n_pkts s1 = 4 ∧
    pos s1 = pos bp5_iok.
Proof.
  destruct (tx_burst_poll_single_thread 4 bp5_iok 0
              (mk_thread 0 true [] 8
                 ((fun o => (TXPKT_NET_XMIT, o)) <$> [1000; 3000; 5000; 7000; 9000]))
              bp_proc) as (s1 & Hrun & Hthr & Hn & Hpos).
  - lia.
  - reflexivity.
  - reflexivity.
  - reflexivity.
  - repeat constructor; by eexists.
  - discriminate.
  - reflexivity.
  - exists s1. split; [exact Hrun|]. split; [exact Hthr|]. split; [exact Hn|].
    rewrite Hpos. by rewrite decide_False by (simpl; lia).
Defined.
